(** * VaporBooster: session-orchestration core, verified against its source

    A shallow embedding of the JavaScript sources

    - the encryption utilities (class [CryptoManager]),
    - the rate limiter module (classes [RateLimiter], [ConcurrencyLimiter]
      and [BackoffManager], the last over numbers that round as doubles
      do),
    - the input validator ([sanitizeObject], [sanitizeForLog],
      [sanitizeFilename], [validateAccount], [validateSettings],
      [getEnvInt], [parseJSONSafe]),
    - the configuration manager (settings),
    - the state manager (class [StateManager]: snapshots, export and
      import, backups, auto-save),
    - the UI utilities ([paginate]),
    - [src/accountHandler.js] (class [VaporBooster]: the readers of the
      active sessions, the settings menu, the event handlers of
      [loginAccount]),

    followed by the properties of the specification that these definitions
    satisfy, and the places where the code departs from it. *)

From Stdlib Require Import ZArith QArith Qminmax Qround Qpower Qabs Lia Lqa List.
From Stdlib Require Import Strings.String Strings.Ascii Strings.Byte.
From Stdlib Require Import Sorting.Sorted.
From stdpp Require Import gmap strings list fin_maps pretty.

Local Open Scope string_scope.
Local Open Scope Z_scope.

(* ===================================================================== *)
(** * Part I: definitions                                                  *)
(* ===================================================================== *)

(** ** JavaScript prelude: exceptions, strings, hexadecimal buffers *)

Module JS.

(** The exceptions the modelled code can see. *)
Inductive js_error :=
| TypeError            (* a [null]/[undefined] argument where a value is required *)
| ERR_INVALID_ARG      (* an argument of the right type but an unusable value *)
| ERR_CRYPTO_INIT      (* createCipheriv/createDecipheriv: bad key or IV length *)
| ERR_AUTH_TAG         (* decipher.final(): "unable to authenticate data" *)
| EIO.                 (* a failing file-system call *)

(** A call either returns a value or throws. *)
Inductive result (A : Type) :=
| Ok (a : A)
| Throw (e : js_error).
Arguments Ok {A} a.
Arguments Throw {A} e.

Definition bind {A B} (m : result A) (k : A -> result B) : result B :=
  match m with
  | Ok a => k a
  | Throw e => Throw e
  end.

(** [try { body } catch (err) { handler(err) }] *)
Definition try_catch {A} (body : result A) (handler : js_error -> result A)
  : result A :=
  match body with
  | Ok a => Ok a
  | Throw e => handler e
  end.

(** Truthiness of a string: only the empty string is falsy. *)
Definition truthy (s : string) : bool :=
  match s with
  | EmptyString => false
  | String _ _ => true
  end.

(** Truthiness of [string | null]. *)
Definition truthy_opt (s : option string) : bool :=
  match s with
  | Some s => truthy s
  | None => false
  end.

(** [s.includes(c)] for a one-character needle. *)
Fixpoint includes (c : ascii) (s : string) : bool :=
  match s with
  | EmptyString => false
  | String a r => if Ascii.eqb a c then true else includes c r
  end.

(** [s.split(c)] for a one-character separator. *)
Fixpoint split (c : ascii) (s : string) : list string :=
  match s with
  | EmptyString => [EmptyString]
  | String a r =>
      if Ascii.eqb a c then EmptyString :: split c r
      else match split c r with
           | p :: ps => String a p :: ps
           | [] => [String a EmptyString]
           end
  end.

(** Strings are kept as their UTF-8 bytes, so encoding to and decoding
    from ['utf8'] are the conversions between [string] and [list byte]. *)
Definition utf8_encode (s : string) : list byte := list_byte_of_string s.
Definition utf8_decode (b : list byte) : string := string_of_list_byte b.

(** [s.length]: the number of UTF-16 code units of the string whose
    UTF-8 bytes are [s]: one for each character, two for a character
    outside the basic plane (four bytes in UTF-8); the continuation bytes
    [0x80..0xBF] add nothing. *)
Fixpoint length_utf16 (s : string) : nat :=
  match s with
  | EmptyString => 0
  | String c r =>
      let n := N_of_ascii c in
      ((if ((128 <=? n) && (n <? 192))%N then 0
        else if (240 <=? n)%N then 2 else 1)
       + length_utf16 r)%nat
  end.

(** *** ['hex'] encoding of buffers *)

Definition hex_digit (n : N) : ascii :=
  match n with
  | 0%N => "0" | 1%N => "1" | 2%N => "2" | 3%N => "3"
  | 4%N => "4" | 5%N => "5" | 6%N => "6" | 7%N => "7"
  | 8%N => "8" | 9%N => "9" | 10%N => "a" | 11%N => "b"
  | 12%N => "c" | 13%N => "d" | 14%N => "e" | _ => "f"
  end%char.

Definition hex_value (c : ascii) : option N :=
  let n := N_of_ascii c in
  if ((48 <=? n) && (n <=? 57))%N then Some (n - 48)%N
  else if ((97 <=? n) && (n <=? 102))%N then Some (n - 87)%N
  else if ((65 <=? n) && (n <=? 70))%N then Some (n - 55)%N
  else None.

Definition byte_to_hex (b : byte) : string :=
  String (hex_digit (Byte.to_N b / 16))
    (String (hex_digit (Byte.to_N b mod 16)) EmptyString).

(** [buf.toString('hex')] *)
Fixpoint toString_hex (buf : list byte) : string :=
  match buf with
  | [] => EmptyString
  | b :: r => byte_to_hex b ++ toString_hex r
  end.

(** [Buffer.from(s, 'hex')]: decodes pairs of digits and stops, without
    an error, at the first pair that is not hexadecimal; a trailing odd
    character is dropped. *)
Fixpoint Buffer_from_hex (s : string) : list byte :=
  match s with
  | String c1 (String c2 r) =>
      match hex_value c1, hex_value c2 with
      | Some h, Some l =>
          match Byte.of_N (16 * h + l) with
          | Some b => b :: Buffer_from_hex r
          | None => []
          end
      | _, _ => []
      end
  | _ => []
  end.

End JS.

Import JS.

Notation "'do!' x '<-' m ';' k" := (JS.bind m (fun x => k))
  (at level 10, x name, m at level 100, k at level 200,
   format "'[v' 'do!'  x  '<-'  m ';' '/' k ']'").

(** ** Encryption utilities: [CryptoManager] *)

Module CryptoManager.

Definition KEY_LENGTH : nat := 32.
Definition IV_LENGTH : nat := 16.
Definition SALT_LENGTH : nat := 64.
Definition TAG_LENGTH : nat := 16.

(** The part of Node's [crypto] module that the class calls, as an
    interface.  AES-256-GCM is used through the streaming API
    ([createCipheriv], [update], [final], [getAuthTag], [setAuthTag]);
    the interface keeps the same steps. *)
Class Crypto := {
  (** [crypto.randomBytes(n)]: the [k]-th call of a run returns
      [random_tape k n]. *)
  random_tape : nat -> nat -> list byte;
  (** [crypto.pbkdf2Sync(password, salt, 100000, KEY_LENGTH, 'sha256')] *)
  pbkdf2Sync : string -> list byte -> list byte;
  (** [createCipheriv]/[createDecipheriv] accept this key and IV *)
  cipheriv_ok : list byte -> list byte -> bool;
  (** [cipher.update(plaintext) + cipher.final()] under [key], [iv] *)
  gcm_cipher : list byte -> list byte -> list byte -> list byte;
  (** [cipher.getAuthTag()] for the ciphertext produced under [key], [iv] *)
  gcm_tag : list byte -> list byte -> list byte -> list byte;
  (** [decipher.setAuthTag(tag)] accepts this tag *)
  auth_tag_ok : list byte -> bool;
  (** [decipher.update(ciphertext)]: the deciphered bytes, which the
      streaming API hands out before the tag is checked *)
  gcm_decipher : list byte -> list byte -> list byte -> list byte;
  (** [decipher.final()] returns ([true]) or throws ([false]): the tag
      [tag] authenticates [ciphertext] under [key], [iv] *)
  gcm_verify : list byte -> list byte -> list byte -> list byte -> bool
}.

(** What AES-256-GCM guarantees, as far as the properties below need. *)

(** Deciphering under the same key and IV inverts enciphering, and the
    tag that [getAuthTag] returns is accepted. *)
Definition GcmCorrect (C : Crypto) : Prop :=
  forall key iv pt,
    cipheriv_ok key iv = true ->
    gcm_decipher key iv (gcm_cipher key iv pt) = pt /\
    auth_tag_ok (gcm_tag key iv (gcm_cipher key iv pt)) = true /\
    gcm_verify key iv (gcm_tag key iv (gcm_cipher key iv pt))
               (gcm_cipher key iv pt) = true.

(** A tag made under one key does not verify under another. *)
Definition GcmKeyBinding (C : Crypto) : Prop :=
  forall key key' iv ct,
    key <> key' ->
    gcm_verify key' iv (gcm_tag key iv ct) ct = false.

(** GCM is a stream mode: the ciphertext is as long as the plaintext. *)
Definition GcmLength (C : Crypto) : Prop :=
  forall key iv pt, length (gcm_cipher key iv pt) = length pt.

(** Calls that draw random bytes thread the number of draws made so far. *)
Definition Rand (A : Type) : Type := nat -> result A * nat.

Definition ret {A} (a : A) : Rand A := fun k => (Ok a, k).

Definition lift {A} (r : result A) : Rand A := fun k => (r, k).

Definition rbind {A B} (m : Rand A) (f : A -> Rand B) : Rand B :=
  fun k =>
    match m k with
    | (Ok a, k') => f a k'
    | (Throw e, k') => (Throw e, k')
    end.

Definition randomBytes `{Crypto} (n : nat) : Rand (list byte) :=
  fun k => (Ok (random_tape k n), S k).

Notation "'draw!' x '<-' m ';' k" := (rbind m (fun x => k))
  (at level 10, x name, m at level 100, k at level 200,
   format "'[v' 'draw!'  x  '<-'  m ';' '/' k ']'").

(** The instance state: [this.encryptionKey], as [loadKey] left it. *)
Record t := { encryptionKey : list byte }.

(** A record of the credential store: the two secret fields and the
    marker [_encrypted] (absent on records that were never encrypted). *)
Record Account := {
  username : string;
  password : string;
  sharedSecret : string;
  _encrypted : option bool
}.

(** Truthiness of a field that is a boolean or absent. *)
Definition truthy_flag (f : option bool) : bool :=
  match f with
  | Some b => b
  | None => false
  end.

Section Methods.
Context `{C : Crypto} (this : t).

(** [deriveKey(password, salt)]; [pbkdf2Sync] throws a [TypeError] on a
    [null] password. *)
Definition deriveKey (password : option string) (salt : list byte)
  : result (list byte) :=
  match password with
  | Some pw => Ok (pbkdf2Sync pw salt)
  | None => Throw TypeError
  end.

(** [encrypt(plaintext, password = null)] *)
Definition encrypt (plaintext : string) (password : option string)
  : Rand string :=
  if negb (truthy plaintext) then ret plaintext
  else
    draw! key <-
      (if truthy_opt password then
         draw! salt <- randomBytes SALT_LENGTH;
         lift (deriveKey password salt)
       else ret (encryptionKey this));
    draw! iv <- randomBytes IV_LENGTH;
    draw! _cipher <-
      lift (if cipheriv_ok key iv then Ok tt else Throw ERR_CRYPTO_INIT);
    let ct := gcm_cipher key iv (utf8_encode plaintext) in
    let encrypted := toString_hex ct in
    let tag := gcm_tag key iv ct in
    if truthy_opt password then
      draw! salt <- randomBytes SALT_LENGTH;
      ret (toString_hex salt ++ ":" ++ toString_hex iv ++ ":"
             ++ toString_hex tag ++ ":" ++ encrypted)
    else
      ret (toString_hex iv ++ ":" ++ toString_hex tag ++ ":" ++ encrypted).

(** The envelope [iv:tag:encrypted] of a ciphertext [ct] made under the
    master key with [iv]. *)
Definition envelope3 (iv ct : list byte) : string :=
  toString_hex iv ++ ":" ++ toString_hex (gcm_tag (encryptionKey this) iv ct)
    ++ ":" ++ toString_hex ct.

(** [Buffer.from(parts[i], 'hex')]; a missing part is [undefined],
    on which [Buffer.from] throws. *)
Definition Buffer_from (part : option string) : result (list byte) :=
  match part with
  | Some s => Ok (Buffer_from_hex s)
  | None => Throw TypeError
  end.

(** The [try] block of [decrypt]. *)
Definition decrypt_try (ciphertext : string) (password : option string)
  : result string :=
  let parts := split ":" ciphertext in
  do! sel <-
    (if Nat.eqb (length parts) 4 then
       (* Password-derived encryption *)
       do! salt <- Buffer_from (parts !! 0%nat);
       do! iv <- Buffer_from (parts !! 1%nat);
       do! tag <- Buffer_from (parts !! 2%nat);
       let encrypted := parts !! 3%nat in
       do! key <- deriveKey password salt;
       Ok (iv, tag, encrypted, key)
     else
       (* Standard encryption *)
       do! iv <- Buffer_from (parts !! 0%nat);
       do! tag <- Buffer_from (parts !! 1%nat);
       let encrypted := parts !! 2%nat in
       Ok (iv, tag, encrypted, encryptionKey this));
  let '(iv, tag, encrypted, key) := sel in
  do! _decipher <-
    (if cipheriv_ok key iv then Ok tt else Throw ERR_CRYPTO_INIT);
  do! _tagset <-
    (if auth_tag_ok tag then Ok tt else Throw ERR_INVALID_ARG);
  (* decipher.update(encrypted, 'hex', 'utf8') *)
  do! data <-
    match encrypted with
    | None => Throw TypeError
    | Some e =>
        if Nat.even (String.length e) then Ok (Buffer_from_hex e)
        else Throw ERR_INVALID_ARG
    end;
  let decrypted := utf8_decode (gcm_decipher key iv data) in
  (* decrypted += decipher.final('utf8') *)
  if gcm_verify key iv tag data then Ok decrypted
  else Throw ERR_AUTH_TAG.

(** [decrypt(ciphertext, password = null)] *)
Definition decrypt (ciphertext : string) (password : option string)
  : result string :=
  if negb (truthy ciphertext) || negb (includes ":" ciphertext)
  then Ok ciphertext
  else
    try_catch (decrypt_try ciphertext password)
      (fun _err => (* console.error('Decryption failed:', err.message) *)
         Ok ciphertext (* Return as-is if can't decrypt *)).

(** What [decrypt] passes to [console.error]. *)
Definition decrypt_console (ciphertext : string) (password : option string)
  : list js_error :=
  if negb (truthy ciphertext) || negb (includes ":" ciphertext) then []
  else match decrypt_try ciphertext password with
       | Ok _ => []
       | Throw e => [e]
       end.

(** [encryptAccount(account)] *)
Definition encryptAccount (account : option Account)
  : Rand (option Account) :=
  match account with
  | None => ret None
  | Some a =>
      draw! pw <- encrypt (password a) None;
      draw! ss <-
        (if truthy (sharedSecret a) then encrypt (sharedSecret a) None
         else ret "");
      ret (Some {| username := username a;
                   password := pw;
                   sharedSecret := ss;
                   _encrypted := Some true |})
  end.

(** [decryptAccount(account)] *)
Definition decryptAccount (account : option Account)
  : result (option Account) :=
  match account with
  | None => Ok None
  | Some a =>
      if negb (truthy_flag (_encrypted a)) then Ok (Some a)
      else
        do! pw <- decrypt (password a) None;
        do! ss <-
          (if truthy (sharedSecret a) then decrypt (sharedSecret a) None
           else Ok "");
        Ok (Some {| username := username a;
                    password := pw;
                    sharedSecret := ss;
                    _encrypted := Some false |})
  end.
End Methods.

(** [crypto.pbkdf2Sync(password, salt, 1000, 64, 'sha512')], with the salt
    given as text, as [hashPassword] and [verifyPassword] call it. *)
Class PasswordHash := {
  pbkdf2_sha512 : string -> string -> list byte
}.

Section Passwords.
Context `{C : Crypto} `{H : PasswordHash}.

(** [hashPassword(password)] *)
Definition hashPassword (password : string) : Rand string :=
  draw! bytes <- randomBytes 16;
  let salt := toString_hex bytes in
  let hash := toString_hex (pbkdf2_sha512 password salt) in
  ret (salt ++ ":" ++ hash).

(** [verifyPassword(password, hashedPassword)]: [salt] and [hash] are the
    first two parts; a part that is missing is [undefined], which equals no
    string. *)
Definition verifyPassword (password hashedPassword : string) : bool :=
  let parts := split ":" hashedPassword in
  let salt := default "" (parts !! 0%nat) in
  let hash := parts !! 1%nat in
  let verifyHash := toString_hex (pbkdf2_sha512 password salt) in
  match hash with
  | Some h => String.eqb h verifyHash
  | None => false
  end.
End Passwords.

End CryptoManager.

(** A small executable instance of the [Crypto] interface, used to run the
    class on concrete inputs.  It is not a cipher anyone should use: the
    "tag" spells out what a real tag only commits to. *)

Module ToyCrypto.
Import CryptoManager.

#[export] Instance byte_eq_dec : EqDecision byte := Byte.byte_eq_dec.

Definition toy_tape (k n : nat) : list byte :=
  repeat (default "000"%byte (Byte.of_nat (k mod 256))) n.

Definition toy_pbkdf2 (pw : string) (salt : list byte) : list byte :=
  firstn KEY_LENGTH
    (salt ++ list_byte_of_string pw ++ repeat "000"%byte KEY_LENGTH)%list.

Definition toy_cipheriv_ok (key iv : list byte) : bool :=
  Nat.eqb (length key) KEY_LENGTH && negb (Nat.eqb (length iv) 0).

Definition toy_tag (key iv ct : list byte) : list byte :=
  (key ++ iv ++ ct)%list.

Definition toy_verify (key iv tag ct : list byte) : bool :=
  bool_decide (tag = (key ++ iv ++ ct)%list).

#[export] Instance toy : Crypto := {|
  random_tape := toy_tape;
  pbkdf2Sync := toy_pbkdf2;
  cipheriv_ok := toy_cipheriv_ok;
  gcm_cipher := fun _ _ pt => rev pt;
  gcm_tag := toy_tag;
  auth_tag_ok := fun _ => true;
  gcm_decipher := fun _ _ ct => rev ct;
  gcm_verify := toy_verify
|}.

(** A 32-byte master key. *)
Definition master : CryptoManager.t :=
  {| encryptionKey := repeat "k"%byte KEY_LENGTH |}.

(** The envelope of ["hi"] under the master key, and the same envelope
    with its last hexadecimal digit changed. *)
Definition sealed : string :=
  match fst (encrypt master "hi" None 0%nat) with
  | Ok env => env
  | Throw _ => ""
  end.

Definition tampered : string :=
  substring 0 (String.length sealed - 1) sealed ++ "9".

(** A stored record that is already marked as encrypted. *)
Definition marked : Account :=
  {| username := "alice"; password := sealed; sharedSecret := "";
     _encrypted := Some true |}.

(** A stored record in the clear. *)
Definition plain : Account :=
  {| username := "bob"; password := "hunter2"; sharedSecret := "JBSWY3DP";
     _encrypted := None |}.

End ToyCrypto.

(** ** Rate limiter module: [RateLimiter] *)

Module RateLimiter.

(** Times are [Date.now()] readings, in milliseconds.  The fields [queue]
    and [processing] of the class take no part in the throttle and are left
    out. *)
Record t := {
  maxRequests : Z;
  intervalMs : Z;
  requests : list Z
}.

(** [new RateLimiter(maxRequests = 30, intervalMs = 60000)] *)
Definition create (maxRequests intervalMs : Z) : t :=
  {| maxRequests := maxRequests; intervalMs := intervalMs; requests := [] |}.

Definition young (l : t) (now : Z) (ts : Z) : bool := now - ts <? intervalMs l.

(** [cleanup()], where [Date.now()] reads [now] *)
Definition cleanup (now : Z) (l : t) : t :=
  {| maxRequests := maxRequests l;
     intervalMs := intervalMs l;
     requests := List.filter (young l now) (requests l) |}.

(** [canMakeRequest()] *)
Definition canMakeRequest (now : Z) (l : t) : bool * t :=
  let l' := cleanup now l in
  (Z.of_nat (length (requests l')) <? maxRequests l', l').

(** One run of [check] in [waitForSlot()]: [Date.now()] reads [now] inside
    [cleanup] and [now'] when the request is pushed.  The result tells
    whether the promise was resolved (otherwise [check] is rescheduled). *)
Definition check (now now' : Z) (l : t) : bool * t :=
  let '(free, l') := canMakeRequest now l in
  if free then
    (true, {| maxRequests := maxRequests l';
              intervalMs := intervalMs l';
              requests := (requests l' ++ [now'])%list |})
  else (false, l').

(** A sequence of acquisition attempts, each given the two clock readings
    it makes; returns the timestamps recorded by the permitted ones, in
    order, and the final limiter. *)
Fixpoint attempts (calls : list (Z * Z)) (l : t) : list Z * t :=
  match calls with
  | [] => ([], l)
  | (now, now') :: cs =>
      let '(ok, l') := check now now' l in
      let '(rec, l'') := attempts cs l' in
      (((if ok then [now'] else []) ++ rec)%list, l'')
  end.

(** The clock never runs backwards over the readings of a run. *)
Fixpoint monotone (t0 : Z) (calls : list (Z * Z)) : Prop :=
  match calls with
  | [] => True
  | (now, now') :: cs => t0 <= now /\ now <= now' /\ monotone now' cs
  end.

(** Timestamps of [hist] inside the trailing window of length [w] that
    ends at [T], i.e. with [T - w < ts <= T]. *)
Definition in_window (w T : Z) (hist : list Z) : list Z :=
  List.filter (fun ts => (T - ts <? w) && (ts <=? T)) hist.

(** What [getStats()] returns.  [queueLength] is the length of a queue
    that nothing ever pushes to. *)
Record stats := {
  current : Z;
  max : Z;
  percentage : Q;
  queueLength : Z
}.

(** [getStats()], where [Date.now()] reads [now] *)
Definition getStats (now : Z) (l : t) : stats * t :=
  let l' := cleanup now l in
  let n := Z.of_nat (length (requests l')) in
  ({| current := n;
      max := maxRequests l';
      percentage := (inject_Z n / inject_Z (maxRequests l') * 100)%Q;
      queueLength := 0 |}, l').

(** [reset()] *)
Definition reset (l : t) : t :=
  {| maxRequests := maxRequests l; intervalMs := intervalMs l; requests := [] |}.

(** [waitForSlot()]: [check] runs once for each pair of clock readings in
    [polls], 100 ms or more apart, until one run resolves the promise.
    Returns the number of runs that found no slot before the one that did,
    or [None] while the promise is still pending after the last of them. *)
Fixpoint waitForSlot (polls : list (Z * Z)) (l : t) : option nat * t :=
  match polls with
  | [] => (None, l)
  | (now, now') :: ps =>
      let '(ok, l') := check now now' l in
      if ok then (Some 0%nat, l')
      else let '(n, l'') := waitForSlot ps l' in (option_map S n, l'')
  end.

(** The public operations of a limiter. *)
Inductive op :=
| Check (now now' : Z)       (* one run of [check] in [waitForSlot] *)
| CanMakeRequest (now : Z)
| GetStats (now : Z)
| Reset.

Definition apply (o : op) (l : t) : t :=
  match o with
  | Check now now' => snd (check now now' l)
  | CanMakeRequest now => snd (canMakeRequest now l)
  | GetStats now => snd (getStats now l)
  | Reset => reset l
  end.

End RateLimiter.

(** ** Rate limiter module: [ConcurrencyLimiter] *)

Module ConcurrencyLimiter.

(** Where a call of [execute(fn)] stands. *)
Inductive phase :=
| Waiting     (* suspended in the loop; its [resolve] is in the queue *)
| Woken       (* its [resolve] was called; it has not resumed yet *)
| Running     (* past [this.running++], awaiting [fn()] *)
| Returned    (* [fn()] fulfilled and the [finally] block ran *)
| Threw.      (* [fn()] threw or rejected and the [finally] block ran *)

#[export] Instance phase_eq_dec : EqDecision phase.
Proof. solve_decision. Defined.

(** The limiter, and the calls of [execute] made so far.  A queued
    [resolve] is identified with the call that created it; [maxConcurrent]
    is an integer. *)
Record t := {
  maxConcurrent : Z;
  running : Z;
  queue : list nat;
  calls : gmap nat phase
}.

(** [new ConcurrencyLimiter(maxConcurrent = 5)] *)
Definition create (maxConcurrent : Z) : t :=
  {| maxConcurrent := maxConcurrent; running := 0; queue := []; calls := ∅ |}.

(** The loop head of [execute], run without interruption up to the next
    [await]: either the call queues its [resolve] and suspends, or it
    takes a slot and starts [fn()]. *)
Definition enter (i : nat) (l : t) : t :=
  if running l >=? maxConcurrent l then
    {| maxConcurrent := maxConcurrent l;
       running := running l;
       queue := (queue l ++ [i])%list;
       calls := <[i := Waiting]> (calls l) |}
  else
    {| maxConcurrent := maxConcurrent l;
       running := running l + 1;
       queue := queue l;
       calls := <[i := Running]> (calls l) |}.

(** The [finally] block, entered when [fn()] settles either way. *)
Definition finally (i : nat) (threw : bool) (l : t) : t :=
  let done := if threw then Threw else Returned in
  match queue l with
  | [] =>
      {| maxConcurrent := maxConcurrent l;
         running := running l - 1;
         queue := [];
         calls := <[i := done]> (calls l) |}
  | r :: q =>
      (* const resolve = this.queue.shift(); resolve(); *)
      {| maxConcurrent := maxConcurrent l;
         running := running l - 1;
         queue := q;
         calls := <[i := done]> (<[r := Woken]> (calls l)) |}
  end.

(** What the event loop can run next. *)
Inductive event :=
| Call (i : nat)                    (* a new call of [execute] *)
| Resume (i : nat)                  (* a woken call continues its loop *)
| Settle (i : nat) (threw : bool).  (* [fn()] of a running call settles *)

Definition step (e : event) (l : t) : option t :=
  match e with
  | Call i =>
      match calls l !! i with
      | None => Some (enter i l)
      | Some _ => None
      end
  | Resume i =>
      match calls l !! i with
      | Some Woken => Some (enter i l)
      | _ => None
      end
  | Settle i threw =>
      match calls l !! i with
      | Some Running => Some (finally i threw l)
      | _ => None
      end
  end.

Fixpoint run (es : list event) (l : t) : option t :=
  match es with
  | [] => Some l
  | e :: es' =>
      match step e l with
      | Some l' => run es' l'
      | None => None
      end
  end.

(** The number of calls that hold a slot. *)
Definition holders (l : t) : nat :=
  size (filter (fun kv => kv.2 = Running) (calls l)).

(** The bookkeeping is consistent: [running] counts the calls that hold a
    slot and stays within the limit, and the queue lists the suspended
    calls, each once. *)
Definition consistent (l : t) : Prop :=
  running l = Z.of_nat (holders l) /\
  running l <= maxConcurrent l /\
  NoDup (queue l) /\
  (forall j, j ∈ queue l <-> calls l !! j = Some Waiting).

(** Three calls on a limiter with one slot; the first one throws. *)
Definition demo : list event :=
  [Call 0; Call 1; Call 2; Settle 0 true; Resume 1; Settle 1 false; Resume 2]%nat.

(** What [getStats()] returns: [{ running, max, queued }]. *)
Record stats := {
  stats_running : Z;
  stats_max : Z;
  stats_queued : Z
}.

(** [getStats()] *)
Definition getStats (l : t) : stats :=
  {| stats_running := running l;
     stats_max := maxConcurrent l;
     stats_queued := Z.of_nat (length (queue l)) |}.

(** The number of calls in a given phase. *)
Definition in_phase (ph : phase) (l : t) : nat :=
  size (filter (fun kv => kv.2 = ph) (calls l)).

(** While a call waits in the queue, every free slot is matched by a call
    that was woken and has yet to run its loop again. *)
Definition served (l : t) : Prop :=
  queue l <> [] ->
  maxConcurrent l - running l <= Z.of_nat (in_phase Woken l).





End ConcurrencyLimiter.

(** ** Numbers: doubles, as far as the arithmetic of the backoff goes *)

Module Number.
Local Open Scope Q_scope.

(** A number is [NaN], an infinity or a finite value.  The finite values
    are kept as rationals; which of them are doubles is the business of
    the rounding, and the sign of zero is not kept. *)
Inductive number :=
| NaN
| Infinity (negative : bool)
| Finite (q : Q).

(** Rounding to nearest: the double that an operation returns for its
    exact result. *)
Class Rounding := round : Q -> number.

(** [x <= y], which is false when one of the two is [NaN]. *)
Definition leb (x y : number) : bool :=
  match x, y with
  | NaN, _ | _, NaN => false
  | Infinity true, _ => true
  | _, Infinity false => true
  | Finite a, Finite b => Qle_bool a b
  | _, _ => false
  end.

(** What is used of rounding to nearest in binary64: it depends on the
    value alone and keeps the order, it leaves the integers of up to 53
    bits as they are, and from [2^1024] on it gives an infinity. *)
Definition Binary64 (R : Rounding) : Prop :=
  (forall p q, p == q -> round p = round q) /\
  (forall p q, p <= q -> leb (round p) (round q) = true) /\
  (forall n : Z, (Z.abs n <= 2 ^ 53)%Z ->
                 round (inject_Z n) = Finite (inject_Z n)) /\
  (forall q, inject_Z (2 ^ 1024) <= q -> round q = Infinity false) /\
  (forall q, q <= - inject_Z (2 ^ 1024) -> round q = Infinity true).

Section Operations.
Context `{R : Rounding}.

(** [x * y] *)
Definition mul (x y : number) : number :=
  match x, y with
  | NaN, _ | _, NaN => NaN
  | Finite a, Finite b => round (a * b)
  | Infinity s, Finite a | Finite a, Infinity s =>
      match a ?= 0 with
      | Eq => NaN
      | Gt => Infinity s
      | Lt => Infinity (negb s)
      end
  | Infinity s, Infinity s' => Infinity (xorb s s')
  end.

(** [x + y] *)
Definition add (x y : number) : number :=
  match x, y with
  | NaN, _ | _, NaN => NaN
  | Finite a, Finite b => round (a + b)
  | Infinity s, Finite _ | Finite _, Infinity s => Infinity s
  | Infinity s, Infinity s' => if Bool.eqb s s' then Infinity s else NaN
  end.

(** [Math.min(x, y)] *)
Definition Math_min (x y : number) : number :=
  match x, y with
  | NaN, _ | _, NaN => NaN
  | _, _ => if leb x y then x else y
  end.

(** The power [q^n], exactly. *)
Fixpoint power (q : Q) (n : nat) : Q :=
  match n with
  | O => 1
  | S k => q * power q k
  end.

(** [Math.pow(x, n)] for a count [n].  The language leaves the accuracy
    of [Math.pow] to the implementation; it is taken correctly rounded,
    which is what an accurate implementation returns where the power is a
    double. *)
Definition Math_pow (x : number) (n : nat) : number :=
  match n with
  | O => Finite 1
  | S _ =>
      match x with
      | NaN => NaN
      | Infinity s => Infinity (s && Nat.odd n)
      | Finite q => round (power q n)
      end
  end.
End Operations.

(** [floor (log2 q)], for [0 < q] *)
Definition exponent (q : Q) : Z :=
  let e := (Z.log2 (Qnum q) - Z.log2 (Zpos (Qden q)))%Z in
  if Qle_bool (2 ^ e) q then e else (e - 1)%Z.

(** The nearest integer, and the even one of two that are as near. *)
Definition nearest_even (q : Q) : Z :=
  let f := Qfloor q in
  match Qcompare (q - inject_Z f) (1 # 2) with
  | Lt => f
  | Gt => (f + 1)%Z
  | Eq => if Z.even f then f else (f + 1)%Z
  end.

(** The exponent of the last bit that a double of the size of [a] keeps:
    53 bits from the leading one, and none below [2^-1074]. *)
Definition last_bit (a : Q) : Z := Z.max (exponent a - 52) (- 1074).

(** The nearest double to [0 <= a], were the exponents unbounded above. *)
Definition nearest (a : Q) : Q :=
  inject_Z (nearest_even (a / 2 ^ last_bit a)) * 2 ^ last_bit a.

(** Rounding to nearest, ties to even, in binary64: what rounds to
    [2^1024] or above is an infinity. *)
Definition binary64 : Rounding :=
  fun q =>
    let negative := match Qcompare q 0 with Lt => true | _ => false end in
    let v := nearest (Qabs (Qred q)) in
    if Qle_bool (2 ^ 1024) v then Infinity negative
    else Finite (Qred (if negative then - v else v)).

End Number.

(** ** Rate limiter module: [BackoffManager] *)

Module BackoffManager.
Import Number.

Record t := {
  baseDelay : number;
  maxDelay : number;
  multiplier : number;
  attempts : gmap string nat
}.

(** [new BackoffManager(baseDelay = 1000, maxDelay = 60000, multiplier = 2)],
    for finite arguments *)
Definition create (baseDelay maxDelay multiplier : Q) : t :=
  {| baseDelay := Finite baseDelay; maxDelay := Finite maxDelay;
     multiplier := Finite multiplier; attempts := ∅ |}.

(** [getAttempts(key)]: [this.attempts.get(key) || 0] *)
Definition getAttempts (key : string) (b : t) : nat :=
  default 0%nat (attempts b !! key).

Section Delay.
Context `{R : Rounding}.

(** The [delay] computed by [getDelay], before the jitter is added. *)
Definition delay_at (b : t) (n : nat) : number :=
  Math_min (mul (baseDelay b) (Math_pow (multiplier b) n)) (maxDelay b).

(** [getDelay(key)], where [Math.random()] returns [rnd] *)
Definition getDelay (rnd : Q) (key : string) (b : t) : number :=
  let attempts := getAttempts key b in
  let delay := delay_at b attempts in
  add delay (mul (Finite rnd) (Finite 1000)).
End Delay.

(** [recordFailure(key)] *)
Definition recordFailure (key : string) (b : t) : t :=
  let current := getAttempts key b in
  {| baseDelay := baseDelay b; maxDelay := maxDelay b;
     multiplier := multiplier b;
     attempts := <[key := (current + 1)%nat]> (attempts b) |}.

(** [reset(key)] *)
Definition reset (key : string) (b : t) : t :=
  {| baseDelay := baseDelay b; maxDelay := maxDelay b;
     multiplier := multiplier b;
     attempts := delete key (attempts b) |}.

End BackoffManager.

(** ** JavaScript values, as they come out of [JSON.parse] *)

Module Value.

(** Numbers are the integer-valued ones. *)
#[warnings="-register-all"]
Inductive jsval :=
| JUndefined
| JNull
| JBool (b : bool)
| JNum (n : Z)
| JStr (s : string)
| JArr (items : list jsval)
| JObj (props : list (string * jsval)).

(** [v && typeof v === 'object'] *)
Definition is_object (v : jsval) : bool :=
  match v with
  | JArr _ | JObj _ => true
  | _ => false
  end.

Definition is_undefined (v : jsval) : bool :=
  match v with
  | JUndefined => true
  | _ => false
  end.

(** [typeof v === 'boolean'] *)
Definition is_boolean (v : jsval) : bool :=
  match v with
  | JBool _ => true
  | _ => false
  end.

Fixpoint lookup_prop (k : string) (ps : list (string * jsval)) : jsval :=
  match ps with
  | [] => JUndefined
  | (k', v) :: r => if String.eqb k k' then v else lookup_prop k r
  end.

(** The own property [k] of [v], for a name that is not an array index;
    [JUndefined] when [v] has no such property.  This is [v.k] for every
    name that [v] does not inherit: [constructor], [__proto__], [toString]
    and the other names of [Object.prototype] read, where [v] has no
    property of its own, as the prototype has them, which is no value of
    [jsval].  The code modelled here reads names that are not inherited
    ([version], [state], [username], [startupDelay], ...). *)
Definition prop (k : string) (v : jsval) : jsval :=
  match v with
  | JObj ps => lookup_prop k ps
  | _ => JUndefined
  end.

(** [o[k] = v] on the properties of an object *)
Fixpoint set_prop (k : string) (v : jsval) (ps : list (string * jsval))
  : list (string * jsval) :=
  match ps with
  | [] => [(k, v)]
  | (k', v') :: r =>
      if String.eqb k k' then (k, v) :: r else (k', v') :: set_prop k v r
  end.

(** The elements of an array or the characters of a string, each under
    its index. *)
Fixpoint indexed {A} (f : A -> jsval) (i : nat) (xs : list A)
  : list (string * jsval) :=
  match xs with
  | [] => []
  | x :: r => (pretty i, f x) :: indexed f (S i) r
  end.

(** The properties that [{...v}] copies. *)
Definition spread (v : jsval) : list (string * jsval) :=
  match v with
  | JObj ps => ps
  | JArr items => indexed id 0 items
  | JStr s =>
      indexed (fun c => JStr (String c EmptyString)) 0 (list_ascii_of_string s)
  | _ => []
  end.

(** [{...a, ...b}] *)
Definition assign (a b : list (string * jsval)) : list (string * jsval) :=
  fold_left (fun acc kv => set_prop kv.1 kv.2 acc) b a.

(** *** [parseInt] *)

Definition is_space (c : ascii) : bool :=
  let n := N_of_ascii c in
  (n =? 32)%N || ((9 <=? n) && (n <=? 13))%N.

(** The white space of more than one byte: U+00A0 ([C2 A0]), and
    U+1680, U+2000 to U+200A, U+2028, U+2029, U+202F, U+205F, U+3000 and
    U+FEFF (three bytes each). *)
Definition is_space2 (c1 c2 : ascii) : bool :=
  ((N_of_ascii c1 =? 194) && (N_of_ascii c2 =? 160))%N.

Definition is_space3 (c1 c2 c3 : ascii) : bool :=
  let a := N_of_ascii c1 in
  let b := N_of_ascii c2 in
  let c := N_of_ascii c3 in
  ((a =? 225) && (b =? 154) && (c =? 128)
   || (a =? 226) && (b =? 128)
      && ((128 <=? c) && (c <=? 138) || (c =? 168) || (c =? 169) || (c =? 175))
   || (a =? 226) && (b =? 129) && (c =? 159)
   || (a =? 227) && (b =? 128) && (c =? 128)
   || (a =? 239) && (b =? 187) && (c =? 191))%N.

(** The text after its leading white space and line terminators. *)
Fixpoint skip_spaces (s : string) : string :=
  match s with
  | String c1 r1 =>
      if is_space c1 then skip_spaces r1
      else
        match r1 with
        | String c2 r2 =>
            if is_space2 c1 c2 then skip_spaces r2
            else
              match r2 with
              | String c3 r3 =>
                  if is_space3 c1 c2 c3 then skip_spaces r3 else s
              | EmptyString => s
              end
        | EmptyString => s
        end
  | EmptyString => s
  end.

(** The double nearest to the integer [n], ties to the even significand:
    an integer keeps its 53 leading bits.  From [2^1024] on the double is
    [Infinity]; the value kept here is as large, and every use of it below
    is a comparison or a clamp, which treat the two alike. *)
Definition round_double (n : Z) : Z :=
  let a := Z.abs n in
  let k := Z.log2 a - 52 in
  if k <=? 0 then n
  else
    let q := a / 2 ^ k in
    let r := a mod 2 ^ k in
    let half := 2 ^ (k - 1) in
    let up := (half <? r) || ((half =? r) && Z.odd q) in
    Z.sgn n * ((if up then q + 1 else q) * 2 ^ k).

Definition digit_value (radix : Z) (c : ascii) : option Z :=
  match hex_value c with
  | Some d => if Z.of_N d <? radix then Some (Z.of_N d) else None
  | None => None
  end.

(** Reads digits while there are any; [None] if there is not one. *)
Fixpoint parse_digits (radix : Z) (acc : option Z) (s : string) : option Z :=
  match s with
  | EmptyString => acc
  | String c r =>
      match digit_value radix c with
      | Some d => parse_digits radix (Some (radix * default 0 acc + d)) r
      | None => acc
      end
  end.

(** [parseInt(s)] on a string; [None] is [NaN].  The digits are read as
    the integer they denote, and the result is the double nearest to it.
    (The language lets an implementation read the decimal digits after
    the twentieth as zeros; all of them are read here.) *)
Definition parseInt_string (s : string) : option Z :=
  let s := skip_spaces s in
  let '(neg, s) :=
    match s with
    | String "-"%char r => (true, r)
    | String "+"%char r => (false, r)
    | _ => (false, s)
    end in
  let '(radix, s) :=
    match s with
    | String "0"%char (String "x"%char r) => (16, r)
    | String "0"%char (String "X"%char r) => (16, r)
    | _ => (10, s)
    end in
  match parse_digits radix None s with
  | Some n => Some (round_double (if neg : bool then - n else n))
  | None => None
  end.

(** The first decimal digit of a positive integer. *)
Fixpoint leading_digit (fuel : nat) (n : Z) : Z :=
  match fuel with
  | O => n
  | S k => if n <? 10 then n else leading_digit k (n / 10)
  end.

(** [parseInt(n)] on an integer-valued number.  Below [10^21] the number
    prints as its decimal numeral, which reads back as itself; from [10^21]
    on it prints in exponent notation ([1e+21]), of which [parseInt] reads
    the one digit before the point or the exponent. *)
Definition parseInt_number (n : Z) : Z :=
  if Z.abs n <? 10 ^ 21 then n
  else Z.sgn n * leading_digit (Z.to_nat (Z.log2 (Z.abs n))) (Z.abs n).

(** [parseInt(v)]: [v] is converted to a string first.  An array prints
    its elements separated by commas, so that only the first one is read;
    booleans, [null], [undefined] and plain objects print as words. *)
Fixpoint parseInt (v : jsval) : option Z :=
  match v with
  | JNum n => Some (parseInt_number n)
  | JStr s => parseInt_string s
  | JArr (x :: _) => parseInt x
  | _ => None
  end.

End Value.

Import Value.

(** ** Input validator *)

Module Validator.

Definition dangerousKeys : list string :=
  ["__proto__"; "constructor"; "prototype"].

Definition dangerous (key : string) : bool :=
  existsb (String.eqb key) dangerousKeys.

(** [sanitizeObject(obj)].  An array is an object too: its elements are
    copied under their indices into a plain object.  A value that is not
    an object is copied as it is, which is also what the function does
    when it is called on it. *)
Fixpoint sanitizeObject (obj : jsval) : jsval :=
  match obj with
  | JObj props =>
      JObj ((fix each (ps : list (string * jsval)) :=
               match ps with
               | [] => []
               | (key, value) :: r =>
                   if dangerous key then each r
                   else (key, sanitizeObject value) :: each r
               end) props)
  | JArr items =>
      JObj ((fix each (i : nat) (xs : list jsval) :=
               match xs with
               | [] => []
               | value :: r =>
                   (pretty i, sanitizeObject value) :: each (S i) r
               end) 0%nat items)
  | _ => obj
  end.

Definition booleanFields : list string :=
  ["autoReconnect"; "invisibleMode"; "saveMessages"; "debug"].

(** The error, if any, of a numeric field that must lie in [lo..hi]. *)
Definition range_error (v : jsval) (lo hi : Z) (msg : string) : list string :=
  if negb (is_undefined v) then
    match parseInt v with
    | None => [msg]
    | Some n => if (n <? lo) || (n >? hi) then [msg] else []
    end
  else [].

Definition boolean_error (settings : jsval) (field : string) : list string :=
  if negb (is_undefined (prop field settings))
     && negb (is_boolean (prop field settings))
  then [field ++ " must be boolean"]
  else [].

(** [validateSettings(settings)]: the pair [(valid, errors)] *)
Definition validateSettings (settings : jsval) : bool * list string :=
  if negb (is_object settings) then (false, ["Invalid settings object"])
  else
    let errors :=
      (range_error (prop "startupDelay" settings) 500 30000
         "startupDelay must be between 500-30000ms"
       ++ range_error (prop "maxReconnectAttempts" settings) 0 50
            "maxReconnectAttempts must be between 0-50"
       ++ flat_map (boolean_error settings) booleanFields)%list in
    (Nat.eqb (length errors) 0, errors).

(** *** Character classes of the regular expressions *)

Definition is_alnum (c : ascii) : bool :=
  let n := N_of_ascii c in
  ((48 <=? n) && (n <=? 57))%N || ((65 <=? n) && (n <=? 90))%N
  || ((97 <=? n) && (n <=? 122))%N.

(** [[0-9]] *)
Definition is_digit (c : ascii) : bool :=
  let n := N_of_ascii c in ((48 <=? n) && (n <=? 57))%N.

(** [[a-zA-Z0-9_-]] *)
Definition username_char (c : ascii) : bool :=
  is_alnum c || Ascii.eqb c "_" || Ascii.eqb c "-".

(** [[a-zA-Z0-9._-]] *)
Definition filename_char (c : ascii) : bool :=
  is_alnum c || Ascii.eqb c "." || Ascii.eqb c "_" || Ascii.eqb c "-".

(** [[\x00-\x1F\x7F]] *)
Definition control_char (c : ascii) : bool :=
  let n := N_of_ascii c in (n <=? 31)%N || (n =? 127)%N.

(** Every character of [s] is in the class [p]. *)
Fixpoint all_chars (p : ascii -> bool) (s : string) : bool :=
  match s with
  | EmptyString => true
  | String c r => p c && all_chars p r
  end.

(** [s.replace(/c/g, f(c))], character by character *)
Fixpoint replace_chars (f : ascii -> string) (s : string) : string :=
  match s with
  | EmptyString => EmptyString
  | String c r => f c ++ replace_chars f r
  end.

(** [str.replace(/x/g, by)] for a single character [x] *)
Definition replace_char (x : ascii) (by_ : string) (s : string) : string :=
  replace_chars (fun c => if Ascii.eqb c x then by_ else String c EmptyString) s.

(** [sanitizeForLog(str)] on a string: line feed, carriage return and tab
    are spelled out, then what is left of the control characters is
    removed. *)
Definition sanitizeForLog (str : string) : string :=
  let s1 := replace_char "010" "\n" str in
  let s2 := replace_char "013" "\r" s1 in
  let s3 := replace_char "009" "\t" s2 in
  replace_chars (fun c => if control_char c then EmptyString
                          else String c EmptyString) s3.

(** [sanitizeFilename(filename)] *)
Definition sanitizeFilename (filename : string) : string :=
  if negb (truthy filename) then "unnamed"
  else
    substring 0 255
      (replace_chars (fun c => if filename_char c then String c EmptyString
                               else "_") filename).

(** Truthiness of a value. *)
Definition truthy_val (v : jsval) : bool :=
  match v with
  | JUndefined | JNull => false
  | JBool b => b
  | JNum n => negb (n =? 0)
  | JStr s => truthy s
  | JArr _ | JObj _ => true
  end.

(** [isValidUsername(username)] *)
Definition isValidUsername (username : jsval) : bool :=
  match username with
  | JStr s =>
      if negb (truthy s) then false
      else if (String.length s <? 2)%nat || (64 <? String.length s)%nat
      then false
      else (* /^[a-zA-Z0-9_-]+$/ *) all_chars username_char s
  | _ => false
  end.

(** [isValidPassword(password)] *)
Definition isValidPassword (password : jsval) : bool :=
  match password with
  | JStr s =>
      if negb (truthy s) then false
      else if (length_utf16 s <? 1)%nat || (256 <? length_utf16 s)%nat
      then false
      else true
  | _ => false
  end.

(** [isValidGameId(gameId)] *)
Definition isValidGameId (gameId : jsval) : bool :=
  match parseInt gameId with
  | Some num => (num >? 0) && (num <? 9999999)
  | None => false
  end.

(** [typeof g === 'number'] *)
Definition is_number (v : jsval) : bool :=
  match v with
  | JNum _ => true
  | _ => false
  end.

(** The entries that [validateAccount] pushes to [errors], by their
    message. *)
Inductive account_error :=
| InvalidAccountObject          (* 'Invalid account object' *)
| InvalidUsername               (* 'Invalid username (2-64 chars, alphanumeric only)' *)
| InvalidPassword               (* 'Invalid password (1-256 chars)' *)
| GamesNotArray                 (* 'gamesAndStatus must be an array' *)
| NoGameId                      (* 'At least one game ID required' *)
| InvalidGameId (game : jsval)  (* `Invalid game ID: ${game}` *)
| SecretNotString               (* 'Shared secret must be a string' *)
| SecretTooShort.               (* 'Shared secret too short' *)

(** The errors of [account.gamesAndStatus]. *)
Definition games_errors (gamesAndStatus : jsval) : list account_error :=
  if truthy_val gamesAndStatus then
    match gamesAndStatus with
    | JArr items =>
        let games := List.filter is_number items in
        ((if Nat.eqb (length games) 0 then [NoGameId] else [])
         ++ flat_map (fun game => if negb (isValidGameId game)
                                  then [InvalidGameId game] else []) games)%list
    | _ => [GamesNotArray]
    end
  else [].

(** The errors of [account.sharedSecret]. *)
Definition secret_errors (sharedSecret : jsval) : list account_error :=
  if truthy_val sharedSecret then
    match sharedSecret with
    | JStr s =>
        if (0 <? length_utf16 s)%nat && (length_utf16 s <? 10)%nat
        then [SecretTooShort] else []
    | _ => [SecretNotString]
    end
  else [].

(** [validateAccount(account)]: the pair [(valid, errors)] *)
Definition validateAccount (account : jsval) : bool * list account_error :=
  if negb (is_object account) then (false, [InvalidAccountObject])
  else
    let errors :=
      ((if negb (isValidUsername (prop "username" account))
        then [InvalidUsername] else [])
       ++ (if negb (isValidPassword (prop "password" account))
           then [InvalidPassword] else [])
       ++ games_errors (prop "gamesAndStatus" account)
       ++ secret_errors (prop "sharedSecret" account))%list in
    (Nat.eqb (length errors) 0, errors).

(** [getEnvInt(name, defaultValue, min, max)], where [env] is
    [process.env] *)
Definition getEnvInt (env : gmap string string) (name : string)
    (defaultValue min max : Z) : Z :=
  match env !! name with
  | None => defaultValue
  | Some value =>
      if negb (truthy value) then defaultValue
      else match parseInt_string value with
           | None => defaultValue
           | Some num => Z.max min (Z.min max num)
           end
  end.

(** No key of [v], at any depth, is one of the dangerous keys. *)
Fixpoint clean (v : jsval) : bool :=
  match v with
  | JObj props =>
      (fix each (ps : list (string * jsval)) :=
         match ps with
         | [] => true
         | (key, value) :: r => negb (dangerous key) && clean value && each r
         end) props
  | JArr items =>
      (fix each (xs : list jsval) :=
         match xs with
         | [] => true
         | value :: r => clean value && each r
         end) items
  | _ => true
  end.

(** The properties that [sanitizeObject] copies from an object. *)
Definition sanitize_props (props : list (string * jsval))
  : list (string * jsval) :=
  flat_map (fun kv => if dangerous kv.1 then []
                      else [(kv.1, sanitizeObject kv.2)]) props.

(** The four replacements of [sanitizeForLog] read at one character: what
    a character of the input leaves in the output. *)
Definition log_char (c : ascii) : string :=
  if Ascii.eqb c "010" then "\n"
  else if Ascii.eqb c "013" then "\r"
  else if Ascii.eqb c "009" then "\t"
  else if control_char c then EmptyString
  else String c EmptyString.

(** No part of [v] is an array ([Array.isArray] holds nowhere). *)
Fixpoint no_array (v : jsval) : bool :=
  match v with
  | JArr _ => false
  | JObj props =>
      (fix each (ps : list (string * jsval)) :=
         match ps with
         | [] => true
         | (_, value) :: r => no_array value && each r
         end) props
  | _ => true
  end.

End Validator.

(** ** utils/configManager.js: settings *)

Module ConfigManager.

Definition DEFAULT_SETTINGS : list (string * jsval) :=
  [("autoReconnect", JBool true);
   ("invisibleMode", JBool false);
   ("saveMessages", JBool true);
   ("debug", JBool false);
   ("startupDelay", JNum 2000);
   ("maxReconnectAttempts", JNum 5)].

(** The settings file as [loadSettings] finds it: holding a parsed JSON
    value, or [None] when there is no file or its text does not parse;
    [loadSettings] returns the defaults in both cases. *)
Definition settings_file := option jsval.

(** [loadSettings()] *)
Definition loadSettings (file : settings_file) : jsval :=
  match file with
  | Some parsed => JObj (assign DEFAULT_SETTINGS (spread parsed))
  | None => JObj DEFAULT_SETTINGS
  end.

(** How [saveSettings] ends: the file is written; or it throws before
    anything is written ([ensureDirs], or opening the file); or
    [fs.writeFileSync], which writes the file in place, throws after it
    has emptied the file or written a part of the text. *)
Inductive save_outcome :=
| Written
| NotWritten
| Truncated.

(** [saveSettings(settings)].  A part of the text of [settings] is no
    JSON text, or the text of a shorter number, which has no properties:
    [loadSettings] returns the defaults for it, as for [None]. *)
Definition saveSettings (written : save_outcome) (settings : jsval)
    (file : settings_file) : bool * settings_file :=
  match written with
  | Written => (true, Some settings)
  | NotWritten => (false, file)
  | Truncated => (false, None)
  end.

(** [key in o], on the properties of an object *)
Definition has_key (k : string) (ps : list (string * jsval)) : bool :=
  existsb (String.eqb k) (map fst ps).

End ConfigManager.

(** ** State manager: [StateManager] *)

Module StateManager.

Definition STATE_VERSION : string := "1.0.0".

(** [JSON.stringify(v, null, 2)] and [JSON.parse(s)] *)
Class JSON := {
  stringify : jsval -> string;
  parse : string -> result jsval
}.

(** The files on disk, by path. *)
Abbreviation disk := (gmap string string).

Record t := { stateDir : string }.

Definition statePath (this : t) : string := stateDir this ++ "/current.json".
Definition tempPath (this : t) : string := statePath this ++ ".tmp".

(** How a call of [fs.writeFileSync] ends: it returns, or it throws and
    leaves the file absent or as it was ([None]) or with only the first
    [n] bytes of the data ([Some n]). *)
Inductive write_outcome :=
| WriteOk
| WriteFails (partial : option nat).

Definition writeFileSync (o : write_outcome) (path data : string) (d : disk)
  : result unit * disk :=
  match o with
  | WriteOk => (Ok tt, <[path := data]> d)
  | WriteFails None => (Throw EIO, d)
  | WriteFails (Some n) => (Throw EIO, <[path := substring 0 n data]> d)
  end.

(** How a call of [fs.renameSync] ends: the rename happens as a whole, or
    not at all. *)
Inductive rename_outcome :=
| RenameOk
| RenameFails.

Definition renameSync (o : rename_outcome) (src dst : string) (d : disk)
  : result unit * disk :=
  match o, d !! src with
  | RenameOk, Some data => (Ok tt, <[dst := data]> (delete src d))
  | _, _ => (Throw EIO, d)
  end.

Section Methods.
Context `{J : JSON} (this : t).

(** The [snapshot] object built by [saveState], where
    [new Date().toISOString()] returns [timestamp]. *)
Definition snapshot (timestamp : string) (state : jsval) : jsval :=
  JObj [("version", JStr STATE_VERSION);
        ("timestamp", JStr timestamp);
        ("state", Validator.sanitizeObject state)].

(** [saveState(state)]: the returned boolean and the disk afterwards. *)
Definition saveState (timestamp : string) (w : write_outcome)
    (r : rename_outcome) (state : jsval) (d : disk) : bool * disk :=
  let data := stringify (snapshot timestamp state) in
  (* Write to temp file first *)
  match writeFileSync w (tempPath this) data d with
  | (Throw _, d1) => (false, d1)
  | (Ok _, d1) =>
      (* Atomic rename *)
      match renameSync r (tempPath this) (statePath this) d1 with
      | (Throw _, d2) => (false, d2)
      | (Ok _, d2) => (true, d2)
      end
  end.

(** Where the process can be stopped before [fs.renameSync] has run. *)
Inductive crash_point :=
| BeforeWrite               (* nothing written yet *)
| DuringWrite (n : nat)     (* the first [n] bytes are in the temp file *)
| BeforeRename.             (* the temp file is complete *)

(** The disk a process stopped at [p] leaves behind. *)
Definition disk_at (p : crash_point) (timestamp : string) (state : jsval)
    (d : disk) : disk :=
  let data := stringify (snapshot timestamp state) in
  match p with
  | BeforeWrite => d
  | DuringWrite n => <[tempPath this := substring 0 n data]> d
  | BeforeRename => <[tempPath this := data]> d
  end.

(** [loadState()]; [JNull] is [null]. *)
Definition loadState (d : disk) : jsval :=
  match d !! statePath this with
  | None => JNull
  | Some data =>
      match parse data with
      | Throw _ => JNull
      | Ok JNull => JNull   (* reading [.version] of [null] throws *)
      | Ok snap =>
          match prop "version" snap with
          | JStr v =>
              if String.eqb v STATE_VERSION
              then Validator.sanitizeObject (prop "state" snap)
              else (* migrateState *) prop "state" snap
          | _ => (* migrateState *) prop "state" snap
          end
      end
  end.
End Methods.

End StateManager.

(** ** Input validator: [parseJSONSafe] *)

Module SafeJSON.
Import StateManager.

(** [parseJSONSafe(jsonString)]; [JNull] is [null]. *)
Definition parseJSONSafe `{J : JSON} (jsonString : string) : jsval :=
  match parse jsonString with
  | Ok parsed => Validator.sanitizeObject parsed
  | Throw _ => JNull
  end.

End SafeJSON.

(** ** State manager: export and import, backups, auto-save *)

Module StateFiles.
Import StateManager.

(** [s.startsWith(p)] and [s.endsWith(p)] *)
Definition startsWith (p s : string) : bool := String.prefix p s.

Definition endsWith (p s : string) : bool :=
  (String.length p <=? String.length s)%nat
  && String.eqb (substring (String.length s - String.length p)
                   (String.length p) s) p.

(** [Array.prototype.sort(compareFn)] is stable: of two elements that
    [compareFn] does not order, the one that came first stays first.  For
    a comparison by a numeric key this is the result of inserting each
    element, from the last to the first, before the first element that it
    does not have to follow. *)
Section Sort.
Context {A : Type} (compareFn : A -> A -> Z).

Fixpoint sort_insert (x : A) (l : list A) : list A :=
  match l with
  | [] => [x]
  | y :: r => if compareFn x y <=? 0 then x :: l else y :: sort_insert x r
  end.

Definition sort (l : list A) : list A := fold_right sort_insert [] l.
End Sort.

(** A file of the backup directory: its text and its modification time
    in milliseconds. *)
Record file := { data : string; mtime : Z }.

(** The backup directory: its files by name. *)
Abbreviation dir := (gmap string file).

(** [fs.readdirSync(dir)]: the names, in the order of the file system. *)
Class Readdir := readdirSync : dir -> list string.

(** [fs.readdirSync] lists each file of the directory once. *)
Definition ReaddirLists (R : Readdir) : Prop :=
  forall d : dir,
    NoDup (readdirSync d) /\ forall f, f ∈ readdirSync d <-> is_Some (d !! f).

(** The entries of [listBackups]. *)
Record backup := { name : string; size_bytes : nat; created : Z }.

Record t := { manager : StateManager.t; maxBackups : nat }.

(** The timers of the process: [autoSaveInterval], the intervals that
    [setInterval] has started and [clearInterval] has not stopped, and the
    next timer that [setInterval] returns. *)
Record timers := {
  autoSaveInterval : option nat;
  live : gset nat;
  next_timer : nat
}.

(** The timers after the constructor. *)
Definition no_timers : timers :=
  {| autoSaveInterval := None; live := ∅; next_timer := 0 |}.

Definition clearInterval (id : nat) (ts : timers) : timers :=
  {| autoSaveInterval := autoSaveInterval ts;
     live := live ts ∖ {[ id ]};
     next_timer := next_timer ts |}.

(** [enableAutoSave(getStateCallback, intervalMs)] *)
Definition enableAutoSave (ts : timers) : timers :=
  let ts1 :=
    match autoSaveInterval ts with
    | Some id => clearInterval id ts
    | None => ts
    end in
  {| autoSaveInterval := Some (next_timer ts1);
     live := live ts1 ∪ {[ next_timer ts1 ]};
     next_timer := S (next_timer ts1) |}.

(** [disableAutoSave()] *)
Definition disableAutoSave (ts : timers) : timers :=
  match autoSaveInterval ts with
  | Some id =>
      {| autoSaveInterval := None;
         live := live (clearInterval id ts);
         next_timer := next_timer ts |}
  | None => ts
  end.

Inductive autosave_call :=
| Enable
| Disable.

Definition autosave (ts : timers) (c : autosave_call) : timers :=
  match c with
  | Enable => enableAutoSave ts
  | Disable => disableAutoSave ts
  end.

Section Methods.
Context `{J : JSON} `{R : Readdir} (this : t).

(** The [data] object built by [exportState]. *)
Definition export_data (timestamp : string) (state : jsval) : jsval :=
  JObj [("version", JStr STATE_VERSION);
        ("exported", JStr timestamp);
        ("state", Validator.sanitizeObject state)].

(** [exportState(filepath, state)] *)
Definition exportState (timestamp : string) (w : write_outcome)
    (filepath : string) (state : jsval) (d : disk) : bool * disk :=
  match writeFileSync w filepath (stringify (export_data timestamp state)) d with
  | (Throw _, d1) => (false, d1)
  | (Ok _, d1) => (true, d1)
  end.

(** [importState(filepath)] *)
Definition importState (filepath : string) (d : disk) : jsval :=
  match d !! filepath with
  | None => JNull
  | Some text =>
      match parse text with
      | Throw _ => JNull
      | Ok JNull | Ok JUndefined => JNull   (* reading [.state] throws *)
      | Ok imported => Validator.sanitizeObject (prop "state" imported)
      end
  end.

(** [f.startsWith('backup_') && f.endsWith('.json')] *)
Definition is_backup (f : string) : bool :=
  startsWith "backup_" f && endsWith ".json" f.

(** [fs.statSync(path.join(this.backupDir, f))], as the entry that
    [listBackups] makes of it; [None] when it throws. *)
Definition statSync (b : dir) (f : string) : option backup :=
  match b !! f with
  | Some st =>
      Some {| name := f; size_bytes := String.length (data st);
              created := mtime st |}
  | None => None
  end.

(** [listBackups()] *)
Definition listBackups (b : dir) : list backup :=
  match mapM (statSync b) (List.filter is_backup (readdirSync b)) with
  | Some backups => sort (fun x y => created y - created x) backups
  | None => []
  end.

(** The [forEach] of [cleanupBackups]: [fs.unlinkSync] throws on a file
    that is not there, which ends the loop. *)
Fixpoint unlink_each (toDelete : list backup) (b : dir) : dir :=
  match toDelete with
  | [] => b
  | x :: r =>
      match b !! name x with
      | Some _ => unlink_each r (delete (name x) b)
      | None => b
      end
  end.

(** [cleanupBackups()] *)
Definition cleanupBackups (b : dir) : dir :=
  let backups := listBackups b in
  if (maxBackups this <? length backups)%nat
  then unlink_each (drop (maxBackups this) backups) b
  else b.

(** The name that [createBackup] gives to a backup made at [timestamp]
    ([new Date().toISOString()]). *)
Definition backupName (timestamp : string) : string :=
  "backup_" ++ Validator.replace_char ":" "-" timestamp ++ ".json".

(** [createBackup()], where the copy gets the modification time [now]:
    the returned name and the backup directory afterwards. *)
Definition createBackup (timestamp : string) (now : Z) (d : disk) (b : dir)
  : option string * dir :=
  match d !! statePath (manager this) with
  | None => (None, b)
  | Some text =>
      let b1 := <[backupName timestamp := {| data := text; mtime := now |}]> b in
      (Some (backupName timestamp), cleanupBackups b1)
  end.

(** [restoreBackup(backupName)] for a file name of the backup directory *)
Definition restoreBackup (backupName : string) (b : dir) (d : disk)
  : bool * disk :=
  match b !! backupName with
  | None => (false, d)
  | Some f => (true, <[statePath (manager this) := data f]> d)
  end.
End Methods.

(** What [statSync] says of a file. *)
Definition stat_of (b : dir) (x : backup) : Prop :=
  exists st, b !! name x = Some st /\
             size_bytes x = String.length (data st) /\ created x = mtime st.

End StateFiles.

(** ** A small JSON for running the state manager

    Prints and reads [null], booleans, integers, strings without quotes or
    escapes in them, arrays and objects, without white space. *)

Module ToyJSON.
Import StateManager.

Definition quote : ascii := "034"%char.

(** The rest of [s] after the prefix [p]. *)
Fixpoint strip (p s : string) : option string :=
  match p, s with
  | EmptyString, _ => Some s
  | String a p', String b s' => if Ascii.eqb a b then strip p' s' else None
  | _, _ => None
  end.

Definition quoted (s : string) : string :=
  String quote (s ++ String quote EmptyString).

Fixpoint print (v : jsval) : string :=
  match v with
  | JUndefined | JNull => "null"
  | JBool true => "true"
  | JBool false => "false"
  | JNum n => pretty n
  | JStr s => quoted s
  | JArr items =>
      "[" ++ (fix each (xs : list jsval) : string :=
                match xs with
                | [] => EmptyString
                | x :: r =>
                    print x ++ match r with
                               | [] => EmptyString
                               | _ => "," ++ each r
                               end
                end) items ++ "]"
  | JObj props =>
      "{" ++ (fix each (ps : list (string * jsval)) : string :=
                match ps with
                | [] => EmptyString
                | (k, x) :: r =>
                    quoted k ++ ":" ++ print x
                    ++ match r with
                       | [] => EmptyString
                       | _ => "," ++ each r
                       end
                end) props ++ "}"
  end.

(** The text up to the closing quote, and what follows it. *)
Fixpoint read_string (s : string) : option (string * string) :=
  match s with
  | EmptyString => None
  | String c r =>
      if Ascii.eqb c quote then Some (EmptyString, r)
      else match read_string r with
           | Some (t, r') => Some (String c t, r')
           | None => None
           end
  end.

Fixpoint read_digits (acc : Z) (s : string) : Z * string :=
  match s with
  | String c r =>
      if Validator.is_digit c
      then read_digits (10 * acc + (Z.of_N (N_of_ascii c) - 48)) r
      else (acc, s)
  | EmptyString => (acc, s)
  end.

Definition starts_with_digit (s : string) : bool :=
  match s with
  | String c _ => Validator.is_digit c
  | EmptyString => false
  end.

Fixpoint read_value (fuel : nat) (s : string) : option (jsval * string) :=
  match fuel with
  | O => None
  | S k =>
      match strip "null" s, strip "true" s, strip "false" s with
      | Some r, _, _ => Some (JNull, r)
      | _, Some r, _ => Some (JBool true, r)
      | _, _, Some r => Some (JBool false, r)
      | _, _, _ =>
      match strip (String quote EmptyString) s, strip "[" s, strip "{" s with
      | Some r, _, _ =>
          match read_string r with
          | Some (t, r') => Some (JStr t, r')
          | None => None
          end
      | _, Some r, _ =>
          match strip "]" r with
          | Some r' => Some (JArr [], r')
          | None =>
              match
                (fix items (n : nat) (s : string)
                   : option (list jsval * string) :=
                   match n with
                   | O => None
                   | S n' =>
                       match read_value k s with
                       | Some (x, r1) =>
                           match strip "," r1, strip "]" r1 with
                           | Some r2, _ =>
                               match items n' r2 with
                               | Some (xs, r3) => Some (x :: xs, r3)
                               | None => None
                               end
                           | _, Some r2 => Some ([x], r2)
                           | _, _ => None
                           end
                       | None => None
                       end
                   end) k r
              with
              | Some (xs, r') => Some (JArr xs, r')
              | None => None
              end
          end
      | _, _, Some r =>
          match strip "}" r with
          | Some r' => Some (JObj [], r')
          | None =>
              match
                (fix members (n : nat) (s : string)
                   : option (list (string * jsval) * string) :=
                   match n with
                   | O => None
                   | S n' =>
                       match strip (String quote EmptyString) s with
                       | None => None
                       | Some r0 =>
                       match read_string r0 with
                       | None => None
                       | Some (key, r1) =>
                       match strip ":" r1 with
                       | None => None
                       | Some r2 =>
                       match read_value k r2 with
                       | None => None
                       | Some (x, r3) =>
                           match strip "," r3, strip "}" r3 with
                           | Some r4, _ =>
                               match members n' r4 with
                               | Some (ps, r5) => Some ((key, x) :: ps, r5)
                               | None => None
                               end
                           | _, Some r4 => Some ([(key, x)], r4)
                           | _, _ => None
                           end
                       end end end end
                   end) k r
              with
              | Some (ps, r') => Some (JObj ps, r')
              | None => None
              end
          end
      | _, _, _ =>
          match strip "-" s with
          | Some r =>
              if starts_with_digit r
              then let '(n, r') := read_digits 0 r in Some (JNum (- n), r')
              else None
          | None =>
              if starts_with_digit s
              then let '(n, r') := read_digits 0 s in Some (JNum n, r')
              else None
          end
      end
      end
  end.

Definition read (s : string) : result jsval :=
  match read_value (S (String.length s)) s with
  | Some (v, EmptyString) => Ok v
  | _ => Throw ERR_INVALID_ARG
  end.

#[export] Instance toy : JSON := {| stringify := print; parse := read |}.

(** A directory listing: the files of the map, each once. *)
#[export] Instance by_name : StateFiles.Readdir :=
  fun d => (map_to_list d).*1.

(** A backup directory with two backups and another file, and a manager
    that keeps one backup. *)
Definition demo_dir : StateFiles.dir :=
  {[ "backup_2024-01-01T00-00-00.000Z.json" :=
       {| StateFiles.data := "{}"; StateFiles.mtime := 1000 |};
     "backup_2024-01-02T00-00-00.000Z.json" :=
       {| StateFiles.data := "[]"; StateFiles.mtime := 2000 |};
     "notes.txt" :=
       {| StateFiles.data := "keep"; StateFiles.mtime := 9000 |} ]}.

Definition demo_manager : StateFiles.t :=
  {| StateFiles.manager := {| stateDir := "data/state" |};
     StateFiles.maxBackups := 1 |}.

End ToyJSON.

(** ** UI utilities: [paginate] *)

Module UI.

(** [items.slice(start, end)] *)
Definition slice {A} (start end_ : Z) (items : list A) : list A :=
  let len := Z.of_nat (length items) in
  let k := if start <? 0 then Z.max (len + start) 0 else Z.min start len in
  let final := if end_ <? 0 then Z.max (len + end_) 0 else Z.min end_ len in
  firstn (Z.to_nat (final - k)) (skipn (Z.to_nat k) items).

(** The object returned by [paginate]. *)
Record paginated (A : Type) := {
  items : list A;
  totalPages : Z;
  currentPage : Z;
  hasNext : bool;
  hasPrev : bool;
  showing : string
}.
Arguments items {A} _.
Arguments totalPages {A} _.
Arguments currentPage {A} _.
Arguments hasNext {A} _.
Arguments hasPrev {A} _.
Arguments showing {A} _.

(** [paginate(items, page, pageSize)] for integers [page] and
    [pageSize]; [None] stands for [pageSize = 0], where [totalPages] is
    [Infinity] or [NaN]. *)
Definition paginate {A} (items : list A) (page pageSize : Z)
  : option (paginated A) :=
  if pageSize =? 0 then None
  else
    let len := Z.of_nat (length items) in
    (* Math.ceil(items.length / pageSize) *)
    let totalPages := - ((- len) / pageSize) in
    let start := page * pageSize in
    let end_ := Z.min (start + pageSize) len in
    Some {| items := slice start end_ items;
            totalPages := totalPages;
            currentPage := page;
            hasNext := page <? totalPages - 1;
            hasPrev := page >? 0;
            showing := pretty (start + 1) ++ "-" ++ pretty end_
                       ++ " of " ++ pretty len |}.

(** The items of page [page], none where [paginate] has no result. *)
Definition page_items {A} (items : list A) (pageSize : Z) (page : nat)
  : list A :=
  match paginate items (Z.of_nat page) pageSize with
  | Some p => UI.items p
  | None => []
  end.

End UI.

(** ** src/accountHandler.js: [VaporBooster] *)

Module VaporBooster.

(** The values stored in [accountStates]. *)
Inductive lifecycle :=
| connecting
| authenticating
| active
| error
| disconnected
| failed
| disconnecting.

#[export] Instance lifecycle_eq_dec : EqDecision lifecycle.
Proof. solve_decision. Defined.

(** The [SteamUser] client, as far as the code reads it: [steamID] is
    [null] unless the client is logged on. *)
Record SteamUser := { steamID : option string }.

(** An entry of [clients]: [{ client, account, timer, games, state }]. *)
Record entry := {
  client : option SteamUser;
  account_username : string;
  games : list Z;
  state : lifecycle
}.

Record t := {
  clients : list (string * entry);          (* a [Map], in insertion order *)
  accountStates : gmap string lifecycle
}.

(** [data.client && data.client.steamID] *)
Definition has_steamID (data : entry) : bool :=
  match client data with
  | Some c => bool_decide (is_Some (steamID c))
  | None => false
  end.

(** [activeCount] in [showMenu] *)
Definition showMenu_activeCount (this : t) : nat :=
  length (List.filter (fun s => bool_decide (s = active))
            (map snd (map_to_list (accountStates this)))).

(** [activeClients] in [showBoostingPanel] *)
Definition showBoostingPanel_activeClients (this : t) : list entry :=
  List.filter
    (fun data =>
       let accName := account_username data in
       let state := accountStates this !! accName in
       bool_decide (state = Some active) && has_steamID data)
    (map snd (clients this)).

(** [isOnline] in [getSidebarInfo], for the entry [data] stored under
    [name]. *)
Definition isOnline (this : t) (name : string) (data : entry) : bool :=
  let state := accountStates this !! name in
  has_steamID data && bool_decide (state = Some active).

(** The sessions listed by [getSidebarInfo], each with the status it is
    shown with: at most the first five. *)
Definition getSidebarInfo (this : t) : list (string * bool) :=
  map (fun '(name, data) => (name, isOnline this name data))
      (firstn 5 (clients this)).

(** The predicate of the specification: the lifecycle state is [active]
    and the client reports a live identity. *)
Definition is_active (this : t) (name : string) (data : entry) : Prop :=
  accountStates this !! name = Some active /\
  exists c id, client data = Some c /\ steamID c = Some id.

(** A session whose lifecycle state is still [active] while its client
    has no [steamID]. *)
Definition stale : t :=
  {| clients :=
       [("alice", {| client := Some {| steamID := None |};
                     account_username := "alice";
                     games := [730];
                     state := active |})];
     accountStates := {[ "alice" := active ]} |}.

(** What [settingsMenu] reports after choice 5. *)
Inductive notice :=
| DelaySet (num : Z)
| FailedToSave
| InvalidDelay.

(** Choice ['5'] of [settingsMenu]: [delay] is the answer typed in. *)
Definition settingsMenu_5 (delay : string)
    (written : ConfigManager.save_outcome)
    (file : ConfigManager.settings_file)
  : notice * ConfigManager.settings_file :=
  let s := ConfigManager.loadSettings file in
  match parseInt_string delay with
  | Some num =>
      if (num >=? 1000) && (num <=? 10000) then
        let s := JObj (set_prop "startupDelay" (JNum num) (spread s)) in
        match ConfigManager.saveSettings written s file with
        | (true, file') => (DelaySet num, file')
        | (false, file') => (FailedToSave, file')
        end
      else (InvalidDelay, file)
  | None => (InvalidDelay, file)
  end.

(** What [settingsMenu] reports after [toggle(key, name)] (choices ['1']
    to ['3']) and after choice ['4']. *)
Inductive toggle_notice :=
| Toggled (enabled : bool)
| FailedToSaveToggle.

(** [toggle(key, name)] of [settingsMenu]; choice ['4'] does the same to
    [debug], and copies the flag to the logger. *)
Definition settingsMenu_toggle (key : string)
    (written : ConfigManager.save_outcome)
    (file : ConfigManager.settings_file)
  : toggle_notice * ConfigManager.settings_file :=
  let s := ConfigManager.loadSettings file in
  let flag := negb (Validator.truthy_val (prop key s)) in
  let s := JObj (set_prop key (JBool flag) (spread s)) in
  match ConfigManager.saveSettings written s file with
  | (true, file') => (Toggled flag, file')
  | (false, file') => (FailedToSaveToggle, file')
  end.

(** *** [loginAccount]: the event handlers *)

(** The account that [loginAccount] is called with, as far as the
    handlers read it. *)
Record login_account := {
  username : string;
  gamesAndStatus : option (list Z)
}.

(** The session counters that the handlers change. *)
Record session := {
  booster : t;
  errors : nat;              (* [sessionStats.errors] *)
  reconnections : nat        (* [sessionStats.reconnections] *)
}.


(** [map.get(k)], [map.set(k, v)] and a change of the value stored under
    [k], on a [Map] in insertion order *)
Fixpoint Map_get {V} (k : string) (m : list (string * V)) : option V :=
  match m with
  | [] => None
  | (k', v) :: r => if String.eqb k k' then Some v else Map_get k r
  end.



(** What happens for an account: [loginAccount] is called, where
    [client.logOn] returns or throws, or its client emits one of the
    events that change the state. *)
Inductive login_step :=
| call_loginAccount (logOn_throws : bool)
| on_loginKey
| on_loggedOn (c : SteamUser)
| on_error
| on_disconnected.




Definition is_on_error (x : login_account * login_step) : bool :=
  match x.2 with
  | on_error => true
  | _ => false
  end.

Definition is_on_disconnected (x : login_account * login_step) : bool :=
  match x.2 with
  | on_disconnected => true
  | _ => false
  end.

(** What the handlers keep true of the booster. *)
Definition kept (history : list (login_account * login_step)) (s : session)
  : Prop :=
  (forall name,
     accountStates (booster s) !! name = Some active ->
     exists data, Map_get name (clients (booster s)) = Some data /\
                  state data = active) /\
  (forall name data,
     Map_get name (clients (booster s)) = Some data ->
     account_username data = name /\ is_Some (client data) /\
     (state data = active \/ state data = disconnected)) /\
  NoDup (map fst (clients (booster s))) /\
  errors s = length (List.filter is_on_error history) /\
  reconnections s = length (List.filter is_on_disconnected history).

End VaporBooster.


(* ===================================================================== *)
(** * Part II: properties                                                  *)
(* ===================================================================== *)

(** ** Strings and hexadecimal buffers *)

Module JSFacts.

Lemma append_nil (b : string) : "" ++ b = b.
Proof. reflexivity. Qed.

Lemma append_cons x (a b : string) : String x a ++ b = String x (a ++ b).
Proof. reflexivity. Qed.

Lemma includes_app c a b :
  includes c (a ++ b) = includes c a || includes c b.
Proof.
  induction a as [|x a IH]; [reflexivity|].
  rewrite append_cons. simpl.
  destruct (Ascii.eqb x c); [reflexivity | exact IH].
Qed.

Lemma includes_sep c s : includes c (String c s) = true.
Proof. simpl. rewrite Ascii.eqb_refl. reflexivity. Qed.

(** A string without the separator is a single part. *)
Lemma split_no_sep c s : includes c s = false -> split c s = [s].
Proof.
  induction s as [|x s IH]; simpl; [reflexivity|].
  destruct (Ascii.eqb x c); [discriminate|].
  intros H. rewrite (IH H). reflexivity.
Qed.

(** The first part ends at the first separator. *)
Lemma split_app_sep c a b :
  includes c a = false -> split c (a ++ String c b) = a :: split c b.
Proof.
  induction a as [|x a IH].
  - intros _. rewrite append_nil. simpl. rewrite Ascii.eqb_refl. reflexivity.
  - rewrite append_cons. simpl. destruct (Ascii.eqb x c); [discriminate|].
    intros H. rewrite (IH H). reflexivity.
Qed.

Lemma append_assoc (a b c : string) : (a ++ b) ++ c = a ++ (b ++ c).
Proof.
  induction a as [|x a IH]; [reflexivity|].
  rewrite !append_cons, IH. reflexivity.
Qed.

Lemma length_append (a b : string) :
  String.length (a ++ b) = (String.length a + String.length b)%nat.
Proof.
  induction a as [|x a IH]; [reflexivity|].
  rewrite append_cons. simpl. rewrite IH. reflexivity.
Qed.

Lemma truthy_append_sep a c b : truthy (a ++ String c b) = true.
Proof. destruct a; reflexivity. Qed.

Lemma byte_hex_no_colon b : includes ":" (byte_to_hex b) = false.
Proof. destruct b; reflexivity. Qed.

Lemma byte_hex_decodes b s :
  Buffer_from_hex (byte_to_hex b ++ s) = b :: Buffer_from_hex s.
Proof. destruct b; reflexivity. Qed.

(** Hexadecimal text has no colon in it. *)
Lemma toString_hex_no_colon buf : includes ":" (toString_hex buf) = false.
Proof.
  induction buf as [|b buf IH]; [reflexivity|].
  cbn [toString_hex].
  rewrite includes_app, byte_hex_no_colon, IH. reflexivity.
Qed.

(** [Buffer.from(buf.toString('hex'), 'hex')] is [buf]. *)
Lemma Buffer_from_toString_hex buf : Buffer_from_hex (toString_hex buf) = buf.
Proof.
  induction buf as [|b buf IH]; [reflexivity|].
  cbn [toString_hex].
  rewrite byte_hex_decodes, IH. reflexivity.
Qed.

Lemma length_toString_hex buf :
  String.length (toString_hex buf) = (2 * length buf)%nat.
Proof.
  induction buf as [|b buf IH]; [reflexivity|].
  cbn [toString_hex length].
  rewrite length_append, IH. simpl. lia.
Qed.

Lemma even_length_toString_hex buf :
  Nat.even (String.length (toString_hex buf)) = true.
Proof.
  rewrite length_toString_hex. apply Nat.even_spec. exists (length buf). lia.
Qed.

Lemma length_utf8_encode s : length (utf8_encode s) = String.length s.
Proof.
  unfold utf8_encode, list_byte_of_string.
  rewrite length_map. induction s; simpl; [reflexivity | now f_equal].
Qed.

Lemma utf8_roundtrip s : utf8_decode (utf8_encode s) = s.
Proof. apply string_of_list_byte_of_string. Qed.

(** The parts of a three-part envelope. *)
Lemma split_envelope3 a b c :
  includes ":" a = false -> includes ":" b = false -> includes ":" c = false ->
  split ":" (a ++ ":" ++ b ++ ":" ++ c) = [a; b; c].
Proof.
  intros Ha Hb Hc. rewrite !append_cons, !append_nil.
  rewrite split_app_sep by exact Ha.
  rewrite split_app_sep by exact Hb.
  rewrite split_no_sep by exact Hc. reflexivity.
Qed.

(** The parts of a four-part envelope. *)
Lemma split_envelope4 a b c d :
  includes ":" a = false -> includes ":" b = false ->
  includes ":" c = false -> includes ":" d = false ->
  split ":" (a ++ ":" ++ b ++ ":" ++ c ++ ":" ++ d) = [a; b; c; d].
Proof.
  intros Ha Hb Hc Hd. rewrite !append_cons, !append_nil.
  rewrite split_app_sep by exact Ha.
  rewrite split_app_sep by exact Hb.
  rewrite split_app_sep by exact Hc.
  rewrite split_no_sep by exact Hd. reflexivity.
Qed.

End JSFacts.

(** ** [CryptoManager] *)

Module CryptoFacts.
Import CryptoManager JSFacts.

Section WithCrypto.
Context {C : Crypto} (this : t).

Lemma encrypt_master_returns p k env k' :
  truthy p = true ->
  encrypt this p None k = (Ok env, k') ->
  let iv := random_tape k IV_LENGTH in
  cipheriv_ok (encryptionKey this) iv = true /\
  env = envelope3 this iv
          (gcm_cipher (encryptionKey this) iv (utf8_encode p)) /\
  k' = S k.
Proof.
  intros Hp. unfold encrypt. rewrite Hp. cbn [negb truthy_opt].
  unfold rbind, ret, randomBytes, lift. 
  destruct (cipheriv_ok _ _) eqn:Hok; intros H; inversion H; subst.
  auto.
Qed.

Lemma includes_envelope a b : includes ":" (a ++ ":" ++ b) = true.
Proof.
  rewrite includes_app, append_cons, append_nil, includes_sep.
  apply orb_true_r.
Qed.

Lemma truthy_envelope a b : truthy (a ++ ":" ++ b) = true.
Proof. rewrite append_cons, append_nil. apply truthy_append_sep. Qed.

Lemma decrypt_envelope3 iv tag ct pw :
  decrypt this (toString_hex iv ++ ":" ++ toString_hex tag ++ ":" ++ toString_hex ct) pw
  = try_catch
      (if cipheriv_ok (encryptionKey this) iv then
         if auth_tag_ok tag then
           if gcm_verify (encryptionKey this) iv tag ct
           then Ok (utf8_decode (gcm_decipher (encryptionKey this) iv ct))
           else Throw ERR_AUTH_TAG
         else Throw ERR_INVALID_ARG
       else Throw ERR_CRYPTO_INIT)
      (fun _ => Ok (toString_hex iv ++ ":" ++ toString_hex tag ++ ":" ++ toString_hex ct)).
Proof.
  unfold decrypt. rewrite truthy_envelope, includes_envelope. cbn [negb orb].
  unfold decrypt_try.
  rewrite split_envelope3 by apply toString_hex_no_colon.
  cbn [length Nat.eqb lookup]. simpl.
  rewrite !Buffer_from_toString_hex, even_length_toString_hex.
  destruct (cipheriv_ok _ _); [|reflexivity].
  destruct (auth_tag_ok _); reflexivity.
Qed.

(** [decrypt] on a four-part envelope of hexadecimal parts. *)
Lemma decrypt_envelope4 salt iv tag ct pw :
  let env := toString_hex salt ++ ":" ++ toString_hex iv ++ ":"
               ++ toString_hex tag ++ ":" ++ toString_hex ct in
  let key := pbkdf2Sync pw salt in
  decrypt this env (Some pw)
  = try_catch
      (if cipheriv_ok key iv then
         if auth_tag_ok tag then
           if gcm_verify key iv tag ct
           then Ok (utf8_decode (gcm_decipher key iv ct))
           else Throw ERR_AUTH_TAG
         else Throw ERR_INVALID_ARG
       else Throw ERR_CRYPTO_INIT)
      (fun _ => Ok env).
Proof.
  intros env key. unfold decrypt, env.
  rewrite truthy_envelope, includes_envelope. cbn [negb orb].
  unfold decrypt_try.
  rewrite split_envelope4 by apply toString_hex_no_colon.
  cbn [length Nat.eqb lookup]. simpl.
  rewrite !Buffer_from_toString_hex, even_length_toString_hex.
  fold key.
  destruct (cipheriv_ok _ _); [|reflexivity].
  destruct (auth_tag_ok _); reflexivity.
Qed.

(** What [encrypt] returns under a password: the salt in the envelope
    is drawn after the one the key was derived from. *)
Lemma encrypt_password_returns p pw k env k' :
  truthy p = true -> truthy pw = true ->
  encrypt this p (Some pw) k = (Ok env, k') ->
  let key := pbkdf2Sync pw (random_tape k SALT_LENGTH) in
  let iv := random_tape (S k) IV_LENGTH in
  let ct := gcm_cipher key iv (utf8_encode p) in
  cipheriv_ok key iv = true /\
  env = toString_hex (random_tape (S (S k)) SALT_LENGTH) ++ ":"
          ++ toString_hex iv ++ ":" ++ toString_hex (gcm_tag key iv ct)
          ++ ":" ++ toString_hex ct.
Proof.
  intros Hp Hpw. unfold encrypt. rewrite Hp. cbn [negb truthy_opt].
  rewrite Hpw. unfold rbind, ret, randomBytes, lift, deriveKey.
  destruct (cipheriv_ok _ _) eqn:Hok; intros H; inversion H; subst.
  auto.
Qed.

(** Under the master key, [decrypt] inverts [encrypt]. *)
Lemma encrypt_decrypt_master p k env k' :
  GcmCorrect C ->
  truthy p = true ->
  encrypt this p None k = (Ok env, k') ->
  decrypt this env None = Ok p.
Proof.
  intros Hgcm Hp Henc.
  destruct (encrypt_master_returns p k env k' Hp Henc) as (Hok & -> & _).
  unfold envelope3. rewrite decrypt_envelope3, Hok.
  destruct (Hgcm _ _ (utf8_encode p) Hok) as (Hdec & Htag & Hver).
  rewrite Htag, Hver, Hdec, utf8_roundtrip. reflexivity.
Qed.

(** C2: for a non-empty plaintext and a password, [decrypt] should give
    back what [encrypt] was given.  With a password it does not: [encrypt]
    derives the key from one salt and writes another, freshly drawn, into
    the envelope, so [decrypt] derives a different key, the tag does not
    verify, and the caller gets the envelope back instead of the
    plaintext. *)
Theorem encrypt_decrypt_password_loses_plaintext p pw k env k' :
  GcmKeyBinding C -> GcmLength C ->
  truthy p = true -> truthy pw = true ->
  pbkdf2Sync pw (random_tape k SALT_LENGTH)
    <> pbkdf2Sync pw (random_tape (S (S k)) SALT_LENGTH) ->
  encrypt this p (Some pw) k = (Ok env, k') ->
  decrypt this env (Some pw) = Ok env /\ env <> p.
Proof.
  intros Hbind Hlen Hp Hpw Hkeys Henc.
  destruct (encrypt_password_returns p pw k env k' Hp Hpw Henc) as (_ & ->).
  clear Henc. split.
  - rewrite decrypt_envelope4.
    rewrite (Hbind _ _ _ _ Hkeys).
    destruct (cipheriv_ok _ _); [|reflexivity].
    destruct (auth_tag_ok _); reflexivity.
  - intros Heq. apply (f_equal String.length) in Heq.
    rewrite !length_append, !length_toString_hex, Hlen, length_utf8_encode in Heq.
    simpl in Heq. lia.
Qed.

(** C3, as the code has it: when the tag does not verify, [decrypt] catches
    the error, reports it on the console, and returns its input unchanged;
    the deciphered text is dropped.  The caller sees what it would see for
    an input that was never encrypted. *)
Theorem decrypt_tag_failure_returns_input c pw :
  includes ":" c = true ->
  decrypt_try this c pw = Throw ERR_AUTH_TAG ->
  decrypt this c pw = Ok c /\
  decrypt_console this c pw = [ERR_AUTH_TAG].
Proof.
  intros Hc Htry. unfold decrypt, decrypt_console.
  assert (Ht : truthy c = true) by (destruct c; [discriminate | reflexivity]).
  rewrite Ht, Hc, Htry. split; reflexivity.
Qed.

(** C4: a record already marked [_encrypted] should be left alone.
    [encryptAccount] does not look at the marker: the password of such a
    record is passed through [encrypt] again and comes back as a new,
    longer envelope around the old one. *)
Theorem encryptAccount_encrypts_marked_record a k a' k' :
  GcmLength C ->
  _encrypted a = Some true ->
  truthy (password a) = true ->
  encryptAccount this (Some a) k = (Ok (Some a'), k') ->
  (exists k1, encrypt this (password a) None k = (Ok (password a'), k1)) /\
  password a' <> password a.
Proof.
  intros Hlen _ Hp. unfold encryptAccount, rbind.
  destruct (encrypt this (password a) None k) as [[pw1|e] k1] eqn:Henc;
    [|discriminate].
  destruct (if truthy (sharedSecret a) then _ else _) as [[ss|e] k2];
    [|discriminate].
  unfold ret. intros H. inversion H; subst. cbn [password].
  split; [eauto|].
  destruct (encrypt_master_returns _ _ _ _ Hp Henc) as (_ & -> & _).
  intros Heq. apply (f_equal String.length) in Heq.
  unfold envelope3 in Heq.
  rewrite !length_append, !length_toString_hex, Hlen, length_utf8_encode in Heq.
  simpl in Heq. lia.
Qed.

(** [encryptAccount] never reads the marker: two records that differ in
    it alone are encrypted alike. *)
Lemma encryptAccount_ignores_marker u pw ss m1 m2 k :
  encryptAccount this
    (Some {| username := u; password := pw; sharedSecret := ss;
             _encrypted := m1 |}) k
  = encryptAccount this
      (Some {| username := u; password := pw; sharedSecret := ss;
               _encrypted := m2 |}) k.
Proof. reflexivity. Qed.

(** [decryptAccount], for its part, does: a record that is not marked is
    returned as it is. *)
Lemma decryptAccount_checks_marker a :
  truthy_flag (_encrypted a) = false ->
  decryptAccount this (Some a) = Ok (Some a).
Proof. intros H. unfold decryptAccount. rewrite H. reflexivity. Qed.

(** C10: on every string, with or without a password, [decrypt] returns a
    string and does not throw; a string without [':'] comes back unchanged,
    and whatever is thrown while parsing, deriving the key or deciphering
    is caught. *)
Theorem decrypt_never_throws c pw :
  (exists s, decrypt this c pw = Ok s) /\
  (includes ":" c = false -> decrypt this c pw = Ok c) /\
  (forall e, decrypt_try this c pw = Throw e -> decrypt this c pw = Ok c).
Proof.
  unfold decrypt. repeat split.
  - destruct (negb (truthy c) || negb (includes ":" c)); [eauto|].
    destruct (decrypt_try this c pw); simpl; eauto.
  - intros ->. rewrite orb_true_r. reflexivity.
  - intros e ->. destruct (negb (truthy c) || negb (includes ":" c)); reflexivity.
Qed.

End WithCrypto.

(** The executable instance satisfies the laws. *)

Import ToyCrypto.

Lemma toy_correct : GcmCorrect toy.
Proof.
  intros key iv pt _. cbn. rewrite rev_involutive.
  repeat split. unfold toy_verify, toy_tag. apply bool_decide_eq_true. reflexivity.
Qed.

Lemma toy_key_binding : GcmKeyBinding toy.
Proof.
  intros key key' iv ct Hne. cbn. unfold toy_verify, toy_tag.
  apply bool_decide_eq_false. intros H. apply app_inv_tail in H. congruence.
Qed.

Lemma toy_length : GcmLength toy.
Proof. intros key iv pt. cbn. apply length_rev. Qed.

(** C2 at a concrete input: plaintext ["hi"], password ["pw"]. *)
Lemma encrypt_decrypt_password_witness :
  exists env,
    fst (encrypt master "hi" (Some "pw") 0%nat) = Ok env /\
    decrypt master env (Some "pw") = Ok env /\ env <> "hi".
Proof.
  eexists. split; [vm_compute; reflexivity|].
  apply (encrypt_decrypt_password_loses_plaintext master "hi" "pw" 0%nat _ 3%nat
           toy_key_binding toy_length eq_refl eq_refl).
  - vm_compute. discriminate.
  - vm_compute. reflexivity.
Defined.

(** C3 at a concrete input: the tampered envelope. *)
Lemma decrypt_tag_failure_witness :
  decrypt master tampered None = Ok tampered /\
  decrypt_console master tampered None = [ERR_AUTH_TAG].
Proof.
  apply (decrypt_tag_failure_returns_input master tampered None).
  - vm_compute. reflexivity.
  - vm_compute. reflexivity.
Defined.

(** C3, as the claim has it, fails: the tag of the tampered envelope does
    not verify, and [decrypt] answers with the envelope itself, just as it
    answers with its input when that was never encrypted. *)
Lemma decrypt_tampered_returns_envelope :
  decrypt_try master tampered None = Throw ERR_AUTH_TAG /\
  decrypt master tampered None = Ok tampered /\
  decrypt master "plain text" None = Ok "plain text".
Proof. vm_compute. repeat split. Qed.

(** C4 at a concrete input: the marked record is encrypted once more. *)
Lemma encryptAccount_marked_witness :
  exists a',
    fst (encryptAccount master (Some marked) 1%nat) = Ok (Some a') /\
    (exists k1, encrypt master (password marked) None 1%nat
                = (Ok (password a'), k1)) /\
    password a' <> password marked.
Proof.
  eexists. split; [vm_compute; reflexivity|].
  apply (encryptAccount_encrypts_marked_record master marked 1%nat _ 2%nat
           toy_length eq_refl eq_refl).
  vm_compute. reflexivity.
Defined.

End CryptoFacts.

(** ** [RateLimiter] *)

Module RateLimiterFacts.
Import RateLimiter.

Lemma check_limits now now' l :
  maxRequests (snd (check now now' l)) = maxRequests l /\
  intervalMs (snd (check now now' l)) = intervalMs l.
Proof.
  unfold check, canMakeRequest. cbn.
  destruct (_ <? _); cbn; auto.
Qed.

(** What one attempt does: it is permitted exactly when fewer than
    [maxRequests] recorded timestamps are younger than the interval, and
    the time is recorded exactly then. *)
Lemma check_spec now now' l :
  let kept := List.filter (young l now) (requests l) in
  fst (check now now' l) = (Z.of_nat (length kept) <? maxRequests l) /\
  requests (snd (check now now' l))
  = (kept ++ if fst (check now now' l) then [now'] else [])%list.
Proof.
  unfold check, canMakeRequest. cbn.
  destruct (_ <? _); cbn; split; try reflexivity.
  symmetry. apply app_nil_r.
Qed.

(** Filtering twice with a weaker first test is filtering once. *)
Lemma filter_filter_weaker {A} (f g : A -> bool) (xs : list A) :
  (forall x, f x = true -> g x = true) ->
  List.filter f (List.filter g xs) = List.filter f xs.
Proof.
  intros Hfg. induction xs as [|x xs IH]; cbn; [reflexivity|].
  destruct (g x) eqn:Hg; cbn.
  - rewrite IH. reflexivity.
  - destruct (f x) eqn:Hf; [|exact IH].
    rewrite (Hfg x Hf) in Hg. discriminate.
Qed.

Lemma length_filter_le {A} (f : A -> bool) (xs : list A) :
  (length (List.filter f xs) <= length xs)%nat.
Proof.
  induction xs as [|x xs IH]; cbn; [lia|].
  destruct (f x); cbn; lia.
Qed.

(** The invariant of a run.  [hist] holds the timestamps recorded so far
    and [c] the last clock reading: no timestamp is later than [c]; from [c]
    on, the timestamps still young are those the limiter keeps; and no
    window holds more than [maxRequests] of them. *)
Lemma attempts_window_bound calls :
  forall l hist c,
    monotone c calls ->
    (forall ts, In ts hist -> ts <= c) ->
    (forall x, c <= x ->
       List.filter (young l x) hist = List.filter (young l x) (requests l)) ->
    (forall T, Z.of_nat (length (in_window (intervalMs l) T hist))
               <= maxRequests l) ->
    forall T,
      Z.of_nat (length (in_window (intervalMs l) T
                          (hist ++ fst (attempts calls l))))
      <= maxRequests l.
Proof.
  induction calls as [|[now now'] cs IH]; intros l hist c Hmono Hle Hkeep Hwin T.
  - cbn. rewrite app_nil_r. apply Hwin.
  - destruct Hmono as (Hc & Hnow & Hmono).
    cbn [attempts].
    destruct (check now now' l) as [ok l1] eqn:Hcheck.
    destruct (attempts cs l1) as [rec l2] eqn:Hrec.
    pose proof (check_spec now now' l) as Hspec. cbv zeta in Hspec.
    pose proof (check_limits now now' l) as Hlim.
    rewrite Hcheck in Hspec, Hlim. cbn [fst snd] in Hspec, Hlim.
    destruct Hspec as (Hok & Hreq). destruct Hlim as (Hmax & Hint).
    assert (Hyoung : forall x ts, young l1 x ts = young l x ts)
      by (intros; unfold young; now rewrite Hint).
    assert (Hkeep' : forall x, now <= x ->
              List.filter (young l x) hist
              = List.filter (young l x) (List.filter (young l now) (requests l))).
    { intros x Hx. rewrite filter_filter_weaker.
      - apply Hkeep. lia.
      - intros ts. unfold young. rewrite !Z.ltb_lt. lia. }
    cbn [fst].
    replace (hist ++ (if ok then [now'] else []) ++ rec)%list
      with ((hist ++ (if ok then [now'] else [])) ++ fst (attempts cs l1))%list
      by (rewrite Hrec; cbn [fst]; now rewrite app_assoc).
    rewrite <- Hmax, <- Hint.
    apply (IH l1 _ now' Hmono).
    + intros ts Hin. apply in_app_or in Hin as [Hin|Hin].
      * specialize (Hle ts Hin). lia.
      * destruct ok; cbn in Hin; [|contradiction].
        destruct Hin as [<-|[]]. lia.
    + intros x Hx. rewrite Hreq, !List.filter_app.
      rewrite (List.filter_ext _ _ (Hyoung x)).
      rewrite (List.filter_ext (young l1 x) _ (Hyoung x)).
      rewrite (List.filter_ext (young l1 x) _ (Hyoung x)).
      f_equal. apply Hkeep'. lia.
    + intros T'. rewrite Hmax, Hint.
      unfold in_window. rewrite List.filter_app, length_app, Nat2Z.inj_add.
      fold (in_window (intervalMs l) T' hist).
      destruct ok; cbn [List.filter]; [|specialize (Hwin T'); cbn; lia].
      destruct ((T' - now' <? intervalMs l) && (now' <=? T')) eqn:Hin;
        [|specialize (Hwin T'); cbn; lia].
      apply andb_prop in Hin as (Hin1 & Hin2).
      apply Z.leb_le in Hin2.
      symmetry in Hok. apply Z.ltb_lt in Hok.
      assert (Hsame : in_window (intervalMs l) T' hist
                      = List.filter (young l T') hist).
      { unfold in_window. apply List.filter_ext_in. intros ts Hts.
        specialize (Hle ts Hts). unfold young.
        replace (ts <=? T') with true by (symmetry; apply Z.leb_le; lia).
        apply andb_true_r. }
      rewrite Hsame, (Hkeep' T') by lia.
      pose proof (length_filter_le (young l T')
                    (List.filter (young l now) (requests l))).
      cbn [length]. lia.
Qed.

(** C6: over any sequence of acquisition attempts made on a clock that
    does not run backwards, no trailing window of length [intervalMs] holds
    more than [maxRequests] recorded timestamps; an attempt is permitted
    exactly when fewer than [maxRequests] kept timestamps are younger than
    the interval, and the time is recorded exactly when it is permitted. *)
Theorem rate_limiter_window_bound maxR W t0 calls T :
  0 <= maxR ->
  monotone t0 calls ->
  Z.of_nat (length (in_window W T (fst (attempts calls (create maxR W)))))
    <= maxR /\
  (forall now now' l,
     fst (check now now' l)
     = (Z.of_nat (length (List.filter (young l now) (requests l)))
          <? maxRequests l) /\
     requests (snd (check now now' l))
     = (List.filter (young l now) (requests l)
          ++ if fst (check now now' l) then [now'] else [])%list).
Proof.
  intros Hmax Hmono. split.
  - apply (attempts_window_bound calls (create maxR W) [] t0 Hmono).
    + intros ts [].
    + reflexivity.
    + intros T'. cbn. exact Hmax.
  - intros now now' l. apply check_spec.
Qed.

(** C6 at a concrete run: two slots per second, five attempts. *)
Lemma rate_limiter_window_witness :
  fst (attempts [(0, 0); (10, 10); (20, 21); (1005, 1005); (1006, 1007)]
         (create 2 1000)) = [0; 10; 1005] /\
  Z.of_nat (length (in_window 1000 1005
     (fst (attempts [(0, 0); (10, 10); (20, 21); (1005, 1005); (1006, 1007)]
             (create 2 1000))))) <= 2.
Proof.
  split; [reflexivity|].
  apply (rate_limiter_window_bound 2 1000 0
           [(0, 0); (10, 10); (20, 21); (1005, 1005); (1006, 1007)] 1005).
  - lia.
  - cbn. lia.
Defined.

End RateLimiterFacts.

(** ** [ConcurrencyLimiter] *)

Module ConcurrencyLimiterFacts.
Import ConcurrencyLimiter.

Local Abbreviation holding := (fun kv : nat * phase => kv.2 = Running).

(** A call that does not hold a slot and is given a phase other than
    [Running] leaves the number of holders as it is. *)
Lemma holders_insert_idle (m : gmap nat phase) i ph :
  ph <> Running -> m !! i <> Some Running ->
  size (filter holding (<[i := ph]> m)) = size (filter holding m).
Proof.
  intros Hph Hi. rewrite map_filter_insert_not'; [reflexivity | exact Hph |].
  intros y Hy. cbn. intros ->. congruence.
Qed.

(** A call that takes a slot adds one holder. *)
Lemma holders_insert_running (m : gmap nat phase) i :
  m !! i <> Some Running ->
  size (filter holding (<[i := Running]> m)) = S (size (filter holding m)).
Proof.
  intros Hi. rewrite map_filter_insert_True by reflexivity.
  apply map_size_insert_None. apply map_lookup_filter_None_2.
  destruct (m !! i) as [y|]; [right | left; reflexivity].
  intros x [= <-]. cbn. congruence.
Qed.

(** A call that gives its slot back removes one holder. *)
Lemma holders_insert_done (m : gmap nat phase) i ph :
  ph <> Running -> m !! i = Some Running ->
  S (size (filter holding (<[i := ph]> m))) = size (filter holding m).
Proof.
  intros Hph Hi. rewrite map_filter_insert_False by exact Hph.
  rewrite map_filter_delete.
  assert (Hf : filter holding m !! i = Some Running)
    by (apply map_lookup_filter_Some_2; [exact Hi | reflexivity]).
  rewrite <- (insert_delete_id (filter holding m) i Running Hf) at 2.
  rewrite map_size_insert_None by apply lookup_delete_eq. reflexivity.
Qed.

Lemma create_consistent max : 0 <= max -> consistent (create max).
Proof.
  intros Hmax. unfold consistent, create, holders. cbn.
  rewrite map_filter_empty, map_size_empty.
  repeat split; [exact Hmax | constructor | |].
  - intros H. inversion H.
  - rewrite lookup_empty. discriminate.
Qed.

(** The loop head keeps the bookkeeping consistent for a call that is new
    or was woken. *)
Lemma enter_consistent i l :
  consistent l ->
  calls l !! i <> Some Running -> calls l !! i <> Some Waiting ->
  consistent (enter i l).
Proof.
  intros (Hrun & Hmax & Hnd & Hq) HnR HnW. unfold enter, consistent, holders.
  unfold holders in Hrun.
  destruct (running l >=? maxConcurrent l) eqn:Hfull; cbn.
  - rewrite holders_insert_idle by (congruence || assumption).
    split; [exact Hrun | split; [exact Hmax | split]].
    + apply NoDup_app. split; [exact Hnd | split; [|apply NoDup_singleton]].
      intros x Hx Hx'. apply list_elem_of_singleton in Hx' as ->.
      apply Hq in Hx. contradiction.
    + intros j. split; intros Hj.
      * apply elem_of_app in Hj as [Hj|Hj].
        -- destruct (decide (i = j)) as [->|Hne].
           ++ apply lookup_insert_eq.
           ++ rewrite lookup_insert_ne by exact Hne. apply Hq, Hj.
        -- apply list_elem_of_singleton in Hj as ->. apply lookup_insert_eq.
      * apply elem_of_app.
        destruct (decide (i = j)) as [->|Hne].
        -- right. apply list_elem_of_singleton. reflexivity.
        -- left. rewrite lookup_insert_ne in Hj by exact Hne. apply Hq, Hj.
  - rewrite holders_insert_running by assumption.
    rewrite Z.geb_leb in Hfull. apply Z.leb_gt in Hfull.
    split; [lia | split; [lia | split; [exact Hnd|]]].
    intros j. split; intros Hj.
    + destruct (decide (i = j)) as [->|Hne].
      * apply Hq in Hj. contradiction.
      * rewrite lookup_insert_ne by exact Hne. apply Hq, Hj.
    + destruct (decide (i = j)) as [->|Hne].
      * rewrite lookup_insert_eq in Hj. discriminate.
      * rewrite lookup_insert_ne in Hj by exact Hne. apply Hq, Hj.
Qed.

(** What the [finally] block does for a call that holds a slot: the slot
    is given back whether [fn()] returned or threw, and the call at the head
    of the queue, if there is one, is woken and no other. *)
Lemma finally_releases i threw l :
  consistent l ->
  calls l !! i = Some Running ->
  let l' := finally i threw l in
  consistent l' /\
  running l' = running l - 1 /\
  calls l' !! i = Some (if threw then Threw else Returned) /\
  match queue l with
  | [] =>
      queue l' = [] /\
      forall j, j <> i -> calls l' !! j = calls l !! j
  | r :: q =>
      queue l' = q /\
      calls l !! r = Some Waiting /\
      calls l' !! r = Some Woken /\
      forall j, j <> i -> j <> r -> calls l' !! j = calls l !! j
  end.
Proof.
  intros (Hrun & Hmax & Hnd & Hq) Hi.
  assert (Hdone : (if threw then Threw else Returned) <> Running)
    by (destruct threw; discriminate).
  unfold finally, consistent, holders.
  destruct (queue l) as [|r q] eqn:Hqueue; cbn.
  - pose proof (holders_insert_done (calls l) i _ Hdone Hi) as Hsz.
    unfold holders in Hrun.
    split; [|split; [|split]].
    + split; [lia | split; [lia | split; [constructor|]]].
      intros j. split; intros Hj; [inversion Hj|].
      destruct (decide (i = j)) as [->|Hne].
      * rewrite lookup_insert_eq in Hj. destruct threw; discriminate.
      * rewrite lookup_insert_ne in Hj by exact Hne.
        apply Hq in Hj. inversion Hj.
    + reflexivity.
    + apply lookup_insert_eq.
    + split; [reflexivity|].
      intros j Hj. apply lookup_insert_ne. congruence.
  - assert (Hr : calls l !! r = Some Waiting) by (apply Hq; left).
    assert (Hri : r <> i) by congruence.
    apply NoDup_cons in Hnd as (Hrq & Hndq).
    assert (Hi' : <[r := Woken]> (calls l) !! i = Some Running)
      by (rewrite lookup_insert_ne by exact Hri; exact Hi).
    pose proof (holders_insert_done _ i _ Hdone Hi') as Hsz.
    rewrite (holders_insert_idle (calls l) r Woken) in Hsz
      by (congruence || discriminate).
    unfold holders in Hrun.
    split; [|split; [|split]].
    + split; [lia | split; [lia | split; [exact Hndq|]]].
      intros j. split; intros Hj.
      * assert (j <> r) by (intros ->; contradiction).
        assert (Hjw : calls l !! j = Some Waiting) by (apply Hq; now right).
        assert (j <> i) by congruence.
        rewrite !lookup_insert_ne by congruence. exact Hjw.
      * destruct (decide (i = j)) as [->|Hne].
        { rewrite lookup_insert_eq in Hj. destruct threw; discriminate. }
        rewrite lookup_insert_ne in Hj by exact Hne.
        destruct (decide (r = j)) as [->|Hne'].
        { rewrite lookup_insert_eq in Hj. discriminate. }
        rewrite lookup_insert_ne in Hj by exact Hne'.
        apply Hq in Hj.
        apply elem_of_cons in Hj as [->|Hj]; [congruence | exact Hj].
    + reflexivity.
    + apply lookup_insert_eq.
    + split; [reflexivity | split; [exact Hr | split]].
      * rewrite lookup_insert_ne by congruence. apply lookup_insert_eq.
      * intros j Hji Hjr. rewrite !lookup_insert_ne by congruence. reflexivity.
Qed.

Lemma step_consistent e l l' :
  consistent l -> step e l = Some l' -> consistent l'.
Proof.
  intros Hl. destruct e as [i|i|i threw]; cbn.
  - destruct (calls l !! i) eqn:Hi; [discriminate|].
    intros [= <-]. apply enter_consistent; [exact Hl | congruence | congruence].
  - destruct (calls l !! i) as [[]|] eqn:Hi; try discriminate.
    intros [= <-]. apply enter_consistent; [exact Hl | congruence | congruence].
  - destruct (calls l !! i) as [[]|] eqn:Hi; try discriminate.
    intros [= <-]. apply (finally_releases i threw l Hl Hi).
Qed.

Lemma step_maxConcurrent e l l' :
  step e l = Some l' -> maxConcurrent l' = maxConcurrent l.
Proof.
  destruct e as [i|i|i threw]; cbn.
  - destruct (calls l !! i); [discriminate|]. intros [= <-].
    unfold enter. destruct (_ >=? _); reflexivity.
  - destruct (calls l !! i) as [[]|]; try discriminate. intros [= <-].
    unfold enter. destruct (_ >=? _); reflexivity.
  - destruct (calls l !! i) as [[]|]; try discriminate. intros [= <-].
    unfold finally. destruct (queue l); reflexivity.
Qed.

Lemma run_consistent es :
  forall l l', consistent l -> run es l = Some l' ->
               consistent l' /\ maxConcurrent l' = maxConcurrent l.
Proof.
  induction es as [|e es IH]; intros l l' Hl; cbn.
  - intros [= <-]. split; [exact Hl | reflexivity].
  - destruct (step e l) as [l1|] eqn:Hstep; [|discriminate].
    intros Hrun.
    destruct (IH l1 l' (step_consistent e l l1 Hl Hstep) Hrun) as (Hc & Hm).
    split; [exact Hc|]. rewrite Hm. apply (step_maxConcurrent e l l1 Hstep).
Qed.











End ConcurrencyLimiterFacts.

(** ** [BackoffManager] *)

Module BackoffManagerFacts.
Import Number BackoffManager.
Local Open Scope Q_scope.

Lemma getAttempts_recordFailure key b :
  getAttempts key (recordFailure key b) = S (getAttempts key b).
Proof.
  unfold getAttempts at 1, recordFailure. cbn.
  rewrite lookup_insert_eq. cbn. lia.
Qed.

Lemma getAttempts_reset key b : getAttempts key (reset key b) = 0%nat.
Proof.
  unfold getAttempts, reset. cbn. rewrite lookup_delete_eq. reflexivity.
Qed.

(** *** The order of the numbers *)

Lemma leb_Finite a b : leb (Finite a) (Finite b) = true <-> a <= b.
Proof. apply Qle_bool_iff. Qed.

Lemma leb_from_Finite a x :
  leb (Finite a) x = true ->
  x = Infinity false \/ exists q, x = Finite q /\ a <= q.
Proof.
  destruct x as [|[]|q]; cbn; try discriminate; [auto|].
  intros H. right. exists q. split; [reflexivity | apply Qle_bool_iff, H].
Qed.

Lemma leb_to_Finite x b :
  leb x (Finite b) = true ->
  x = Infinity true \/ exists q, x = Finite q /\ q <= b.
Proof.
  destruct x as [|[]|q]; cbn; try discriminate; [auto|].
  intros H. right. exists q. split; [reflexivity | apply Qle_bool_iff, H].
Qed.

Lemma leb_trans x y z : leb x y = true -> leb y z = true -> leb x z = true.
Proof.
  destruct x as [|[]|a], y as [|[]|b], z as [|[]|c]; cbn;
    try discriminate; try reflexivity.
  rewrite !Qle_bool_iff. apply Qle_trans.
Qed.


Lemma power_nonneg q n : 0 <= q -> 0 <= power q n.
Proof.
  intros Hq. induction n as [|n IH]; cbn; [lra | nra].
Qed.

Lemma Qred_inject_Z n : Qred (inject_Z n) = inject_Z n.
Proof.
  unfold Qred, inject_Z.
  pose proof (Z.ggcd_gcd n 1) as Hg. rewrite Z.gcd_1_r in Hg.
  pose proof (Z.ggcd_correct_divisors n 1) as Hd.
  destruct (Z.ggcd n 1) as (g & aa & bb). cbn in Hg, Hd. subst g.
  destruct Hd as (Ha & Hb). rewrite Z.mul_1_l in Ha, Hb. subst aa bb.
  reflexivity.
Qed.

(** *** Rounding to the nearest double *)

Lemma two_neq_0 : ~ 2 == 0.
Proof. discriminate. Qed.

Lemma pow2_pos k : 0 < 2 ^ k.
Proof. apply Qpower_0_lt. reflexivity. Qed.

Lemma pow2_plus a b : 2 ^ (a + b) == 2 ^ a * 2 ^ b.
Proof. apply Qpower_plus, two_neq_0. Qed.

Lemma pow2_succ a : 2 ^ (a + 1) == 2 * 2 ^ a.
Proof. rewrite pow2_plus. change (2 ^ 1) with 2. ring. Qed.

Lemma pow2_le a b : (a <= b)%Z -> 2 ^ a <= 2 ^ b.
Proof. intros H. apply Qpower_le_compat_l; [exact H | discriminate]. Qed.

Lemma pow2_lt_inv a b : 2 ^ a < 2 ^ b -> (a < b)%Z.
Proof. intros H. apply (Qpower_lt_compat_l_inv 2); [exact H | reflexivity]. Qed.

Lemma pow2_inject k : (0 <= k)%Z -> inject_Z (2 ^ k) == 2 ^ k.
Proof. intros H. apply (Zpower_Qpower 2 k H). Qed.

Lemma nearest_even_comp x y : x == y -> nearest_even x = nearest_even y.
Proof.
  intros H. unfold nearest_even. rewrite (Qfloor_comp x y H).
  assert (Hc : (x - inject_Z (Qfloor y) ?= 1 # 2) = (y - inject_Z (Qfloor y) ?= 1 # 2)).
  { apply Qcompare_comp; [rewrite H; reflexivity | reflexivity]. }
  rewrite Hc. reflexivity.
Qed.

Lemma nearest_even_Z k : nearest_even (inject_Z k) = k.
Proof.
  unfold nearest_even. rewrite Qfloor_Z.
  assert (H : (inject_Z k - inject_Z k ?= 1 # 2) = Lt).
  { apply Qlt_alt. setoid_replace (inject_Z k - inject_Z k) with 0 using relation Qeq by ring.
    reflexivity. }
  rewrite H. reflexivity.
Qed.

Lemma nearest_even_floor x :
  (Qfloor x <= nearest_even x <= Qfloor x + 1)%Z.
Proof.
  unfold nearest_even.
  destruct (x - inject_Z (Qfloor x) ?= 1 # 2); [destruct (Z.even _)| |]; lia.
Qed.

Lemma nearest_even_mono x y : x <= y -> (nearest_even x <= nearest_even y)%Z.
Proof.
  intros Hxy. pose proof (Qfloor_resp_le x y Hxy) as Hf.
  destruct (Z.eq_dec (Qfloor x) (Qfloor y)) as [Heq|Hne].
  - unfold nearest_even. rewrite Heq.
    destruct (Qcompare_spec (x - inject_Z (Qfloor y)) (1 # 2)) as [Hx|Hx|Hx];
      destruct (Qcompare_spec (y - inject_Z (Qfloor y)) (1 # 2)) as [Hy|Hy|Hy];
      try destruct (Z.even (Qfloor y)); try lia; exfalso; lra.
  - pose proof (nearest_even_floor x). pose proof (nearest_even_floor y). lia.
Qed.

Lemma nearest_even_le x k : x <= inject_Z k -> (nearest_even x <= k)%Z.
Proof.
  intros H. rewrite <- (nearest_even_Z k). apply nearest_even_mono, H.
Qed.

Lemma nearest_even_ge x k : inject_Z k <= x -> (k <= nearest_even x)%Z.
Proof.
  intros H. rewrite <- (nearest_even_Z k). apply nearest_even_mono, H.
Qed.

Lemma exponent_spec a :
  0 < a -> 2 ^ exponent a <= a /\ a < 2 ^ (exponent a + 1).
Proof.
  intros Ha. destruct a as [n d].
  assert (Hn : (0 < n)%Z).
  { unfold Qlt in Ha. cbn in Ha. lia. }
  pose proof (Z.log2_spec n Hn) as [Hn1 Hn2].
  pose proof (Z.log2_spec (Z.pos d) ltac:(lia)) as [Hd1 Hd2].
  pose proof (Z.log2_nonneg n) as Hln.
  pose proof (Z.log2_nonneg (Z.pos d)) as Hld.
  unfold exponent. cbn [Qnum Qden].
  set (ln := Z.log2 n) in *. set (ld := Z.log2 (Z.pos d)) in *.
  rewrite <- Z.add_1_r in Hn2, Hd2.
  rewrite Zle_Qle, pow2_inject in Hn1, Hd1 by lia.
  rewrite Zlt_Qlt, pow2_inject, pow2_succ in Hn2, Hd2 by lia.
  assert (Had : (n # d) * inject_Z (Z.pos d) == inject_Z n).
  { rewrite (Qmake_Qdiv n d). field. discriminate. }
  assert (HE : 2 ^ (ln - ld) * 2 ^ ld == 2 ^ ln).
  { rewrite <- pow2_plus. replace (ln - ld + ld)%Z with ln by lia. reflexivity. }
  pose proof (pow2_pos ld) as Hp. pose proof (pow2_pos (ln - ld)) as HpE.
  set (A := n # d) in *. set (D := inject_Z (Z.pos d)) in *.
  set (N := inject_Z n) in *.
  destruct (Qle_bool (2 ^ (ln - ld)) A) eqn:Hc.
  - apply Qle_bool_iff in Hc. split; [exact Hc|].
    rewrite pow2_succ.
    destruct (Qlt_le_dec A (2 * 2 ^ (ln - ld))) as [|Hge]; [assumption|exfalso].
    assert (2 * 2 ^ (ln - ld) * D <= A * D) by nra.
    assert (2 * 2 ^ (ln - ld) * 2 ^ ld <= 2 * 2 ^ (ln - ld) * D) by nra.
    nra.
  - assert (Hlt : A < 2 ^ (ln - ld)).
    { destruct (Qlt_le_dec A (2 ^ (ln - ld))) as [|Hge]; [assumption|].
      apply Qle_bool_iff in Hge. congruence. }
    replace (ln - ld - 1 + 1)%Z with (ln - ld)%Z by lia.
    split; [|exact Hlt].
    assert (H2 : 2 * 2 ^ (ln - ld - 1) == 2 ^ (ln - ld)).
    { rewrite <- pow2_succ. replace (ln - ld - 1 + 1)%Z with (ln - ld)%Z by lia.
      reflexivity. }
    pose proof (pow2_pos (ln - ld - 1)) as Hp1.
    destruct (Qlt_le_dec A (2 ^ (ln - ld - 1))) as [Hlt'|]; [exfalso|assumption].
    assert (A * D <= 2 ^ (ln - ld - 1) * D) by nra.
    assert (2 ^ (ln - ld - 1) * D < 2 ^ (ln - ld - 1) * (2 * 2 ^ ld)) by nra.
    nra.
Qed.

Lemma nearest_unfold a :
  nearest a = inject_Z (nearest_even (a / 2 ^ last_bit a)) * 2 ^ last_bit a.
Proof. reflexivity. Qed.

Lemma scaled_lt a :
  0 < a -> a / 2 ^ last_bit a < inject_Z (2 ^ 53).
Proof.
  intros Ha. destruct (exponent_spec a Ha) as [_ Hhi].
  pose proof (pow2_pos (last_bit a)) as Hp.
  assert (Hle : 2 ^ (exponent a + 1) <= 2 ^ (last_bit a + 53)).
  { apply pow2_le. unfold last_bit. lia. }
  rewrite (pow2_plus (last_bit a)) in Hle. rewrite pow2_inject by lia.
  apply Qlt_shift_div_r; [exact Hp|].
  apply Qlt_le_trans with (2 ^ (exponent a + 1)); [exact Hhi|].
  rewrite (Qmult_comm (2 ^ 53)). exact Hle.
Qed.

Lemma scaled_ge a :
  0 < a -> (- 1074 < last_bit a)%Z -> inject_Z (2 ^ 52) <= a / 2 ^ last_bit a.
Proof.
  intros Ha Hu. destruct (exponent_spec a Ha) as [Hlo _].
  pose proof (pow2_pos (last_bit a)) as Hp.
  assert (He : exponent a = (last_bit a + 52)%Z) by (unfold last_bit in *; lia).
  rewrite He, pow2_plus in Hlo. rewrite pow2_inject by lia.
  apply Qle_shift_div_l; [exact Hp|].
  rewrite (Qmult_comm (2 ^ 52)). exact Hlo.
Qed.

Lemma exponent_mono a b : 0 < a -> a <= b -> (exponent a <= exponent b)%Z.
Proof.
  intros Ha Hab.
  destruct (exponent_spec a Ha) as [Hlo _].
  destruct (exponent_spec b ltac:(lra)) as [_ Hhi].
  assert (H : 2 ^ exponent a < 2 ^ (exponent b + 1)) by lra.
  apply pow2_lt_inv in H. lia.
Qed.

Lemma nearest_zero a : a == 0 -> nearest a == 0.
Proof.
  intros Ha. rewrite nearest_unfold.
  assert (H : a / 2 ^ last_bit a == inject_Z 0).
  { generalize (2 ^ last_bit a). intros x. rewrite Ha. unfold Qdiv.
    change (inject_Z 0) with 0. ring. }
  rewrite (nearest_even_comp _ _ H), nearest_even_Z. ring.
Qed.

Lemma nearest_nonneg a : 0 <= a -> 0 <= nearest a.
Proof.
  intros Ha. rewrite nearest_unfold.
  pose proof (pow2_pos (last_bit a)) as Hp.
  assert (H : (0 <= nearest_even (a / 2 ^ last_bit a))%Z).
  { apply nearest_even_ge. change (inject_Z 0) with 0.
    apply Qle_shift_div_l; [exact Hp|]. lra. }
  rewrite Zle_Qle in H. change (inject_Z 0) with 0 in H. nra.
Qed.

Lemma nearest_mono_pos a b : 0 < a -> a <= b -> nearest a <= nearest b.
Proof.
  intros Ha Hab. assert (Hb : 0 < b) by lra.
  rewrite !nearest_unfold.
  pose proof (pow2_pos (last_bit a)) as Hpa.
  pose proof (pow2_pos (last_bit b)) as Hpb.
  assert (Hu : (last_bit a <= last_bit b)%Z).
  { pose proof (exponent_mono a b Ha Hab). unfold last_bit. lia. }
  destruct (Z.eq_dec (last_bit a) (last_bit b)) as [Heq|Hne].
  - rewrite Heq in *.
    assert (H : (nearest_even (a / 2 ^ last_bit b)
                 <= nearest_even (b / 2 ^ last_bit b))%Z).
    { apply nearest_even_mono. unfold Qdiv.
      apply Qmult_le_compat_r; [exact Hab|].
      apply Qinv_le_0_compat. lra. }
    rewrite Zle_Qle in H. nra.
  - assert (H1 : (nearest_even (a / 2 ^ last_bit a) <= 2 ^ 53)%Z).
    { apply nearest_even_le. apply Qlt_le_weak, scaled_lt, Ha. }
    assert (H2 : (2 ^ 52 <= nearest_even (b / 2 ^ last_bit b))%Z).
    { apply nearest_even_ge, scaled_ge; [exact Hb|].
      unfold last_bit in *. lia. }
    rewrite Zle_Qle in H1, H2.
    assert (H3 : 2 ^ (last_bit a + 53) <= 2 ^ (last_bit b + 52)).
    { apply pow2_le. lia. }
    rewrite !pow2_plus in H3.
    rewrite (pow2_inject 53) in H1 by lia. rewrite (pow2_inject 52) in H2 by lia.
    pose proof (pow2_pos 53). pose proof (pow2_pos 52).
    set (ra := inject_Z (nearest_even (a / 2 ^ last_bit a))) in *.
    set (rb := inject_Z (nearest_even (b / 2 ^ last_bit b))) in *.
    apply Qle_trans with (2 ^ last_bit a * 2 ^ 53); [nra|].
    apply Qle_trans with (2 ^ last_bit b * 2 ^ 52); [exact H3 | nra].
Qed.

Lemma nearest_mono a b : 0 <= a -> a <= b -> nearest a <= nearest b.
Proof.
  intros Ha Hab. destruct (Qlt_le_dec 0 a) as [Hpos|Hz].
  - apply nearest_mono_pos; assumption.
  - rewrite (nearest_zero a) by lra. apply nearest_nonneg. lra.
Qed.

(** A value that has its last bit where the doubles of its size have it
    is a double. *)
Lemma nearest_exact a k :
  a == inject_Z k * 2 ^ last_bit a -> nearest a == a.
Proof.
  intros H. rewrite nearest_unfold.
  pose proof (pow2_pos (last_bit a)) as Hp.
  assert (Hs : a / 2 ^ last_bit a == inject_Z k).
  { rewrite H at 1. field. lra. }
  rewrite (nearest_even_comp _ _ Hs), nearest_even_Z. symmetry. exact H.
Qed.

Lemma nearest_integer n :
  (0 <= n <= 2 ^ 53)%Z -> nearest (inject_Z n) == inject_Z n.
Proof.
  intros Hn. destruct (Z.eq_dec n 0%Z) as [->|Hnz]; [apply nearest_zero; reflexivity|].
  assert (Ha : 0 < inject_Z n).
  { change 0 with (inject_Z 0). rewrite <- Zlt_Qlt. lia. }
  destruct (exponent_spec _ Ha) as [Hlo Hhi].
  set (e := exponent (inject_Z n)) in *.
  assert (He0 : (0 <= e)%Z).
  { assert (H : 2 ^ 0 < 2 ^ (e + 1)).
    { apply Qle_lt_trans with (inject_Z n); [|exact Hhi].
      change (2 ^ 0) with (inject_Z 1). rewrite <- Zle_Qle. lia. }
    apply pow2_lt_inv in H. lia. }
  assert (He53 : (e <= 53)%Z).
  { assert (H : 2 ^ e < 2 ^ 54).
    { apply Qle_lt_trans with (inject_Z n); [exact Hlo|].
      rewrite <- (pow2_inject 54) by lia. rewrite <- Zlt_Qlt.
      assert (2 ^ 53 < 2 ^ 54)%Z by (apply Z.pow_lt_mono_r; lia). lia. }
    apply pow2_lt_inv in H. lia. }
  assert (Hu : last_bit (inject_Z n) = (e - 52)%Z) by (unfold last_bit; fold e; lia).
  destruct (Z.eq_dec e 53%Z) as [He|He].
  - assert (Hn53 : n = (2 ^ 53)%Z).
    { rewrite He, <- (pow2_inject 53), <- Zle_Qle in Hlo by lia. lia. }
    apply (nearest_exact _ (2 ^ 52)). rewrite Hu, He, Hn53. reflexivity.
  - apply (nearest_exact _ (n * 2 ^ (52 - e))). rewrite Hu.
    rewrite inject_Z_mult, pow2_inject by lia.
    rewrite <- Qmult_assoc, <- pow2_plus.
    replace (52 - e + (e - 52))%Z with 0%Z by lia. change (2 ^ 0) with 1. ring.
Qed.

Lemma nearest_2_1024 : nearest (inject_Z (2 ^ 1024)) == 2 ^ 1024.
Proof. vm_compute. reflexivity. Qed.

Lemma binary64_unfold q :
  round (Rounding := binary64) q
  = if Qle_bool (2 ^ 1024) (nearest (Qabs (Qred q)))
    then Infinity (match q ?= 0 with Lt => true | _ => false end)
    else Finite (Qred (if match q ?= 0 with Lt => true | _ => false end
                       then - nearest (Qabs (Qred q))
                       else nearest (Qabs (Qred q)))).
Proof. reflexivity. Qed.

Lemma Qle_bool_false p q : Qle_bool p q = false <-> q < p.
Proof.
  split; intros H.
  - destruct (Qlt_le_dec q p) as [|Hle]; [assumption|].
    apply Qle_bool_iff in Hle. congruence.
  - destruct (Qle_bool p q) eqn:E; [|reflexivity].
    apply Qle_bool_iff in E. lra.
Qed.

Lemma sign_neg q : q < 0 -> (q ?= 0) = Lt.
Proof. apply Qlt_alt. Qed.

Lemma sign_nonneg q :
  0 <= q -> match q ?= 0 with Lt => true | _ => false end = false.
Proof.
  intros H. destruct (Qcompare_spec q 0); try reflexivity. lra.
Qed.

(** The rounding of binary64 has what is used of it. *)
Lemma binary64_Binary64 : Binary64 binary64.
Proof.
  pose proof (pow2_pos 1024) as Hbig.
  unfold Binary64. split; [|split; [|split; [|split]]].
  - intros p q Hpq. rewrite !binary64_unfold.
    rewrite (Qred_complete p q Hpq), (Qcompare_comp p q Hpq 0 0 (Qeq_refl 0)).
    reflexivity.
  - intros p q Hpq. rewrite !binary64_unfold.
    set (vp := nearest (Qabs (Qred p))). set (vq := nearest (Qabs (Qred q))).
    assert (Hvp : 0 <= vp) by apply nearest_nonneg, Qabs_nonneg.
    assert (Hvq : 0 <= vq) by apply nearest_nonneg, Qabs_nonneg.
    destruct (Qlt_le_dec q 0) as [Hq|Hq].
    + (* both negative *)
      rewrite (sign_neg q Hq), (sign_neg p) by lra.
      assert (Hv : vq <= vp).
      { apply nearest_mono; [apply Qabs_nonneg|].
        rewrite !Qred_correct, !Qabs_neg by lra. lra. }
      destruct (Qle_bool (2 ^ 1024) vp) eqn:Ep;
        [destruct (Qle_bool (2 ^ 1024) vq); reflexivity|].
      apply Qle_bool_false in Ep.
      assert (Eq : Qle_bool (2 ^ 1024) vq = false) by (apply Qle_bool_false; lra).
      rewrite Eq. apply leb_Finite. rewrite !Qred_correct. lra.
    + rewrite (sign_nonneg q Hq).
      destruct (Qlt_le_dec p 0) as [Hp|Hp].
      * rewrite (sign_neg p Hp).
        destruct (Qle_bool (2 ^ 1024) vp), (Qle_bool (2 ^ 1024) vq);
          try reflexivity.
        apply leb_Finite. rewrite !Qred_correct. lra.
      * rewrite (sign_nonneg p Hp).
        assert (Hv : vp <= vq).
        { apply nearest_mono; [apply Qabs_nonneg|].
          rewrite !Qred_correct, !Qabs_pos by lra. lra. }
        destruct (Qle_bool (2 ^ 1024) vq) eqn:Eq;
          [destruct (Qle_bool (2 ^ 1024) vp); reflexivity|].
        apply Qle_bool_false in Eq.
        assert (Ep : Qle_bool (2 ^ 1024) vp = false) by (apply Qle_bool_false; lra).
        rewrite Ep. apply leb_Finite. rewrite !Qred_correct. lra.
  - intros n Hn. rewrite binary64_unfold, Qred_inject_Z.
    change (Qabs (inject_Z n)) with (inject_Z (Z.abs n)).
    pose proof (nearest_integer (Z.abs n) ltac:(lia)) as Hv.
    set (v := nearest (inject_Z (Z.abs n))) in *.
    assert (H53 : inject_Z (Z.abs n) < 2 ^ 1024).
    { rewrite <- (pow2_inject 1024), <- Zlt_Qlt by lia.
      assert (2 ^ 53 < 2 ^ 1024)%Z by (apply Z.pow_lt_mono_r; lia). lia. }
    assert (E : Qle_bool (2 ^ 1024) v = false) by (apply Qle_bool_false; lra).
    rewrite E. f_equal.
    transitivity (Qred (inject_Z n)); [apply Qred_complete | apply Qred_inject_Z].
    destruct (Qcompare_spec (inject_Z n) 0) as [H|H|H]; cbv iota.
    + rewrite Hv.
      assert (Hn0 : n = 0%Z) by (unfold Qeq in H; cbn in H; lia).
      rewrite Hn0. reflexivity.
    + rewrite Hv. change 0 with (inject_Z 0) in H. rewrite <- Zlt_Qlt in H.
      rewrite Z.abs_neq by lia. rewrite inject_Z_opp. ring.
    + rewrite Hv. change 0 with (inject_Z 0) in H. rewrite <- Zlt_Qlt in H.
      rewrite Z.abs_eq by lia. reflexivity.
  - intros q Hq. rewrite binary64_unfold.
    rewrite (pow2_inject 1024) in Hq by lia.
    rewrite sign_nonneg by lra.
    assert (Hv : 2 ^ 1024 <= nearest (Qabs (Qred q))).
    { rewrite <- nearest_2_1024. apply nearest_mono.
      - rewrite pow2_inject by lia. lra.
      - rewrite Qred_correct, Qabs_pos, pow2_inject by (try lia; lra). exact Hq. }
    apply Qle_bool_iff in Hv. rewrite Hv. reflexivity.
  - intros q Hq. rewrite binary64_unfold.
    rewrite (pow2_inject 1024) in Hq by lia.
    rewrite sign_neg by lra.
    assert (Hv : 2 ^ 1024 <= nearest (Qabs (Qred q))).
    { rewrite <- nearest_2_1024. apply nearest_mono.
      - rewrite pow2_inject by lia. lra.
      - rewrite Qred_correct, Qabs_neg, pow2_inject by (try lia; lra). lra. }
    apply Qle_bool_iff in Hv. rewrite Hv. reflexivity.
Qed.

Section WithRounding.
Context {R : Rounding} (HR : Binary64 R).


Lemma round_mono p q : p <= q -> leb (round p) (round q) = true.
Proof. apply HR. Qed.

Lemma round_exact n :
  (Z.abs n <= 2 ^ 53)%Z -> round (inject_Z n) = Finite (inject_Z n).
Proof. apply HR. Qed.

Lemma round_ge n q :
  (Z.abs n <= 2 ^ 53)%Z -> inject_Z n <= q ->
  leb (Finite (inject_Z n)) (round q) = true.
Proof.
  intros Hn Hq. rewrite <- (round_exact n Hn). apply round_mono, Hq.
Qed.

Lemma round_le n q :
  (Z.abs n <= 2 ^ 53)%Z -> q <= inject_Z n ->
  leb (round q) (Finite (inject_Z n)) = true.
Proof.
  intros Hn Hq. rewrite <- (round_exact n Hn). apply round_mono, Hq.
Qed.







(** The jitter [Math.random() * 1000]. *)
Lemma jitter_bounds rnd :
  0 <= rnd < 1 ->
  exists j, mul (Finite rnd) (Finite 1000) = Finite j /\ 0 <= j <= 1000.
Proof.
  intros Hr. cbn [mul].
  pose proof (round_ge 0 (rnd * 1000) ltac:(lia)) as Hlo.
  pose proof (round_le 1000 (rnd * 1000) ltac:(lia)) as Hhi.
  change (inject_Z 0) with 0 in Hlo. change (inject_Z 1000) with 1000 in Hhi.
  specialize (Hlo ltac:(lra)). specialize (Hhi ltac:(lra)).
  apply leb_from_Finite in Hlo as [Hinf|(j & Hj & Hj0)].
  - rewrite Hinf in Hhi. discriminate.
  - rewrite Hj in Hhi |- *. apply leb_Finite in Hhi. eauto.
Qed.


End WithRounding.



End BackoffManagerFacts.

(** ** [VaporBooster]: who counts as active *)

Module VaporBoosterFacts.
Import VaporBooster.

Lemma has_steamID_spec data :
  has_steamID data = true <->
  exists c id, client data = Some c /\ steamID c = Some id.
Proof.
  unfold has_steamID. destruct (client data) as [c|].
  - rewrite bool_decide_eq_true. split.
    + intros [id Hid]. eauto.
    + intros (c' & id & [= <-] & Hid). eauto.
  - split; [discriminate | intros (c & id & [=] & _)].
Qed.

(** The sidebar marks a session online exactly when it is active in the
    sense of the specification. *)
Lemma isOnline_spec this name data :
  isOnline this name data = true <-> is_active this name data.
Proof.
  unfold isOnline, is_active.
  rewrite andb_true_iff, bool_decide_eq_true, has_steamID_spec. tauto.
Qed.

(** The boosting panel lists exactly the stored sessions that are active
    in the sense of the specification. *)
Lemma showBoostingPanel_spec this data :
  In data (showBoostingPanel_activeClients this) <->
  In data (map snd (clients this)) /\
  is_active this (account_username data) data.
Proof.
  unfold showBoostingPanel_activeClients, is_active.
  rewrite List.filter_In, andb_true_iff, bool_decide_eq_true, has_steamID_spec.
  tauto.
Qed.

(** C1: every count or report of active sessions should ask both for the
    lifecycle state [active] and for a live [steamID].  The sidebar and
    the boosting panel do; the count in the main menu looks at the
    lifecycle state alone, and so counts the stale session that the other
    two leave out. *)
Theorem showMenu_counts_stale_session :
  showMenu_activeCount stale = 1%nat /\
  showBoostingPanel_activeClients stale = [] /\
  getSidebarInfo stale = [("alice", false)].
Proof. vm_compute. repeat split. Qed.

End VaporBoosterFacts.

(** ** Settings: [validateSettings] and the settings menu *)

Module SettingsFacts.
Import Validator ConfigManager VaporBooster.

Lemma lookup_set_prop k v ps : lookup_prop k (set_prop k v ps) = v.
Proof.
  induction ps as [|[k' v'] ps IH]; cbn.
  - rewrite String.eqb_refl. reflexivity.
  - destruct (String.eqb k k') eqn:Hk; cbn; rewrite ?String.eqb_refl, ?Hk; auto.
Qed.



(** From [10^21] on, a number is read by its first digit: such a number of
    reconnection attempts passes for 1. *)
Example validateSettings_reads_first_digit :
  validateSettings (JObj [("maxReconnectAttempts", JNum (10 ^ 21))])
  = (true, []).
Proof. vm_compute. reflexivity. Qed.




End SettingsFacts.

(** ** [StateManager] *)

Module StateManagerFacts.
Import StateManager JSFacts.

Lemma tempPath_neq_statePath this : tempPath this <> statePath this.
Proof.
  unfold tempPath. intros H. apply (f_equal String.length) in H.
  rewrite length_append in H. cbn in H. lia.
Qed.

Section WithJSON.
Context {J : JSON} (this : t).


(** The disk of a process stopped during or after the write is the disk
    that a failed or a completed [fs.writeFileSync] leaves. *)
Lemma disk_at_writeFileSync timestamp state d :
  (forall n,
     disk_at this (DuringWrite n) timestamp state d
     = snd (writeFileSync (WriteFails (Some n)) (tempPath this)
              (stringify (snapshot timestamp state)) d)) /\
  disk_at this BeforeRename timestamp state d
  = snd (writeFileSync WriteOk (tempPath this)
           (stringify (snapshot timestamp state)) d).
Proof. split; reflexivity. Qed.


End WithJSON.
End StateManagerFacts.

(** ** [CryptoManager]: round trips *)

Module CryptoRoundTrips.
Import CryptoManager JSFacts CryptoFacts ToyCrypto.

Section WithCrypto.
Context {C : Crypto} (this : t).

(** [encrypt] without a password, when the cipher takes the key and the
    IV drawn. *)
Lemma encrypt_master_ok p k :
  truthy p = true ->
  cipheriv_ok (encryptionKey this) (random_tape k IV_LENGTH) = true ->
  encrypt this p None k
  = (Ok (envelope3 this (random_tape k IV_LENGTH)
           (gcm_cipher (encryptionKey this) (random_tape k IV_LENGTH)
              (utf8_encode p))), S k).
Proof.
  intros Hp Hok. unfold encrypt. rewrite Hp. cbn [negb truthy_opt].
  unfold rbind, ret, randomBytes, lift. rewrite Hok. reflexivity.
Qed.

(** [decrypt] leaves the empty string alone, and [encrypt] too. *)
Lemma encrypt_decrypt_empty k pw :
  encrypt this "" None k = (Ok "", k) /\ decrypt this "" pw = Ok "".
Proof. split; reflexivity. Qed.

(** Under the master key [decrypt] gives back what [encrypt] was given,
    empty or not. *)
Lemma encrypt_decrypt_any p k env k' :
  GcmCorrect C ->
  encrypt this p None k = (Ok env, k') ->
  decrypt this env None = Ok p /\ truthy env = truthy p.
Proof.
  intros Hgcm Henc. destruct (truthy p) eqn:Hp.
  - split; [apply (encrypt_decrypt_master this p k env k' Hgcm Hp Henc)|].
    destruct (encrypt_master_returns this p k env k' Hp Henc) as (_ & -> & _).
    apply truthy_envelope.
  - destruct p; [|discriminate]. cbn in Henc. injection Henc as <- _.
    split; reflexivity.
Qed.

(** X1: with the master key in use and a key and IV the cipher takes,
    [encrypt] of a non-empty text returns an envelope, one draw later,
    that is marked by a colon, differs from the text, and that [decrypt]
    turns back into the text, whatever password is passed along. *)
Theorem master_key_round_trip p k pw :
  GcmCorrect C -> GcmLength C ->
  truthy p = true ->
  cipheriv_ok (encryptionKey this) (random_tape k IV_LENGTH) = true ->
  exists env,
    encrypt this p None k = (Ok env, S k) /\
    includes ":" env = true /\
    env <> p /\
    decrypt this env pw = Ok p.
Proof.
  intros Hgcm Hlen Hp Hok. eexists. split; [apply encrypt_master_ok; assumption|].
  split; [apply includes_envelope|]. split.
  - intros Heq. apply (f_equal String.length) in Heq.
    unfold envelope3 in Heq.
    rewrite !length_append, !length_toString_hex, Hlen, length_utf8_encode in Heq.
    simpl in Heq. lia.
  - unfold envelope3. rewrite decrypt_envelope3, Hok.
    destruct (Hgcm _ _ (utf8_encode p) Hok) as (Hdec & Htag & Hver).
    rewrite Htag, Hver, Hdec, utf8_roundtrip. reflexivity.
Qed.

(** X2: what [encryptAccount] returns, [decryptAccount] turns back into
    the record it was given, with the marker cleared: both secrets are
    recovered, an empty one included. *)
Theorem account_round_trip a k a' k' :
  GcmCorrect C ->
  encryptAccount this (Some a) k = (Ok (Some a'), k') ->
  _encrypted a' = Some true /\
  decryptAccount this (Some a')
  = Ok (Some {| username := username a; password := password a;
                sharedSecret := sharedSecret a; _encrypted := Some false |}).
Proof.
  intros Hgcm. unfold encryptAccount, rbind.
  destruct (encrypt this (password a) None k) as [[pw1|e] k1] eqn:Hpw;
    [|discriminate].
  destruct (truthy (sharedSecret a)) eqn:Hss.
  - destruct (encrypt this (sharedSecret a) None k1) as [[ss1|e] k2] eqn:Henc;
      [|discriminate].
    unfold ret. intros [= <- <-]. split; [reflexivity|].
    destruct (encrypt_decrypt_any _ _ _ _ Hgcm Hpw) as (Hd1 & _).
    destruct (encrypt_decrypt_any _ _ _ _ Hgcm Henc) as (Hd2 & Ht2).
    unfold decryptAccount. cbn. rewrite Hd1. cbn. rewrite Ht2, Hss, Hd2.
    reflexivity.
  - unfold ret. intros [= <- <-]. split; [reflexivity|].
    destruct (encrypt_decrypt_any _ _ _ _ Hgcm Hpw) as (Hd1 & _).
    unfold decryptAccount. cbn. rewrite Hd1. cbn.
    destruct (sharedSecret a); [reflexivity | discriminate].
Qed.

End WithCrypto.

(** X1 on the executable instance. *)
Lemma master_key_round_trip_witness :
  exists env,
    encrypt master "hi" None 0%nat = (Ok env, 1%nat) /\
    includes ":" env = true /\
    env <> "hi" /\
    decrypt master env (Some "pw") = Ok "hi".
Proof.
  apply (master_key_round_trip master "hi" 0%nat (Some "pw")
           toy_correct toy_length eq_refl eq_refl).
Defined.

(** X2 on the executable instance. *)
Lemma account_round_trip_witness :
  exists a',
    fst (encryptAccount master (Some plain) 0%nat) = Ok (Some a') /\
    decryptAccount master (Some a')
    = Ok (Some {| username := "bob"; password := "hunter2";
                  sharedSecret := "JBSWY3DP"; _encrypted := Some false |}).
Proof.
  eexists. split; [vm_compute; reflexivity|].
  apply (account_round_trip master plain 0%nat _ 2%nat toy_correct).
  vm_compute. reflexivity.
Defined.

Section WithHash.
Context {C : Crypto} {H : PasswordHash}.

Lemma toString_hex_inj b1 b2 : toString_hex b1 = toString_hex b2 -> b1 = b2.
Proof.
  intros Heq. rewrite <- (Buffer_from_toString_hex b1), Heq.
  apply Buffer_from_toString_hex.
Qed.

(** X3: a hash made by [hashPassword] has the form [salt:hash]; against
    it [verifyPassword] accepts the password it was made from, and accepts
    another password exactly when that one derives the same hash under the
    stored salt. *)
Theorem hashPassword_verifyPassword password k :
  let hashed := fst (hashPassword password k) in
  let salt := toString_hex (random_tape k 16) in
  hashed = Ok (salt ++ ":" ++ toString_hex (pbkdf2_sha512 password salt)) /\
  (forall stored, hashed = Ok stored ->
     verifyPassword password stored = true /\
     forall other,
       verifyPassword other stored = true <->
       pbkdf2_sha512 other salt = pbkdf2_sha512 password salt).
Proof.
  cbv zeta. split; [reflexivity|].
  intros stored [= <-].
  assert (Hv : forall other,
            verifyPassword other
              (toString_hex (random_tape k 16) ++ ":"
                 ++ toString_hex (pbkdf2_sha512 password
                                    (toString_hex (random_tape k 16))))
            = String.eqb
                (toString_hex (pbkdf2_sha512 password
                                 (toString_hex (random_tape k 16))))
                (toString_hex (pbkdf2_sha512 other
                                 (toString_hex (random_tape k 16))))).
  { intros other. unfold verifyPassword.
    rewrite append_cons, append_nil.
    rewrite split_app_sep by apply toString_hex_no_colon.
    rewrite split_no_sep by apply toString_hex_no_colon. reflexivity. }
  split.
  - rewrite Hv. apply String.eqb_refl.
  - intros other. rewrite Hv, String.eqb_eq. split.
    + intros Heq. symmetry. apply toString_hex_inj, Heq.
    + intros ->. reflexivity.
Qed.

(** A stored value without a colon has no hash part and verifies no
    password. *)
Lemma verifyPassword_malformed password stored :
  includes ":" stored = false -> verifyPassword password stored = false.
Proof.
  intros Hs. unfold verifyPassword. rewrite split_no_sep by exact Hs.
  reflexivity.
Qed.

End WithHash.
End CryptoRoundTrips.

(** ** [RateLimiter]: usage and progress *)

Module RateLimiterUsage.
Import RateLimiter RateLimiterFacts.

Lemma apply_limits o l :
  maxRequests (apply o l) = maxRequests l /\
  intervalMs (apply o l) = intervalMs l.
Proof.
  destruct o; unfold apply; try (split; reflexivity).
  apply check_limits.
Qed.

(** No operation leaves more than [maxRequests] timestamps stored. *)
Lemma apply_bounded o l :
  0 <= maxRequests l ->
  Z.of_nat (length (requests l)) <= maxRequests l ->
  Z.of_nat (length (requests (apply o l))) <= maxRequests l.
Proof.
  intros Hmax Hl.
  destruct o as [now now'|now|now|]; unfold apply.
  - destruct (check_spec now now' l) as (Hok & Hreq). cbv zeta in Hok, Hreq.
    rewrite Hreq, length_app. destruct (fst (check now now' l)); cbn [length].
    + symmetry in Hok. apply Z.ltb_lt in Hok. lia.
    + pose proof (length_filter_le (young l now) (requests l)). lia.
  - cbn. pose proof (length_filter_le (young l now) (requests l)). lia.
  - cbn. pose proof (length_filter_le (young l now) (requests l)). lia.
  - cbn. exact Hmax.
Qed.

Lemma run_bounded ops :
  forall l,
    0 <= maxRequests l ->
    Z.of_nat (length (requests l)) <= maxRequests l ->
    let l' := fold_left (fun l o => apply o l) ops l in
    maxRequests l' = maxRequests l /\
    Z.of_nat (length (requests l')) <= maxRequests l.
Proof.
  induction ops as [|o ops IH]; intros l Hmax Hl; cbn.
  - split; [reflexivity | exact Hl].
  - destruct (apply_limits o l) as (Hm & _).
    destruct (IH (apply o l)) as (Hm' & Hl').
    + rewrite Hm. exact Hmax.
    + rewrite Hm. apply apply_bounded; assumption.
    + split; [rewrite Hm', Hm; reflexivity | rewrite <- Hm; exact Hl'].
Qed.

(** X4: whatever is done with a limiter, in whatever order and on
    whatever clock, it never stores more than [maxRequests] timestamps:
    [getStats] reports a [current] between 0 and [max] and, for a positive
    [max], a [percentage] of at most 100. *)
Theorem getStats_within_limit maxR W ops now :
  0 < maxR ->
  let l := fold_left (fun l o => apply o l) ops (create maxR W) in
  let s := fst (getStats now l) in
  max s = maxR /\
  0 <= current s <= max s /\
  (percentage s <= 100)%Q.
Proof.
  intros Hmax l s.
  destruct (run_bounded ops (create maxR W)) as (Hm & Hl); [cbn; lia | cbn; lia |].
  fold l in Hm, Hl. cbn in Hm, Hl.
  pose proof (length_filter_le (young l now) (requests l)) as Hf.
  assert (Hcur : 0 <= current s <= maxR).
  { subst s. cbn. lia. }
  assert (Hmaxs : max s = maxR) by (subst s; cbn; exact Hm).
  split; [exact Hmaxs | split; [rewrite Hmaxs; exact Hcur|]].
  subst s. cbn [getStats fst percentage cleanup maxRequests requests].
  cbn in Hcur. rewrite Hm.
  set (n := Z.of_nat (length (List.filter (young l now) (requests l)))) in *.
  assert (Hq : (inject_Z n / inject_Z maxR <= 1)%Q).
  { apply Qle_shift_div_r.
    - replace 0%Q with (inject_Z 0) by reflexivity. rewrite <- Zlt_Qlt. lia.
    - rewrite Qmult_1_l. rewrite <- Zle_Qle. lia. }
  lra.
Qed.

(** X4 on a short run. *)
Lemma getStats_within_limit_witness :
  (percentage (fst (getStats 30
     (fold_left (fun l o => apply o l)
        [Check 0 0; Check 10 10; Check 20 21; GetStats 25]
        (create 2 1000)))) <= 100)%Q.
Proof.
  apply (getStats_within_limit 2 1000
           [Check 0 0; Check 10 10; Check 20 21; GetStats 25] 30).
  lia.
Defined.

Lemma filter_all_false {A} (f : A -> bool) (xs : list A) :
  (forall x, In x xs -> f x = false) -> List.filter f xs = [].
Proof.
  induction xs as [|x xs IH]; cbn; [reflexivity|].
  intros Hall. rewrite (Hall x (or_introl eq_refl)).
  apply IH. intros y Hy. apply Hall. right. exact Hy.
Qed.

Lemma check_requests_from now now' l ts :
  In ts (requests (snd (check now now' l))) ->
  fst (check now now' l) = false ->
  In ts (requests l).
Proof.
  destruct (check_spec now now' l) as (_ & Hreq). cbv zeta in Hreq.
  intros Hin Hno. rewrite Hreq, Hno, app_nil_r in Hin.
  apply List.filter_In in Hin. apply Hin.
Qed.

(** X5: [waitForSlot] does not wait for ever.  With room for at least
    one request, the promise is resolved at the latest by the first run of
    [check] that finds every timestamp stored at the start [intervalMs] old
    or older. *)
Theorem waitForSlot_resolves polls l j now now' :
  0 < maxRequests l ->
  polls !! j = Some (now, now') ->
  (forall ts, In ts (requests l) -> intervalMs l <= now - ts) ->
  exists n, fst (waitForSlot polls l) = Some n /\ (n <= j)%nat.
Proof.
  revert l j. induction polls as [|[t t'] ps IH]; intros l j Hmax Hj Hold.
  - discriminate.
  - cbn [waitForSlot].
    destruct (check t t' l) as [ok l1] eqn:Hcheck.
    destruct ok.
    { exists 0%nat. split; [reflexivity | lia]. }
    destruct j as [|j].
    + exfalso. cbn in Hj. injection Hj as -> ->.
      destruct (check_spec now now' l) as (Hok & _). cbv zeta in Hok.
      rewrite Hcheck in Hok. cbn in Hok.
      rewrite filter_all_false in Hok.
      * cbn in Hok. symmetry in Hok. apply Z.ltb_ge in Hok. lia.
      * intros ts Hts. unfold young. apply Z.ltb_ge. apply Hold, Hts.
    + cbn in Hj.
      destruct (check_limits t t' l) as (Hm & Hi).
      rewrite Hcheck in Hm, Hi. cbn in Hm, Hi.
      destruct (IH l1 j) as (n & Hn & Hle).
      * rewrite Hm. exact Hmax.
      * exact Hj.
      * intros ts Hts. rewrite Hi. apply Hold.
        apply (check_requests_from t t' l).
        -- rewrite Hcheck. exact Hts.
        -- rewrite Hcheck. reflexivity.
      * destruct (waitForSlot ps l1) as [r l2]. cbn in Hn. subst r.
        exists (S n). split; [reflexivity | lia].
Qed.

(** X5 on a full limiter: two requests at 0 and 10; the third caller
    polls at 500, 900 and 1010. *)
Lemma waitForSlot_resolves_witness :
  exists n,
    fst (waitForSlot [(500, 500); (900, 900); (1010, 1011)]
           (fold_left (fun l o => apply o l) [Check 0 0; Check 10 10]
              (create 2 1000))) = Some n /\ (n <= 2)%nat.
Proof.
  apply (waitForSlot_resolves _ _ 2%nat 1010 1011).
  - vm_compute. reflexivity.
  - reflexivity.
  - intros ts Hts. vm_compute in Hts.
    destruct Hts as [<-|[<-|[]]]; vm_compute; discriminate.
Defined.

End RateLimiterUsage.

(** ** [ConcurrencyLimiter]: the queue *)

Module ConcurrencyLimiterQueue.
Import ConcurrencyLimiter ConcurrencyLimiterFacts.

Local Abbreviation being ph := (fun kv : nat * phase => kv.2 = ph).

(** Changing the phase of one call changes the number of calls in a phase
    by one at most. *)
Lemma count_insert (m : gmap nat phase) ph i x :
  let n := size (filter (being ph) m) in
  let n' := size (filter (being ph) (<[i := x]> m)) in
  (x = ph -> m !! i <> Some ph -> n' = S n) /\
  (x <> ph -> m !! i = Some ph -> S n' = n) /\
  (x <> ph -> m !! i <> Some ph -> n' = n) /\
  (n <= S n')%nat.
Proof.
  cbv zeta.
  assert (Hin : x = ph -> m !! i <> Some ph ->
                size (filter (being ph) (<[i := x]> m))
                = S (size (filter (being ph) m))).
  { intros -> Hi. rewrite map_filter_insert_True by reflexivity.
    apply map_size_insert_None. apply map_lookup_filter_None_2.
    destruct (m !! i) as [y|]; [right | left; reflexivity].
    intros z [= <-]. cbn. congruence. }
  assert (Hout : x <> ph -> m !! i = Some ph ->
                 S (size (filter (being ph) (<[i := x]> m)))
                 = size (filter (being ph) m)).
  { intros Hx Hi. rewrite map_filter_insert_False by exact Hx.
    rewrite map_filter_delete.
    assert (Hf : filter (being ph) m !! i = Some ph)
      by (apply map_lookup_filter_Some_2; [exact Hi | reflexivity]).
    rewrite <- (insert_delete_id (filter (being ph) m) i ph Hf) at 2.
    rewrite map_size_insert_None by apply lookup_delete_eq. reflexivity. }
  assert (Hsame : x <> ph -> m !! i <> Some ph ->
                  size (filter (being ph) (<[i := x]> m))
                  = size (filter (being ph) m)).
  { intros Hx Hi. rewrite map_filter_insert_not'; [reflexivity | exact Hx |].
    intros y Hy. cbn. intros ->. congruence. }
  split; [exact Hin | split; [exact Hout | split; [exact Hsame|]]].
  destruct (decide (x = ph)) as [Hx|Hx];
    destruct (decide (m !! i = Some ph)) as [Hi|Hi].
  - subst x. rewrite insert_id by exact Hi. lia.
  - rewrite (Hin Hx Hi). lia.
  - rewrite <- (Hout Hx Hi). lia.
  - rewrite (Hsame Hx Hi). lia.
Qed.

(** The queue is as long as there are suspended calls. *)
Lemma queue_length l :
  consistent l -> length (queue l) = in_phase Waiting l.
Proof.
  intros (_ & _ & Hnd & Hq). unfold in_phase.
  rewrite <- size_dom, <- (size_list_to_set (C := gset nat) (queue l)) by exact Hnd.
  f_equal. apply set_eq. intros j.
  rewrite elem_of_list_to_set, elem_of_dom, Hq. split.
  - intros Hj. exists Waiting. apply map_lookup_filter_Some_2; [exact Hj | reflexivity].
  - intros [ph Hph]. apply map_lookup_filter_Some in Hph as (Hj & Hw).
    cbn in Hw. subst ph. exact Hj.
Qed.

Lemma enter_served i l :
  served l -> served (enter i l).
Proof.
  intros Hs. unfold served, enter, in_phase.
  destruct (running l >=? maxConcurrent l) eqn:Hfull; cbn.
  - intros _. rewrite Z.geb_leb in Hfull. apply Z.leb_le in Hfull. lia.
  - intros Hq. specialize (Hs Hq). unfold in_phase in Hs.
    pose proof (count_insert (calls l) Woken i Running) as (_ & _ & _ & Hle).
    cbv zeta in Hle. lia.
Qed.

Lemma finally_served i threw l :
  consistent l -> calls l !! i = Some Running ->
  served l -> served (finally i threw l).
Proof.
  intros (Hrun & Hmax & Hnd & Hq) Hi Hs. unfold served, finally, in_phase.
  destruct (queue l) as [|r q] eqn:Hqueue; cbn; [congruence|].
  intros _.
  assert (Hr : calls l !! r = Some Waiting) by (apply Hq; left).
  assert (Hri : r <> i) by congruence.
  unfold served in Hs. rewrite Hqueue in Hs.
  specialize (Hs ltac:(discriminate)). unfold in_phase in Hs.
  pose proof (count_insert (calls l) Woken r Woken) as (Hin & _).
  cbv zeta in Hin. specialize (Hin eq_refl ltac:(congruence)).
  pose proof (count_insert (<[r := Woken]> (calls l)) Woken i
                (if threw then Threw else Returned)) as (_ & _ & Hsame & _).
  cbv zeta in Hsame. rewrite Hsame, Hin.
  - lia.
  - destruct threw; discriminate.
  - rewrite lookup_insert_ne by exact Hri. congruence.
Qed.

Lemma run_served es :
  forall l l', consistent l -> served l -> run es l = Some l' -> served l'.
Proof.
  induction es as [|e es IH]; intros l l' Hl Hs; cbn.
  - intros [= <-]. exact Hs.
  - destruct (step e l) as [l1|] eqn:Hstep; [|discriminate].
    apply (IH l1 l' (step_consistent e l l1 Hl Hstep)).
    destruct e as [i|i|i threw]; cbn in Hstep.
    + destruct (calls l !! i); [discriminate|]. injection Hstep as <-.
      apply enter_served, Hs.
    + destruct (calls l !! i) as [[]|]; try discriminate.
      injection Hstep as <-. apply enter_served, Hs.
    + destruct (calls l !! i) as [[]|] eqn:Hi; try discriminate.
      injection Hstep as <-. apply finally_served; assumption.
Qed.

(** X6: after any interleaving of calls, what [getStats] reports is
    exact: [running] is the number of calls that hold a slot, [queued] the
    number of calls suspended in the loop, and [running] lies between 0 and
    [max]. *)
Theorem getStats_exact max es l :
  0 <= max ->
  run es (create max) = Some l ->
  stats_max (getStats l) = max /\
  stats_running (getStats l) = Z.of_nat (in_phase Running l) /\
  stats_queued (getStats l) = Z.of_nat (in_phase Waiting l) /\
  0 <= stats_running (getStats l) <= max.
Proof.
  intros Hmax Hrun.
  destruct (run_consistent es _ _ (create_consistent max Hmax) Hrun)
    as (Hl & Hm).
  cbn in Hm. pose proof (queue_length l Hl) as Hq.
  destruct Hl as (Hr & Hle & _). unfold holders in Hr. unfold getStats, in_phase.
  cbn. unfold in_phase in Hq. rewrite Hq.
  split; [exact Hm | split; [exact Hr | split; [reflexivity | lia]]].
Qed.

(** X6 on the demonstration run, stopped after the three calls. *)
Lemma getStats_exact_witness :
  match run (firstn 3 demo) (create 1) with
  | Some l => stats_queued (getStats l) = Z.of_nat (in_phase Waiting l)
  | None => False
  end.
Proof.
  destruct (run (firstn 3 demo) (create 1)) as [l|] eqn:Hrun.
  - apply (getStats_exact 1 (firstn 3 demo) l); [lia | exact Hrun].
  - vm_compute in Hrun. discriminate.
Defined.

(** X7: no waiter is left behind.  After any interleaving of calls, if
    the queue is not empty then every free slot is matched by a call that
    has been woken and will run its loop again; in particular a slot is
    never idle while calls wait and none is on its way. *)
Theorem waiters_are_served max es l :
  0 <= max ->
  run es (create max) = Some l ->
  queue l <> [] ->
  max - running l <= Z.of_nat (in_phase Woken l) /\
  (in_phase Woken l = 0%nat -> running l = max).
Proof.
  intros Hmax Hrun Hq.
  destruct (run_consistent es _ _ (create_consistent max Hmax) Hrun)
    as (Hl & Hm).
  cbn in Hm.
  assert (Hs : served l).
  { apply (run_served es (create max) l); [apply create_consistent, Hmax | | exact Hrun].
    intros H. cbn in H. congruence. }
  specialize (Hs Hq). rewrite Hm in Hs. split; [exact Hs|].
  intros H0. destruct Hl as (_ & Hle & _). rewrite Hm in Hle. lia.
Qed.

(** X7 on the demonstration run, stopped when the first call has thrown. *)
Lemma waiters_are_served_witness :
  match run (firstn 4 demo) (create 1) with
  | Some l => 1 - running l <= Z.of_nat (in_phase Woken l)
  | None => False
  end.
Proof.
  destruct (run (firstn 4 demo) (create 1)) as [l|] eqn:Hrun.
  - apply (waiters_are_served 1 (firstn 4 demo) l); [lia | exact Hrun |].
    vm_compute in Hrun. injection Hrun as <-. discriminate.
  - vm_compute in Hrun. discriminate.
Defined.

End ConcurrencyLimiterQueue.

(** ** [BackoffManager]: keys and bounds *)

Module BackoffManagerKeys.
Import Number BackoffManager BackoffManagerFacts.
Local Open Scope Q_scope.

Lemma getAttempts_recordFailure_ne key key' b :
  key <> key' -> getAttempts key' (recordFailure key b) = getAttempts key' b.
Proof.
  intros Hne. unfold getAttempts, recordFailure. cbn.
  rewrite lookup_insert_ne by exact Hne. reflexivity.
Qed.

Lemma getAttempts_reset_ne key key' b :
  key <> key' -> getAttempts key' (reset key b) = getAttempts key' b.
Proof.
  intros Hne. unfold getAttempts, reset. cbn.
  rewrite lookup_delete_ne by exact Hne. reflexivity.
Qed.

Lemma getAttempts_failures key n b :
  getAttempts key (Nat.iter n (recordFailure key) b)
  = (n + getAttempts key b)%nat.
Proof.
  induction n as [|n IH]; [reflexivity|].
  rewrite Nat.iter_succ, getAttempts_recordFailure, IH. reflexivity.
Qed.

Section WithRounding.
Context {R : Rounding}.

(** X8: the attempts of a key count its failures since the last reset,
    and keys do not touch each other: a failure or a reset recorded for one
    key leaves the attempts and the delay of every other key as they
    were. *)
Theorem backoff_keys_independent key key' rnd n b :
  key <> key' ->
  getAttempts key (Nat.iter n (recordFailure key) (reset key b)) = n /\
  getAttempts key' (Nat.iter n (recordFailure key) b) = getAttempts key' b /\
  getDelay rnd key' (recordFailure key b) = getDelay rnd key' b /\
  getDelay rnd key' (reset key b) = getDelay rnd key' b.
Proof.
  intros Hne. split; [|split; [|split]].
  - rewrite getAttempts_failures, getAttempts_reset. lia.
  - induction n as [|n IH]; [reflexivity|].
    rewrite Nat.iter_succ, getAttempts_recordFailure_ne by exact Hne. exact IH.
  - unfold getDelay. rewrite getAttempts_recordFailure_ne by exact Hne.
    reflexivity.
  - unfold getDelay. rewrite getAttempts_reset_ne by exact Hne. reflexivity.
Qed.

Context (HR : Binary64 R).

Lemma round_not_NaN q : round q <> NaN.
Proof.
  intros H. pose proof (round_mono HR q q ltac:(lra)) as Hle.
  rewrite H in Hle. discriminate.
Qed.

Lemma leb_round_refl q : leb (round q) (round q) = true.
Proof. apply (round_mono HR). lra. Qed.

(** The smaller of two numbers is a number, and not above the second. *)
Lemma Math_min_le x max :
  x <> NaN -> leb (Math_min x (Finite max)) (Finite max) = true.
Proof.
  intros Hx. destruct x as [|[]|q]; [congruence | reflexivity | |].
  - cbn. apply Qle_bool_iff. lra.
  - cbn. destruct (Qle_bool q max) eqn:H; cbn; [exact H|].
    apply Qle_bool_iff. lra.
Qed.

Lemma Math_min_ge x max :
  leb (Finite 0) x = true -> 0 <= max ->
  leb (Finite 0) (Math_min x (Finite max)) = true.
Proof.
  intros Hx Hmax. apply leb_from_Finite in Hx as [->|(q & -> & Hq)].
  - cbn. apply Qle_bool_iff, Hmax.
  - cbn. destruct (Qle_bool q max); cbn; apply Qle_bool_iff; assumption.
Qed.

(** X9: however many failures were recorded, the delay of a manager with
    finite settings is [NaN], which happens only when the product of the
    base delay and the power is, or it is at most what [maxDelay + 1000]
    rounds to; the bound is not strict, since the sum with the jitter is
    rounded.  With a base delay above 0, a multiplier and a ceiling that
    are not negative, the delay is a number from 0 to that bound. *)
Theorem getDelay_bounded base max mult rnd key b :
  baseDelay b = Finite base ->
  maxDelay b = Finite max ->
  multiplier b = Finite mult ->
  0 <= rnd < 1 ->
  (getDelay rnd key b = NaN
   /\ mul (baseDelay b) (Math_pow (multiplier b) (getAttempts key b)) = NaN
   \/ leb (getDelay rnd key b) (round (max + 1000)) = true) /\
  (0 < base -> 0 <= mult -> 0 <= max ->
   leb (Finite 0) (getDelay rnd key b) = true /\
   leb (getDelay rnd key b) (round (max + 1000)) = true).
Proof.
  intros Hb Hmax Hmult Hr.
  destruct (jitter_bounds HR rnd Hr) as (j & Hj & Hj0).
  assert (Hsum : forall x,
            x <> NaN ->
            leb (add (Math_min x (Finite max)) (Finite j)) (round (max + 1000))
            = true).
  { intros x Hx. pose proof (Math_min_le x max Hx) as Hle.
    apply leb_to_Finite in Hle as [->|(d & -> & Hd)].
    - cbn. destruct (round (max + 1000)) eqn:Hrnd;
        [destruct (round_not_NaN _ Hrnd) | reflexivity | reflexivity].
    - cbn [add]. apply (round_mono HR). lra. }
  unfold getDelay, delay_at. rewrite Hj, Hmax.
  set (x := mul (baseDelay b) (Math_pow (multiplier b) (getAttempts key b))).
  split.
  - destruct x eqn:Hx; [left; split; reflexivity | right | right];
      apply Hsum; discriminate.
  - intros Hbase Hmu Hceil.
    assert (Hx : leb (Finite 0) x = true).
    { subst x. rewrite Hb, Hmult.
      assert (Hp : leb (Finite 0)
                     (Math_pow (Finite mult) (getAttempts key b)) = true).
      { destruct (getAttempts key b) as [|k]; [reflexivity|]. cbn [Math_pow].
        apply (round_ge HR 0); [lia|]. apply (power_nonneg mult (S k) Hmu). }
      apply leb_from_Finite in Hp as [->|(p & -> & Hp)].
      - cbn [mul]. destruct (Qcompare_spec base 0) as [H|H|H];
          [rewrite H in Hbase; lra | lra | reflexivity].
      - cbn [mul]. apply (round_ge HR 0); [lia|].
        change (inject_Z 0) with 0. nra. }
    split; [|apply Hsum; intros H; rewrite H in Hx; discriminate].
    pose proof (Math_min_ge x max Hx Hceil) as Hlo.
    apply leb_from_Finite in Hlo as [->|(d & -> & Hd)]; [reflexivity|].
    cbn [add]. apply (round_ge HR 0); [lia|]. change (inject_Z 0) with 0. lra.
Qed.

End WithRounding.

(** X8 for two sessions. *)
Lemma backoff_keys_independent_witness :
  getAttempts "alice"
    (Nat.iter 3 (recordFailure "alice") (reset "alice" (create 1000 60000 2)))
  = 3%nat /\
  getAttempts "bob" (Nat.iter 3 (recordFailure "alice") (create 1000 60000 2))
  = 0%nat.
Proof.
  pose proof (backoff_keys_independent (R := binary64) "alice" "bob" 0 3
                (create 1000 60000 2)) as H.
  destruct H as (H1 & H2 & _); [discriminate|].
  split; [exact H1 | exact H2].
Defined.

(** X9 after ten failures with the default configuration. *)
Lemma getDelay_bounded_witness :
  leb (Finite 0)
    (getDelay (R := binary64) (1 # 2) "alice"
       (Nat.iter 10 (recordFailure "alice") (create 1000 60000 2))) = true /\
  leb (getDelay (R := binary64) (1 # 2) "alice"
         (Nat.iter 10 (recordFailure "alice") (create 1000 60000 2)))
    (Finite 61000) = true.
Proof.
  apply (getDelay_bounded (R := binary64) binary64_Binary64
           1000 60000 2 (1 # 2) "alice"
           (Nat.iter 10 (recordFailure "alice") (create 1000 60000 2)));
    try reflexivity; lra.
Defined.

(** The bound is reached: with the default configuration, ten failures
    and the largest value that [Math.random] returns, the sum rounds to
    61000 itself. *)
Example getDelay_reaches_bound :
  getDelay (R := binary64) (1 - (1 # 9007199254740992)) "alice"
    (Nat.iter 10 (recordFailure "alice") (create 1000 60000 2))
  = Finite 61000.
Proof. vm_compute. reflexivity. Qed.

End BackoffManagerKeys.

(** ** Input validator: [sanitizeObject] *)

Module SanitizeFacts.
Import Validator.

(** Induction on a value, with the hypothesis for every element of an
    array and every property of an object. *)
Section Induction.
Variable P : jsval -> Prop.
Hypothesis Hundefined : P JUndefined.
Hypothesis Hnull : P JNull.
Hypothesis Hbool : forall b, P (JBool b).
Hypothesis Hnum : forall n, P (JNum n).
Hypothesis Hstr : forall s, P (JStr s).
Hypothesis Harr : forall items, Forall P items -> P (JArr items).
Hypothesis Hobj :
  forall props, Forall (fun kv => P kv.2) props -> P (JObj props).

Fixpoint jsval_nested_ind (v : jsval) : P v :=
  match v with
  | JUndefined => Hundefined
  | JNull => Hnull
  | JBool b => Hbool b
  | JNum n => Hnum n
  | JStr s => Hstr s
  | JArr items =>
      Harr items
        ((fix each (xs : list jsval) : Forall P xs :=
            match xs with
            | [] => @List.Forall_nil _ P
            | x :: r => @List.Forall_cons _ P x r (jsval_nested_ind x) (each r)
            end) items)
  | JObj props =>
      Hobj props
        ((fix each (ps : list (string * jsval))
            : Forall (fun kv => P kv.2) ps :=
            match ps with
            | [] => @List.Forall_nil _ (fun kv => P kv.2)
            | (k, x) :: r =>
                @List.Forall_cons _ (fun kv => P kv.2) (k, x) r
                  (jsval_nested_ind x) (each r)
            end) props)
  end.
End Induction.

Lemma sanitizeObject_JObj props :
  sanitizeObject (JObj props) = JObj (sanitize_props props).
Proof.
  cbn -[dangerous]. f_equal. unfold sanitize_props.
  induction props as [|[k v] ps IH]; cbn -[dangerous]; [reflexivity|].
  destruct (dangerous k); cbn -[dangerous]; rewrite IH; reflexivity.
Qed.

Lemma sanitizeObject_JArr items :
  sanitizeObject (JArr items) = JObj (indexed sanitizeObject 0 items).
Proof.
  cbn. f_equal. generalize 0%nat.
  induction items as [|x xs IH]; intros i; cbn; [reflexivity|].
  rewrite IH. reflexivity.
Qed.

Lemma pretty_N_char_digit x : is_digit (pretty_N_char x) = true.
Proof.
  unfold pretty_N_char. repeat case_match; reflexivity.
Qed.

Lemma pretty_N_go_digits x : forall s,
  all_chars is_digit s = true -> all_chars is_digit (pretty_N_go x s) = true.
Proof.
  induction (N.lt_wf_0 x) as [x _ IH]; intros s Hs.
  destruct (decide (x = 0)%N) as [->|Hx].
  - rewrite pretty_N_go_0. exact Hs.
  - rewrite pretty_N_go_step by lia. apply IH.
    + apply N.div_lt; lia.
    + cbn. rewrite pretty_N_char_digit, Hs. reflexivity.
Qed.

Lemma pretty_nat_digits (i : nat) : all_chars is_digit (pretty i) = true.
Proof.
  unfold pretty, pretty_nat, pretty, pretty_N.
  destruct (decide (N.of_nat i = 0%N)); [reflexivity|].
  apply pretty_N_go_digits. reflexivity.
Qed.

(** An array index is not a dangerous key. *)
Lemma dangerous_pretty (i : nat) : dangerous (pretty i) = false.
Proof.
  pose proof (pretty_nat_digits i) as Hd.
  destruct (dangerous (pretty i)) eqn:Hk; [|reflexivity].
  unfold dangerous, dangerousKeys in Hk. cbn in Hk.
  rewrite !orb_true_iff, !String.eqb_eq in Hk.
  destruct Hk as [Hk|[Hk|[Hk|Hk]]]; try discriminate;
    rewrite Hk in Hd; discriminate.
Qed.

Lemma clean_JObj props :
  clean (JObj props)
  = forallb (fun kv => negb (dangerous kv.1) && clean kv.2) props.
Proof.
  cbn -[dangerous]. induction props as [|[k v] ps IH]; cbn -[dangerous];
    [reflexivity|].
  rewrite IH. reflexivity.
Qed.

Lemma sanitize_props_cons k v ps :
  sanitize_props ((k, v) :: ps)
  = if dangerous k then sanitize_props ps
    else (k, sanitizeObject v) :: sanitize_props ps.
Proof. unfold sanitize_props. cbn -[dangerous]. destruct (dangerous k); reflexivity. Qed.

Lemma indexed_cons {A} (f : A -> jsval) i x xs :
  indexed f i (x :: xs) = (pretty i, f x) :: indexed f (S i) xs.
Proof. reflexivity. Qed.

Lemma forallb_cons {A} (f : A -> bool) x xs :
  forallb f (x :: xs) = f x && forallb f xs.
Proof. reflexivity. Qed.

Lemma sanitizeObject_clean v : clean (sanitizeObject v) = true.
Proof.
  induction v as [| |b|n|s|items IH|props IH] using jsval_nested_ind;
    try reflexivity.
  - rewrite sanitizeObject_JArr, clean_JObj. generalize 0%nat.
    induction IH as [|x xs Hx _ IHxs]; intros i; [reflexivity|].
    rewrite indexed_cons, forallb_cons. cbn [fst snd].
    rewrite dangerous_pretty, Hx, IHxs. reflexivity.
  - rewrite sanitizeObject_JObj, clean_JObj.
    induction IH as [|[k v] ps Hv _ IHps]; [reflexivity|].
    rewrite sanitize_props_cons.
    destruct (dangerous k) eqn:Hk; [exact IHps|].
    rewrite forallb_cons. cbn [fst snd] in *. rewrite Hk, Hv, IHps. reflexivity.
Qed.

Lemma sanitizeObject_twice v :
  sanitizeObject (sanitizeObject v) = sanitizeObject v.
Proof.
  induction v as [| |b|n|s|items IH|props IH] using jsval_nested_ind;
    try reflexivity.
  - rewrite sanitizeObject_JArr, sanitizeObject_JObj. f_equal.
    generalize 0%nat.
    induction IH as [|x xs Hx _ IHxs]; intros i; [reflexivity|].
    rewrite indexed_cons, sanitize_props_cons, dangerous_pretty, Hx, IHxs.
    reflexivity.
  - rewrite !sanitizeObject_JObj. f_equal.
    induction IH as [|[k v] ps Hv _ IHps]; [reflexivity|].
    rewrite sanitize_props_cons.
    destruct (dangerous k) eqn:Hk; [exact IHps|].
    rewrite sanitize_props_cons, Hk. cbn [snd] in Hv. rewrite Hv, IHps.
    reflexivity.
Qed.

Lemma lookup_sanitize_props k props :
  lookup_prop k (sanitize_props props)
  = if dangerous k then JUndefined else sanitizeObject (lookup_prop k props).
Proof.
  induction props as [|[k' v] ps IH].
  - cbn -[dangerous]. destruct (dangerous k); reflexivity.
  - rewrite sanitize_props_cons.
    destruct (dangerous k') eqn:Hk'; cbn -[dangerous].
    + rewrite IH. destruct (String.eqb k k') eqn:Heq; [|reflexivity].
      apply String.eqb_eq in Heq. subst k'. rewrite Hk'. reflexivity.
    + destruct (String.eqb k k') eqn:Heq; [|exact IH].
      apply String.eqb_eq in Heq. subst k'. rewrite Hk'. reflexivity.
Qed.

Lemma lookup_indexed {A} (f : A -> jsval) (xs : list A) :
  forall o i,
    lookup_prop (pretty (o + i)%nat) (indexed f o xs)
    = default JUndefined (f <$> xs !! i).
Proof.
  induction xs as [|x xs IH]; intros o i; cbn -[dangerous pretty]; [reflexivity|].
  destruct i as [|i].
  - rewrite Nat.add_0_r, String.eqb_refl. reflexivity.
  - destruct (String.eqb (pretty (o + S i)%nat) (pretty o)) eqn:Heq.
    + apply String.eqb_eq in Heq. apply (inj pretty) in Heq. lia.
    + replace (o + S i)%nat with (S o + i)%nat by lia. apply IH.
Qed.

Lemma dangerous_false k :
  dangerous k = false ->
  k <> "__proto__" /\ k <> "constructor" /\ k <> "prototype".
Proof.
  intros Hk. repeat split; intros ->; discriminate Hk.
Qed.

(** X10: whatever it is given, [sanitizeObject] returns a value in which
    no object, at any depth, has a property of its own named [__proto__],
    [constructor] or [prototype]; in particular the returned object itself
    has none.  (What an object inherits under these names from
    [Object.prototype] is not touched.) *)
Theorem sanitizeObject_strips_dangerous_keys v :
  clean (sanitizeObject v) = true /\
  (forall props k,
     sanitizeObject v = JObj props -> In k (map fst props) ->
     k <> "__proto__" /\ k <> "constructor" /\ k <> "prototype").
Proof.
  split; [apply sanitizeObject_clean|].
  intros props k Hv Hin. apply dangerous_false.
  pose proof (sanitizeObject_clean v) as Hc. rewrite Hv, clean_JObj in Hc.
  rewrite forallb_forall in Hc.
  apply in_map_iff in Hin as ((k' & x) & Hk & Hin). cbn in Hk. subst k'.
  apply Hc in Hin. apply andb_prop in Hin as (Hd & _).
  apply negb_true_iff in Hd. exact Hd.
Qed.

(** X11: sanitizing twice is sanitizing once, and a value that is not an
    object is returned as it is. *)
Theorem sanitizeObject_idempotent v :
  sanitizeObject (sanitizeObject v) = sanitizeObject v /\
  (is_object v = false -> sanitizeObject v = v).
Proof.
  split; [apply sanitizeObject_twice|].
  destruct v; try reflexivity; discriminate.
Qed.

(** X12: [sanitizeObject] keeps what is stored under the other keys: a
    property of an object under a key that is not dangerous is found under
    the same key, sanitized; an element of an array is found under its
    index, sanitized. *)
Theorem sanitizeObject_keeps_safe_keys :
  (forall k props,
     dangerous k = false ->
     prop k (sanitizeObject (JObj props))
     = sanitizeObject (prop k (JObj props))) /\
  (forall (i : nat) items,
     prop (pretty i) (sanitizeObject (JArr items))
     = default JUndefined (sanitizeObject <$> items !! i)).
Proof.
  split.
  - intros k props Hk. rewrite sanitizeObject_JObj. cbn [prop].
    rewrite lookup_sanitize_props, Hk. reflexivity.
  - intros i items. rewrite sanitizeObject_JArr. cbn [prop].
    apply (lookup_indexed sanitizeObject items 0 i).
Qed.

End SanitizeFacts.

(** ** Input validator: names, log lines, accounts, environment *)

Module ValidatorFacts.
Import Validator JSFacts.

Lemma all_chars_app p a b :
  all_chars p (a ++ b) = all_chars p a && all_chars p b.
Proof.
  induction a as [|c a IH]; [reflexivity|].
  rewrite append_cons. cbn. rewrite IH. apply andb_assoc.
Qed.

Lemma replace_chars_app f a b :
  replace_chars f (a ++ b) = replace_chars f a ++ replace_chars f b.
Proof.
  induction a as [|c a IH]; [reflexivity|].
  rewrite append_cons. cbn [replace_chars]. rewrite IH, append_assoc.
  reflexivity.
Qed.

(** Replacing twice is replacing once, by the second replacement of the
    first. *)
Lemma replace_chars_compose f g s :
  replace_chars f (replace_chars g s)
  = replace_chars (fun c => replace_chars f (g c)) s.
Proof.
  induction s as [|c s IH]; [reflexivity|].
  cbn [replace_chars]. rewrite replace_chars_app, IH. reflexivity.
Qed.

Lemma replace_chars_ext f g s :
  (forall c, f c = g c) -> replace_chars f s = replace_chars g s.
Proof.
  intros Hfg. induction s as [|c s IH]; [reflexivity|].
  cbn [replace_chars]. rewrite Hfg, IH. reflexivity.
Qed.

(** A replacement that maps each character of a class to itself leaves a
    text of that class alone. *)
Lemma replace_chars_id p f s :
  (forall c, p c = true -> f c = String c EmptyString) ->
  all_chars p s = true -> replace_chars f s = s.
Proof.
  intros Hf. induction s as [|c s IH]; [reflexivity|].
  cbn. intros Hs. apply andb_prop in Hs as (Hc & Hs).
  rewrite (Hf c Hc), (IH Hs). reflexivity.
Qed.

Lemma all_chars_replace p f s :
  (forall c, all_chars p (f c) = true) ->
  all_chars p (replace_chars f s) = true.
Proof.
  intros Hf. induction s as [|c s IH]; [reflexivity|].
  cbn [replace_chars]. rewrite all_chars_app, Hf, IH. reflexivity.
Qed.

Lemma all_chars_weaken (p q : ascii -> bool) s :
  (forall c, p c = true -> q c = true) ->
  all_chars p s = true -> all_chars q s = true.
Proof.
  intros Hpq. induction s as [|c s IH]; [reflexivity|].
  cbn. intros Hs. apply andb_prop in Hs as (Hc & Hs).
  rewrite (Hpq c Hc), (IH Hs). reflexivity.
Qed.

Lemma substring_0_all n s : (String.length s <= n)%nat -> substring 0 n s = s.
Proof.
  revert n. induction s as [|c s IH]; intros [|n] Hn; cbn in *;
    try reflexivity; try lia.
  rewrite IH by lia. reflexivity.
Qed.

Lemma length_substring_0 n s :
  String.length (substring 0 n s) = Nat.min n (String.length s).
Proof.
  revert n. induction s as [|c s IH]; intros [|n]; cbn; try reflexivity.
  rewrite IH. reflexivity.
Qed.

Lemma all_chars_substring_0 p n s :
  all_chars p s = true -> all_chars p (substring 0 n s) = true.
Proof.
  revert n. induction s as [|c s IH]; intros [|n] Hs; cbn in *;
    try reflexivity.
  apply andb_prop in Hs as (Hc & Hs). rewrite Hc, (IH n Hs). reflexivity.
Qed.

Lemma length_replace_chars_1 f s :
  (forall c, String.length (f c) = 1%nat) ->
  String.length (replace_chars f s) = String.length s.
Proof.
  intros Hf. induction s as [|c s IH]; [reflexivity|].
  cbn [replace_chars]. rewrite length_append, Hf, IH. reflexivity.
Qed.

(** A file name that needs no change. *)
Lemma sanitizeFilename_fixed name :
  truthy name = true -> (String.length name <= 255)%nat ->
  all_chars filename_char name = true ->
  sanitizeFilename name = name.
Proof.
  intros Ht Hlen Hok. unfold sanitizeFilename. rewrite Ht. cbn [negb].
  rewrite (replace_chars_id filename_char) by
    (assumption || (intros c Hc; rewrite Hc; reflexivity)).
  apply substring_0_all, Hlen.
Qed.

Lemma sanitizeFilename_safe filename :
  all_chars filename_char (sanitizeFilename filename) = true /\
  (1 <= String.length (sanitizeFilename filename) <= 255)%nat.
Proof.
  unfold sanitizeFilename. destruct (truthy filename) eqn:Ht; cbn [negb].
  - split.
    + apply all_chars_substring_0, all_chars_replace. intros c.
      destruct (filename_char c) eqn:Hc; cbn; [rewrite Hc|]; reflexivity.
    + rewrite length_substring_0, length_replace_chars_1
        by (intros c; destruct (filename_char c); reflexivity).
      destruct filename; [discriminate|]. cbn [String.length]. lia.
  - split; [reflexivity | cbn; lia].
Qed.

(** X13: [sanitizeFilename] always returns a name of 1 to 255 characters
    from [a-zA-Z0-9._-], so one without a path separator; a name that is
    already of this kind is returned unchanged, and so sanitizing twice is
    sanitizing once. *)
Theorem sanitizeFilename_safe_name filename :
  all_chars filename_char (sanitizeFilename filename) = true /\
  (1 <= String.length (sanitizeFilename filename) <= 255)%nat /\
  includes "/" (sanitizeFilename filename) = false /\
  includes "\" (sanitizeFilename filename) = false /\
  sanitizeFilename (sanitizeFilename filename) = sanitizeFilename filename.
Proof.
  destruct (sanitizeFilename_safe filename) as (Hok & Hlen).
  assert (Hno : forall x, filename_char x = false ->
                includes x (sanitizeFilename filename) = false).
  { intros x Hx. revert Hok. generalize (sanitizeFilename filename).
    induction s as [|c s IH]; [reflexivity|].
    cbn. intros Hs. apply andb_prop in Hs as (Hc & Hs).
    destruct (Ascii.eqb c x) eqn:Heq; [|exact (IH Hs)].
    apply Ascii.eqb_eq in Heq. congruence. }
  split; [exact Hok | split; [exact Hlen | split; [|split]]].
  - apply Hno. reflexivity.
  - apply Hno. reflexivity.
  - apply sanitizeFilename_fixed; [|lia | exact Hok].
    destruct (sanitizeFilename filename); [cbn in Hlen; lia | reflexivity].
Qed.

(** X14: a user name that [isValidUsername] accepts has 2 to 64
    characters from [a-zA-Z0-9_-], and [sanitizeFilename] leaves it as it
    is: the name can be used for a file without being changed. *)
Theorem isValidUsername_is_filename username :
  isValidUsername username = true ->
  exists s,
    username = JStr s /\
    (2 <= String.length s <= 64)%nat /\
    all_chars username_char s = true /\
    sanitizeFilename s = s.
Proof.
  destruct username as [| | | |s| |]; try discriminate.
  unfold isValidUsername. intros Hok.
  destruct (truthy s) eqn:Ht; cbn [negb] in Hok; [|discriminate].
  destruct ((String.length s <? 2)%nat || (64 <? String.length s)%nat) eqn:Hl;
    [discriminate|].
  apply orb_false_elim in Hl as (H2 & H64).
  apply Nat.ltb_ge in H2, H64.
  exists s. split; [reflexivity | split; [lia | split; [exact Hok|]]].
  apply sanitizeFilename_fixed; [exact Ht | lia |].
  apply (all_chars_weaken username_char); [|exact Hok].
  intros c. unfold username_char, filename_char.
  rewrite !orb_true_iff. tauto.
Qed.

(** X14 for a name with a digit, a dash and an underscore. *)
Lemma isValidUsername_is_filename_witness :
  exists s,
    JStr "steam_user-01" = JStr s /\
    (2 <= String.length s <= 64)%nat /\
    all_chars username_char s = true /\
    sanitizeFilename s = s.
Proof.
  apply (isValidUsername_is_filename (JStr "steam_user-01")). reflexivity.
Defined.

Lemma sanitizeForLog_by_char str :
  sanitizeForLog str = replace_chars log_char str.
Proof.
  unfold sanitizeForLog, replace_char.
  rewrite !replace_chars_compose. apply replace_chars_ext. intros c.
  destruct c as [[] [] [] [] [] [] [] []]; reflexivity.
Qed.

(** X15: [sanitizeForLog] works character by character: a line feed, a
    carriage return and a tab come out as the two characters [\n], [\r]
    and [\t], every other control character is dropped and every other
    character is kept.  The result has no control character in it, so it
    cannot start a new log line, and a text without control characters is
    returned as it is. *)
Theorem sanitizeForLog_one_line str :
  sanitizeForLog str = replace_chars log_char str /\
  all_chars (fun c => negb (control_char c)) (sanitizeForLog str) = true /\
  includes "010" (sanitizeForLog str) = false /\
  (all_chars (fun c => negb (control_char c)) str = true ->
   sanitizeForLog str = str) /\
  (forall a b, sanitizeForLog (a ++ b) = sanitizeForLog a ++ sanitizeForLog b).
Proof.
  assert (Hclean : all_chars (fun c => negb (control_char c))
                     (sanitizeForLog str) = true).
  { rewrite sanitizeForLog_by_char. apply all_chars_replace. intros c.
    unfold log_char.
    destruct (Ascii.eqb c "010"); [reflexivity|].
    destruct (Ascii.eqb c "013"); [reflexivity|].
    destruct (Ascii.eqb c "009"); [reflexivity|].
    destruct (control_char c) eqn:Hc; cbn; [|rewrite Hc]; reflexivity. }
  split; [apply sanitizeForLog_by_char | split; [exact Hclean | split; [|split]]].
  - revert Hclean. generalize (sanitizeForLog str).
    induction s as [|c s IH]; [reflexivity|].
    cbn. intros Hs. apply andb_prop in Hs as (Hc & Hs).
    destruct (Ascii.eqb c "010") eqn:Heq; [|exact (IH Hs)].
    apply Ascii.eqb_eq in Heq. subst c. discriminate.
  - intros Hs. rewrite sanitizeForLog_by_char.
    apply (replace_chars_id (fun c => negb (control_char c))); [|exact Hs].
    intros c Hc. unfold log_char.
    destruct (Ascii.eqb c "010") eqn:H10;
      [apply Ascii.eqb_eq in H10; subst c; discriminate|].
    destruct (Ascii.eqb c "013") eqn:H13;
      [apply Ascii.eqb_eq in H13; subst c; discriminate|].
    destruct (Ascii.eqb c "009") eqn:H9;
      [apply Ascii.eqb_eq in H9; subst c; discriminate|].
    destruct (control_char c); [discriminate | reflexivity].
  - intros a b. rewrite !sanitizeForLog_by_char. apply replace_chars_app.
Qed.

End ValidatorFacts.

Module AccountFacts.
Import Validator JSFacts.

Lemma games_errors_nil v :
  games_errors v = [] <->
  (truthy_val v = true ->
   exists items, v = JArr items /\
     (exists g, In g items /\ is_number g = true) /\
     (forall g, In g items -> is_number g = true -> isValidGameId g = true)).
Proof.
  unfold games_errors. destruct (truthy_val v) eqn:Ht; [|split; [discriminate | reflexivity]].
  destruct v as [| | | | |items|]; try discriminate Ht;
    try (split; [discriminate | intros H; destruct (H eq_refl) as (? & ? & _); discriminate]).
  split.
  - intros He _. apply app_eq_nil in He as (Hn & Hf).
    exists items. split; [reflexivity | split].
    + destruct (List.filter is_number items) as [|g r] eqn:Hg; [discriminate Hn|].
      exists g. apply List.filter_In. rewrite Hg. left. reflexivity.
    + intros g Hin Hnum.
      destruct (isValidGameId g) eqn:Hv; [reflexivity|].
      assert (Hin' : In (InvalidGameId g)
                (flat_map (fun game => if negb (isValidGameId game)
                                       then [InvalidGameId game] else [])
                   (List.filter is_number items))).
      { apply in_flat_map. exists g. split.
        - apply List.filter_In. split; assumption.
        - rewrite Hv. left. reflexivity. }
      rewrite Hf in Hin'. destruct Hin'.
  - intros H. destruct (H eq_refl) as (items' & Heq & (g & Hin & Hnum) & Hall).
    injection Heq as <-.
    assert (Hg : In g (List.filter is_number items))
      by (apply List.filter_In; split; assumption).
    destruct (List.filter is_number items) as [|g0 r] eqn:Hfil; [destruct Hg|].
    cbn [length Nat.eqb app]. rewrite <- Hfil.
    assert (Hall' : forall x, In x (List.filter is_number items) ->
                    isValidGameId x = true).
    { intros x Hx. apply List.filter_In in Hx as (Hx & Hxn). auto. }
    revert Hall'. generalize (List.filter is_number items).
    induction l as [|x l IH]; [reflexivity|].
    intros Hl. cbn [flat_map]. rewrite (Hl x (or_introl eq_refl)).
    cbn [negb app]. apply IH. intros y Hy. apply Hl. right. exact Hy.
Qed.

Lemma secret_errors_nil v :
  secret_errors v = [] <->
  (truthy_val v = true ->
   exists s, v = JStr s /\
             (length_utf16 s = 0 \/ 10 <= length_utf16 s)%nat).
Proof.
  unfold secret_errors. destruct (truthy_val v) eqn:Ht; [|split; [discriminate | reflexivity]].
  destruct v as [| | | |s| |]; try discriminate Ht;
    try (split; [discriminate | intros H; destruct (H eq_refl) as (? & ? & _); discriminate]).
  destruct (0 <? length_utf16 s)%nat eqn:H0;
    destruct (length_utf16 s <? 10)%nat eqn:Hl; cbn [andb].
  - apply Nat.ltb_lt in H0, Hl.
    split; [discriminate|]. intros H. destruct (H eq_refl) as (s' & Heq & Hlen).
    injection Heq as <-. lia.
  - apply Nat.ltb_ge in Hl.
    split; [|reflexivity]. intros _ _. exists s. split; [reflexivity | lia].
  - apply Nat.ltb_ge in H0.
    split; [|reflexivity]. intros _ _. exists s. split; [reflexivity | lia].
  - apply Nat.ltb_ge in H0.
    split; [|reflexivity]. intros _ _. exists s. split; [reflexivity | lia].
Qed.

Lemma isValidPassword_iff v :
  isValidPassword v = true <->
  exists s, v = JStr s /\ (1 <= length_utf16 s <= 256)%nat.
Proof.
  destruct v as [| | | |s| |];
    try (split; [discriminate | intros (? & ? & _); discriminate]).
  unfold isValidPassword.
  destruct s as [|c s].
  - split; [discriminate|]. intros (s' & Heq & Hlen).
    injection Heq as <-. cbn in Hlen. lia.
  - change (negb (truthy (String c s))) with false. cbn iota.
    destruct ((length_utf16 (String c s) <? 1)%nat
              || (256 <? length_utf16 (String c s))%nat) eqn:Hl.
    + split; [discriminate|]. intros (s' & Heq & Hlen). injection Heq as <-.
      apply orb_prop in Hl as [Hl|Hl]; apply Nat.ltb_lt in Hl; lia.
    + apply orb_false_elim in Hl as (H1 & H2). apply Nat.ltb_ge in H1, H2.
      split; [|reflexivity]. intros _. exists (String c s).
      split; [reflexivity | lia].
Qed.

(** The lengths are counted as [.length] counts them, in UTF-16 code
    units: a password of 129 Cyrillic letters (258 bytes) is valid, a
    shared secret of five (ten bytes) is too short. *)
Example validateAccount_counts_code_units :
  let letters n := Nat.iter n (fun s => String "208" (String "176" s)) "" in
  isValidPassword (JStr (letters 129%nat)) = true /\
  secret_errors (JStr (letters 5%nat)) = [SecretTooShort].
Proof. vm_compute. split; reflexivity. Qed.

(** X16: [validateAccount] answers [valid: true] exactly when the account
    is an object with an acceptable user name, a password that is a
    string of 1 to 256 UTF-16 code units, a [gamesAndStatus] that, when
    given, is an array with at least one number and only game IDs among
    its numbers (what is not a number is skipped), and a [sharedSecret]
    that, when given, is a string of ten code units or more (a length of
    zero belongs to no text that is given).  [valid] is [true] exactly
    when [errors] is empty. *)
Theorem validateAccount_valid_iff account :
  (fst (validateAccount account) = true <-> snd (validateAccount account) = []) /\
  (fst (validateAccount account) = true <->
   is_object account = true /\
   isValidUsername (prop "username" account) = true /\
   (exists pw, prop "password" account = JStr pw /\
               (1 <= length_utf16 pw <= 256)%nat) /\
   (truthy_val (prop "gamesAndStatus" account) = true ->
    exists items, prop "gamesAndStatus" account = JArr items /\
      (exists g, In g items /\ is_number g = true) /\
      (forall g, In g items -> is_number g = true -> isValidGameId g = true)) /\
   (truthy_val (prop "sharedSecret" account) = true ->
    exists s, prop "sharedSecret" account = JStr s /\
              (length_utf16 s = 0 \/ 10 <= length_utf16 s)%nat)).
Proof.
  unfold validateAccount.
  destruct (is_object account) eqn:Hobj; cbn [negb fst snd].
  2: { split; (split; [discriminate|]); [discriminate | intros (H & _); discriminate]. }
  rewrite <- games_errors_nil, <- secret_errors_nil, <- isValidPassword_iff.
  set (errors := (_ ++ _ ++ _ ++ _)%list).
  assert (Hlen : Nat.eqb (length errors) 0 = true <-> errors = []).
  { destruct errors; cbn; split; congruence. }
  split; [exact Hlen|]. rewrite Hlen. subst errors.
  destruct (isValidUsername (prop "username" account));
    destruct (isValidPassword (prop "password" account)); cbn [negb app];
    try (split; [discriminate | intros (_ & H1 & H2 & _); discriminate]).
  split.
  - intros He. apply app_eq_nil in He as (Hg & Hs). auto.
  - intros (_ & _ & _ & Hg & Hs). rewrite Hg, Hs. reflexivity.
Qed.

(** [parseInt] returns a double: from [2^53] on not every integer is
    one; and it skips the white space of Unicode. *)
Example parseInt_string_rounds :
  parseInt_string "9007199254740993" = Some 9007199254740992 /\
  parseInt_string (String "194" (String "160" "42")) = Some 42 /\
  parseInt_string "  -0x1F rest" = Some (-31).
Proof. vm_compute. repeat split. Qed.

(** X18: [getEnvInt] returns the default when the variable is not set or
    empty; when it is set to text that starts with an integer [num] the
    result lies between [min] and [max], and is [num] itself when [num]
    does. *)
Theorem getEnvInt_clamped env name defaultValue min max :
  min <= max ->
  (env !! name = None -> getEnvInt env name defaultValue min max = defaultValue) /\
  (env !! name = Some "" -> getEnvInt env name defaultValue min max = defaultValue) /\
  (forall value num,
     env !! name = Some value -> parseInt_string value = Some num ->
     min <= getEnvInt env name defaultValue min max <= max /\
     (min <= num <= max -> getEnvInt env name defaultValue min max = num)).
Proof.
  intros Hmm. unfold getEnvInt. split; [|split].
  - intros ->. reflexivity.
  - intros ->. reflexivity.
  - intros value num -> Hp.
    destruct value as [|c value]; [discriminate Hp|].
    change (negb (truthy (String c value))) with false. cbn iota.
    rewrite Hp. split; lia.
Qed.

(** X18 with [BOOST_DELAY=250ms] read between 0 and 1000. *)
Lemma getEnvInt_clamped_witness :
  getEnvInt {[ "BOOST_DELAY" := "250ms" ]} "BOOST_DELAY" 5 0 1000 = 250.
Proof.
  destruct (getEnvInt_clamped {[ "BOOST_DELAY" := "250ms" ]} "BOOST_DELAY"
              5 0 1000 ltac:(lia)) as (_ & _ & H).
  apply (H "250ms" 250); [reflexivity | reflexivity | lia].
Defined.

End AccountFacts.

(** ** State manager: what is saved is what is loaded *)

Module StateFilesFacts.
Import StateManager StateFiles JSFacts StateManagerFacts SanitizeFacts.

Section WithJSON.
Context {J : JSON} (this : StateManager.t).

(** X19: a [saveState] whose write and rename go through returns [true],
    leaves no temp file and touches no other file; if [JSON.parse] reads
    the snapshot back from its [JSON.stringify], a following [loadState]
    returns the sanitized state. *)
Theorem saveState_loadState_round_trip timestamp state d :
  parse (stringify (snapshot timestamp state)) = Ok (snapshot timestamp state) ->
  exists d',
    saveState this timestamp WriteOk RenameOk state d = (true, d') /\
    loadState this d' = Validator.sanitizeObject state /\
    d' !! tempPath this = None /\
    (forall p, p <> statePath this -> p <> tempPath this -> d' !! p = d !! p).
Proof.
  intros Hjson. pose proof (tempPath_neq_statePath this) as Hne.
  unfold saveState, writeFileSync, renameSync.
  rewrite lookup_insert_eq. eexists. split; [reflexivity|].
  split; [|split].
  - unfold loadState. rewrite lookup_insert_eq, Hjson. cbn.
    apply sanitizeObject_twice.
  - rewrite lookup_insert_ne by congruence. apply lookup_delete_eq.
  - intros p Hp Hp'.
    rewrite lookup_insert_ne, lookup_delete_ne, lookup_insert_ne by congruence.
    reflexivity.
Qed.

(** X20: what [loadState] and [importState] return has none of the keys
    [__proto__], [constructor], [prototype] at any depth, whatever the
    file holds, with one exception: on a snapshot of another version
    [loadState] returns [snapshot.state] as it was parsed. *)
Theorem loaded_state_is_sanitized d :
  (forall filepath, Validator.clean (importState filepath d) = true) /\
  (Validator.clean (loadState this d) = true \/
   exists text snap,
     d !! statePath this = Some text /\ parse text = Ok snap /\
     prop "version" snap <> JStr STATE_VERSION /\
     loadState this d = prop "state" snap).
Proof.
  split.
  - intros filepath. unfold importState.
    destruct (d !! filepath) as [text|]; [|reflexivity].
    destruct (parse text) as [imported|]; [|reflexivity].
    destruct imported; try reflexivity; apply sanitizeObject_clean.
  - unfold loadState.
    destruct (d !! statePath this) as [text|]; [|left; reflexivity].
    destruct (parse text) as [snap|] eqn:Hp; [|left; reflexivity].
    destruct snap as [| | | | | |props]; try (left; reflexivity).
    destruct (prop "version" (JObj props)) as [| | | |v| |] eqn:Hv;
      try (right; exists text, (JObj props);
           repeat split; try assumption; try reflexivity;
           rewrite Hv; discriminate).
    destruct (String.eqb v STATE_VERSION) eqn:He.
    + left. apply sanitizeObject_clean.
    + right. exists text, (JObj props).
      split; [reflexivity | split; [assumption | split; [|reflexivity]]].
      rewrite Hv. intros Heq. injection Heq as ->.
      rewrite String.eqb_refl in He. discriminate.
Qed.

(** X21: an [exportState] whose write goes through returns [true] and
    changes the one file; if [JSON.parse] reads the exported object back
    from its [JSON.stringify], [importState] of that file returns the
    sanitized state. *)
Theorem exportState_importState_round_trip timestamp filepath state d :
  parse (stringify (export_data timestamp state))
  = Ok (export_data timestamp state) ->
  exists d',
    exportState timestamp WriteOk filepath state d = (true, d') /\
    importState filepath d' = Validator.sanitizeObject state /\
    (forall p, p <> filepath -> d' !! p = d !! p).
Proof.
  intros Hjson. unfold exportState, writeFileSync.
  eexists. split; [reflexivity|]. split.
  - unfold importState. rewrite lookup_insert_eq, Hjson. cbn.
    apply sanitizeObject_twice.
  - intros p Hp. rewrite lookup_insert_ne by congruence. reflexivity.
Qed.

End WithJSON.

(** A snapshot of version 0.9 with a [__proto__] key in its state. *)
Example loadState_other_version_as_parsed :
  let this := {| stateDir := "data/state" |} in
  let old :=
    JObj [("version", JStr "0.9.0");
          ("state", JObj [("__proto__", JObj [("admin", JBool true)])])] in
  loadState (J := ToyJSON.toy) this {[ statePath this := ToyJSON.print old ]}
  = JObj [("__proto__", JObj [("admin", JBool true)])].
Proof. vm_compute. reflexivity. Qed.

(** X19 with the small JSON, for a state with a [__proto__] key and an
    array, which comes back as an object keyed by its indices. *)
Lemma saveState_loadState_round_trip_witness :
  exists d',
    saveState (J := ToyJSON.toy) {| stateDir := "data/state" |}
      "2024-01-01T00:00:00.000Z" WriteOk RenameOk
      (JObj [("accounts", JArr [JStr "alice"; JNum 730]);
             ("__proto__", JObj [("admin", JBool true)])]) ∅
    = (true, d') /\
    loadState (J := ToyJSON.toy) {| stateDir := "data/state" |} d'
    = JObj [("accounts", JObj [("0", JStr "alice"); ("1", JNum 730)])].
Proof.
  destruct (saveState_loadState_round_trip (J := ToyJSON.toy)
              {| stateDir := "data/state" |} "2024-01-01T00:00:00.000Z"
              (JObj [("accounts", JArr [JStr "alice"; JNum 730]);
                     ("__proto__", JObj [("admin", JBool true)])]) ∅)
    as (d' & Hs & Hl & _).
  - vm_compute. reflexivity.
  - exists d'. split; [exact Hs | rewrite Hl; vm_compute; reflexivity].
Defined.

(** X21 with the small JSON. *)
Lemma exportState_importState_round_trip_witness :
  exists d',
    exportState (J := ToyJSON.toy) "2024-01-01T00:00:00.000Z" WriteOk
      "export.json" (JObj [("constructor", JNull); ("games", JArr [JNum 730])]) ∅
    = (true, d') /\
    importState (J := ToyJSON.toy) "export.json" d'
    = JObj [("games", JObj [("0", JNum 730)])].
Proof.
  destruct (exportState_importState_round_trip (J := ToyJSON.toy)
              "2024-01-01T00:00:00.000Z" "export.json"
              (JObj [("constructor", JNull); ("games", JArr [JNum 730])]) ∅)
    as (d' & Hs & Hl & _).
  - vm_compute. reflexivity.
  - exists d'. split; [exact Hs | rewrite Hl; vm_compute; reflexivity].
Defined.

End StateFilesFacts.

(** ** State manager: backups and auto-save *)

Module BackupFacts.
Import StateManager StateFiles JSFacts ValidatorFacts.

(** *** Sorting *)

Section SortFacts.
Context {A : Type} (key : A -> Z).

Local Abbreviation newest_first := (fun x y : A => key y - key x).
Local Abbreviation not_older := (fun x y : A => key y <= key x).

Lemma sort_insert_perm x l : sort_insert newest_first x l ≡ₚ x :: l.
Proof.
  induction l as [|y r IH]; [reflexivity|]. cbn.
  destruct (key y - key x <=? 0); [reflexivity|].
  rewrite IH. apply Permutation_swap.
Qed.

Lemma sort_perm l : sort newest_first l ≡ₚ l.
Proof.
  induction l as [|x l IH]; [reflexivity|]. cbn.
  fold (sort newest_first l). rewrite sort_insert_perm, IH. reflexivity.
Qed.

Lemma sort_insert_sorted x l :
  StronglySorted not_older l ->
  StronglySorted not_older (sort_insert newest_first x l).
Proof.
  induction 1 as [|y r Hs IH Hy]; cbn.
  - constructor; constructor.
  - destruct (key y - key x <=? 0) eqn:Hc.
    + apply Z.leb_le in Hc. constructor.
      * constructor; assumption.
      * constructor; [lia|].
        eapply Forall_impl; [exact Hy|]. cbn. intros z Hz. lia.
    + apply Z.leb_gt in Hc. constructor; [exact IH|].
      rewrite sort_insert_perm. constructor; [lia | exact Hy].
Qed.

Lemma sort_sorted l : StronglySorted not_older (sort newest_first l).
Proof.
  induction l as [|x l IH]; [constructor|]. cbn.
  apply sort_insert_sorted, IH.
Qed.

(** In a list sorted newest first, what comes after a position is not
    newer than what comes before it. *)
Lemma elem_of_drop_list {B} n (l : list B) y : y ∈ drop n l -> y ∈ l.
Proof.
  intros (i & Hi)%list_elem_of_lookup. rewrite lookup_drop in Hi.
  eapply list_elem_of_lookup_2, Hi.
Qed.

Lemma elem_of_take_list {B} n (l : list B) y : y ∈ take n l -> y ∈ l.
Proof.
  intros (i & Hi & _)%elem_of_take. eapply list_elem_of_lookup_2, Hi.
Qed.

Lemma sorted_take_drop n l x y :
  StronglySorted not_older l ->
  x ∈ take n l -> y ∈ drop n l -> key y <= key x.
Proof.
  intros Hs. revert n. induction Hs as [|z r Hs IH Hz]; intros n Hx Hy.
  - rewrite take_nil in Hx. inversion Hx.
  - destruct n as [|n]; [inversion Hx|]. cbn in Hx, Hy.
    apply elem_of_cons in Hx as [->|Hx]; [|eauto].
    rewrite Forall_forall in Hz. apply Hz.
    eapply elem_of_drop_list, Hy.
Qed.

(** The first element of a list sorted newest first is the newest. *)
Lemma sorted_head x l y :
  StronglySorted not_older (x :: l) -> y ∈ x :: l -> key y <= key x.
Proof.
  intros Hs Hy. inversion Hs as [|? ? _ Hx]; subst.
  apply elem_of_cons in Hy as [->|Hy]; [lia|].
  rewrite Forall_forall in Hx. auto.
Qed.

End SortFacts.

(** *** The backup directory *)

Lemma by_name_lists : ReaddirLists ToyJSON.by_name.
Proof.
  intros d. unfold readdirSync, ToyJSON.by_name. split.
  - apply NoDup_fst_map_to_list.
  - intros f. rewrite list_elem_of_fmap. split.
    + intros ((k & st) & -> & Hin). apply elem_of_map_to_list in Hin.
      cbn. eauto.
    + intros (st & Hst). exists (f, st). split; [reflexivity|].
      apply elem_of_map_to_list, Hst.
Qed.

Lemma mapM_cons {A B} (f : A -> option B) x l :
  mapM f (x :: l) = match f x with
                    | Some y => match mapM f l with
                                | Some k => Some (y :: k)
                                | None => None
                                end
                    | None => None
                    end.
Proof. cbn. destruct (f x); [|reflexivity]. cbn. destruct (mapM f l); reflexivity. Qed.

Lemma stat_all b names :
  (forall f, f ∈ names -> is_Some (b !! f)) ->
  exists backups,
    mapM (statSync b) names = Some backups /\
    name <$> backups = names /\ Forall (stat_of b) backups.
Proof.
  induction names as [|f names IH]; intros Hall.
  - exists []. repeat split. constructor.
  - destruct IH as (backups & Hm & Hn & Hf).
    { intros g Hg. apply Hall. right. exact Hg. }
    destruct (Hall f) as (st & Hst); [left|].
    eexists. rewrite mapM_cons, Hm. unfold statSync at 1. rewrite Hst.
    split; [reflexivity|]. split; [cbn; rewrite Hn; reflexivity|].
    constructor; [|exact Hf]. exists st. cbn. auto.
Qed.

Section WithReaddir.
Context {R : Readdir} (HR : ReaddirLists R) (this : StateFiles.t).

Lemma listed_names b :
  NoDup (List.filter is_backup (readdirSync b)) /\
  forall f, f ∈ List.filter is_backup (readdirSync b)
            <-> is_backup f = true /\ is_Some (b !! f).
Proof.
  destruct (HR b) as (Hnd & Hin). split.
  - apply NoDup_ListNoDup, List.NoDup_filter, NoDup_ListNoDup, Hnd.
  - intros f. rewrite list_elem_of_In, List.filter_In, <- list_elem_of_In, Hin.
    tauto.
Qed.

Lemma listBackups_perm b :
  exists backups,
    listBackups b = sort (fun x y => created y - created x) backups /\
    name <$> backups = List.filter is_backup (readdirSync b) /\
    Forall (stat_of b) backups.
Proof.
  destruct (stat_all b (List.filter is_backup (readdirSync b)))
    as (backups & Hm & Hn & Hf).
  { intros f Hf. apply (listed_names b) in Hf. tauto. }
  exists backups. unfold listBackups. rewrite Hm. auto.
Qed.

Lemma listBackups_sorted b :
  StronglySorted (fun x y => created y <= created x) (listBackups b).
Proof.
  destruct (listBackups_perm b) as (backups & -> & _). apply sort_sorted.
Qed.

Lemma listBackups_names b :
  NoDup (name <$> listBackups b) /\
  forall f, f ∈ name <$> listBackups b
            <-> is_backup f = true /\ is_Some (b !! f).
Proof.
  destruct (listBackups_perm b) as (backups & -> & Hn & _).
  destruct (listed_names b) as (Hnd & Hin). rewrite <- Hn in Hnd, Hin.
  split.
  - rewrite (sort_perm created backups). exact Hnd.
  - intros f. rewrite (sort_perm created backups). apply Hin.
Qed.

Lemma listBackups_stat b x : x ∈ listBackups b -> stat_of b x.
Proof.
  destruct (listBackups_perm b) as (backups & -> & _ & Hf).
  rewrite (sort_perm created backups). rewrite Forall_forall in Hf. auto.
Qed.

Lemma unlink_each_lookup l : forall b,
  NoDup (name <$> l) -> (forall x, x ∈ l -> is_Some (b !! name x)) ->
  forall f, unlink_each l b !! f
            = if decide (f ∈ name <$> l) then None else b !! f.
Proof.
  induction l as [|x l IH]; intros b Hnd Hall f.
  - cbn. destruct (decide (f ∈ [])) as [H|]; [inversion H | reflexivity].
  - cbn [unlink_each]. destruct (Hall x) as (st & Hst); [left|]. rewrite Hst.
    rewrite fmap_cons in Hnd |- *. apply NoDup_cons in Hnd as (Hx & Hnd).
    rewrite IH; [|exact Hnd|].
    + destruct (decide (f ∈ name <$> l)) as [Hf|Hf].
      * rewrite decide_True by (right; exact Hf). reflexivity.
      * destruct (decide (f = name x)) as [->|Hne].
        -- rewrite decide_True by left. apply lookup_delete_eq.
        -- rewrite decide_False by (rewrite elem_of_cons; tauto).
           apply lookup_delete_ne. congruence.
    + intros y Hy. rewrite lookup_delete_ne.
      * apply Hall. right. exact Hy.
      * intros Heq. apply Hx. rewrite Heq. apply list_elem_of_fmap_2, Hy.
Qed.

Lemma NoDup_fmap_drop {B C} (f : B -> C) n l :
  NoDup (f <$> l) -> NoDup (f <$> drop n l).
Proof.
  intros H. rewrite <- (take_drop n l), fmap_app in H.
  apply NoDup_app in H. tauto.
Qed.

Lemma cleanupBackups_lookup b f :
  cleanupBackups this b !! f
  = if decide (f ∈ name <$> drop (maxBackups this) (listBackups b))
    then None else b !! f.
Proof.
  unfold cleanupBackups.
  destruct (maxBackups this <? length (listBackups b))%nat eqn:Hlt.
  - apply unlink_each_lookup.
    + apply NoDup_fmap_drop, listBackups_names.
    + intros x Hx. apply elem_of_drop_list, listBackups_stat in Hx.
      destruct Hx as (st & Hst & _). eauto.
  - apply Nat.ltb_ge in Hlt. rewrite drop_ge by exact Hlt.
    destruct (decide (f ∈ name <$> [])) as [H|]; [inversion H | reflexivity].
Qed.

Lemma substring_app_suffix a p :
  substring (String.length a) (String.length p) (a ++ p) = p.
Proof.
  induction a as [|c a IH].
  - rewrite append_nil. apply substring_0_all. reflexivity.
  - rewrite append_cons. exact IH.
Qed.

Lemma endsWith_app a p : endsWith p (a ++ p) = true.
Proof.
  unfold endsWith. rewrite length_append.
  replace (String.length a + String.length p - String.length p)%nat
    with (String.length a) by lia.
  rewrite substring_app_suffix, String.eqb_refl, andb_true_r.
  apply Nat.leb_le. lia.
Qed.

Lemma is_backup_backupName timestamp : is_backup (backupName timestamp) = true.
Proof.
  unfold is_backup, backupName. apply andb_true_intro. split.
  - unfold startsWith. rewrite !append_cons, append_nil. cbn.
    destruct (_ ++ _); reflexivity.
  - rewrite <- append_assoc. apply endsWith_app.
Qed.

(** X22: [listBackups] returns the files of the backup directory named
    [backup_*.json], each once with its size and modification time, the
    newest first. *)
Theorem listBackups_newest_first b :
  StronglySorted (fun x y => created y <= created x) (listBackups b) /\
  NoDup (name <$> listBackups b) /\
  (forall f, f ∈ name <$> listBackups b
             <-> is_backup f = true /\ is_Some (b !! f)) /\
  (forall x, x ∈ listBackups b -> stat_of b x).
Proof.
  split; [apply listBackups_sorted|].
  split; [apply listBackups_names|].
  split; [apply listBackups_names | apply listBackups_stat].
Qed.

Lemma cleanupBackups_names b :
  name <$> listBackups (cleanupBackups this b)
  ≡ₚ name <$> take (maxBackups this) (listBackups b).
Proof.
  set (all := listBackups b). set (b' := cleanupBackups this b).
  destruct (listBackups_names b) as (Hnd & Hin). fold all in Hnd, Hin.
  pose proof Hnd as Hnd'.
  rewrite <- (take_drop (maxBackups this) all), fmap_app in Hnd'.
  apply NoDup_app in Hnd' as (Hndt & Hdisj & _).
  apply NoDup_Permutation; [apply listBackups_names | exact Hndt |].
  intros f. destruct (listBackups_names b') as (_ & ->).
  unfold b'. rewrite cleanupBackups_lookup. fold all.
  destruct (decide (f ∈ name <$> drop (maxBackups this) all)) as [Hd|Hd].
  - split.
    + intros (_ & (? & ?)). discriminate.
    + intros Ht. destruct (Hdisj f Ht Hd).
  - rewrite <- Hin.
    rewrite <- (take_drop (maxBackups this) all) at 1.
    rewrite fmap_app, elem_of_app. tauto.
Qed.

Lemma cleanupBackups_length b :
  (length (listBackups (cleanupBackups this b)) <= maxBackups this)%nat.
Proof.
  pose proof (cleanupBackups_names b) as Hperm.
  apply Permutation_length in Hperm. rewrite !length_fmap in Hperm.
  rewrite Hperm, length_take. lia.
Qed.

(** X23: [cleanupBackups] removes the backups after the first
    [maxBackups] of [listBackups] and no other file; none of the removed
    backups is newer than a kept one, and afterwards [listBackups] shows
    the kept ones, at most [maxBackups]. *)
Theorem cleanupBackups_keeps_newest b :
  let all := listBackups b in
  let b' := cleanupBackups this b in
  (forall f, f ∈ name <$> drop (maxBackups this) all -> b' !! f = None) /\
  (forall f, f ∉ name <$> drop (maxBackups this) all -> b' !! f = b !! f) /\
  (forall k r, k ∈ take (maxBackups this) all ->
               r ∈ drop (maxBackups this) all -> created r <= created k) /\
  name <$> listBackups b' ≡ₚ name <$> take (maxBackups this) all /\
  (length (listBackups b') <= maxBackups this)%nat.
Proof.
  intros all b'. split; [|split; [|split; [|split]]].
  - intros f Hf. unfold b'. rewrite cleanupBackups_lookup. fold all.
    rewrite decide_True by exact Hf. reflexivity.
  - intros f Hf. unfold b'. rewrite cleanupBackups_lookup. fold all.
    rewrite decide_False by exact Hf. reflexivity.
  - intros k r. apply (sorted_take_drop created), listBackups_sorted.
  - apply cleanupBackups_names.
  - apply cleanupBackups_length.
Qed.

(** X24: with a state file on disk, room for one backup at least, and
    every backup in the directory older than the copy, [createBackup]
    returns the name of a backup that is still there after its cleanup,
    holds the state file's text, and that [restoreBackup] copies back to
    the state file, whatever the state file has become. *)
Theorem createBackup_restoreBackup timestamp now text d b :
  d !! statePath (manager this) = Some text ->
  (0 < maxBackups this)%nat ->
  (forall f st, is_backup f = true -> b !! f = Some st -> mtime st < now) ->
  exists b',
    createBackup this timestamp now d b = (Some (backupName timestamp), b') /\
    b' !! backupName timestamp = Some {| data := text; mtime := now |} /\
    (forall d2, restoreBackup this (backupName timestamp) b' d2
                = (true, <[statePath (manager this) := text]> d2)) /\
    (length (listBackups b') <= maxBackups this)%nat.
Proof.
  intros Hd Hmax Hold. unfold createBackup. rewrite Hd.
  set (bn := backupName timestamp).
  set (b1 := <[bn := {| data := text; mtime := now |}]> b).
  assert (Hkept : cleanupBackups this b1 !! bn
                  = Some {| data := text; mtime := now |}).
  { rewrite cleanupBackups_lookup.
    rewrite decide_False; [apply lookup_insert_eq|].
    intros Hdrop.
    destruct (listBackups_names b1) as (Hnd & Hin).
    assert (Hbn : bn ∈ name <$> listBackups b1).
    { apply Hin. split; [apply is_backup_backupName|].
      unfold b1. rewrite lookup_insert_eq. eauto. }
    apply list_elem_of_fmap in Hbn as (x & Hx & Hxin).
    pose proof (listBackups_sorted b1) as Hs.
    destruct (listBackups b1) as [|h t] eqn:Hall; [inversion Hxin|].
    assert (Hh : name h = bn).
    { destruct (decide (name h = bn)) as [|Hne]; [assumption|exfalso].
      pose proof (sorted_head created h t x Hs Hxin) as Hle.
      destruct (listBackups_stat b1 x) as (stx & Hstx & _ & Hcx);
        [rewrite Hall; exact Hxin|].
      destruct (listBackups_stat b1 h) as (sth & Hsth & _ & Hch);
        [rewrite Hall; left|].
      rewrite <- Hx in Hstx. unfold b1 in Hstx, Hsth.
      rewrite lookup_insert_eq in Hstx. injection Hstx as <-.
      rewrite lookup_insert_ne in Hsth by congruence.
      assert (Hb : is_backup (name h) = true).
      { apply Hin. rewrite fmap_cons. left. }
      specialize (Hold (name h) sth Hb Hsth). cbn in Hcx. lia. }
    rewrite fmap_cons in Hnd. apply NoDup_cons in Hnd as (Hnot & _).
    apply Hnot. rewrite Hh.
    destruct (maxBackups this) as [|m]; [lia|]. cbn in Hdrop.
    apply list_elem_of_fmap in Hdrop as (y & -> & Hy).
    apply list_elem_of_fmap_2. eapply elem_of_drop_list, Hy. }
  eexists. split; [reflexivity|]. split; [exact Hkept|]. split.
  - intros d2. unfold restoreBackup. fold bn b1. rewrite Hkept. reflexivity.
  - apply cleanupBackups_length.
Qed.

End WithReaddir.

(** X22 for a directory with two backups and another file. *)
Lemma listBackups_newest_first_witness :
  StronglySorted (fun x y => created y <= created x)
    (listBackups (R := ToyJSON.by_name) ToyJSON.demo_dir) /\
  name <$> listBackups (R := ToyJSON.by_name) ToyJSON.demo_dir
  = ["backup_2024-01-02T00-00-00.000Z.json";
     "backup_2024-01-01T00-00-00.000Z.json"].
Proof.
  split.
  - apply (listBackups_newest_first by_name_lists ToyJSON.demo_dir).
  - vm_compute. reflexivity.
Defined.

(** X23 for the same directory, keeping one backup. *)
Lemma cleanupBackups_keeps_newest_witness :
  name <$> listBackups (R := ToyJSON.by_name)
             (cleanupBackups (R := ToyJSON.by_name) ToyJSON.demo_manager
                ToyJSON.demo_dir)
  ≡ₚ ["backup_2024-01-02T00-00-00.000Z.json"] /\
  cleanupBackups (R := ToyJSON.by_name) ToyJSON.demo_manager ToyJSON.demo_dir
    !! "notes.txt"
  = ToyJSON.demo_dir !! "notes.txt".
Proof.
  pose proof (cleanupBackups_keeps_newest by_name_lists ToyJSON.demo_manager
                ToyJSON.demo_dir) as (_ & Hother & _ & Hperm & _).
  split.
  - exact Hperm.
  - apply Hother. vm_compute. intros H. inversion H as [|? ? ? H']; inversion H'.
Defined.

(** X24 for the same directory: the new backup replaces the two older
    ones and restores the state file. *)
Lemma createBackup_restoreBackup_witness :
  exists b',
    createBackup (R := ToyJSON.by_name) ToyJSON.demo_manager
      "2024-01-03T00:00:00.000Z" 5000
      {[ "data/state/current.json" := "state" ]} ToyJSON.demo_dir
    = (Some "backup_2024-01-03T00-00-00.000Z.json", b') /\
    restoreBackup ToyJSON.demo_manager "backup_2024-01-03T00-00-00.000Z.json"
      b' ∅
    = (true, {[ "data/state/current.json" := "state" ]}).
Proof.
  destruct (createBackup_restoreBackup by_name_lists ToyJSON.demo_manager
              "2024-01-03T00:00:00.000Z" 5000 "state"
              {[ "data/state/current.json" := "state" ]} ToyJSON.demo_dir)
    as (b' & Hc & _ & Hr & _).
  - vm_compute. reflexivity.
  - vm_compute. lia.
  - intros f st Hb Hst. unfold ToyJSON.demo_dir in Hst.
    apply lookup_insert_Some in Hst as [[<- <-]|[_ Hst]]; [cbn; lia|].
    apply lookup_insert_Some in Hst as [[<- <-]|[_ Hst]]; [cbn; lia|].
    apply lookup_singleton_Some in Hst as [<- <-].
    vm_compute in Hb. discriminate.
  - exists b'. split; [exact Hc | apply Hr].
Defined.

(** *** Auto-save *)

Lemma autosave_timer calls :
  let ts := fold_left autosave calls no_timers in
  live ts = match autoSaveInterval ts with
            | Some id => {[ id ]}
            | None => ∅
            end.
Proof.
  induction calls as [|c calls IH] using rev_ind; [reflexivity|].
  rewrite fold_left_app. cbn [fold_left].
  set (ts := fold_left autosave calls no_timers) in *. cbv zeta in IH.
  clearbody ts.
  destruct c; cbv zeta;
    unfold autosave, enableAutoSave, disableAutoSave, clearInterval;
    destruct (autoSaveInterval ts) as [id|] eqn:Ha;
    cbn [live autoSaveInterval next_timer];
    rewrite ?Ha, ?IH, ?difference_diag_L, ?(left_id_L ∅ (∪)); reflexivity.
Qed.

(** X25: however [enableAutoSave] and [disableAutoSave] are called, at
    most one auto-save interval is running, the one kept in
    [autoSaveInterval]; after [disableAutoSave] none is, and after
    [enableAutoSave] the new one alone. *)
Theorem autosave_one_interval calls :
  let ts := fold_left autosave calls no_timers in
  (size (live ts) <= 1)%nat /\
  (autoSaveInterval ts = None -> live ts = ∅) /\
  live (disableAutoSave ts) = ∅ /\
  live (enableAutoSave ts) = {[ next_timer ts ]}.
Proof.
  intros ts. pose proof (autosave_timer calls) as H. fold ts in H.
  cbv zeta in H. clearbody ts.
  unfold enableAutoSave, disableAutoSave, clearInterval.
  destruct (autoSaveInterval ts) as [id|] eqn:Ha;
    cbn [live autoSaveInterval next_timer];
    rewrite H, ?difference_diag_L, ?(left_id_L ∅ (∪)),
      ?size_singleton, ?size_empty.
  - split; [lia | split; [discriminate | split; reflexivity]].
  - split; [lia | split; [reflexivity | split; reflexivity]].
Qed.

End BackupFacts.

(** ** Settings: what is saved is what is loaded *)

Module SettingsRoundTrip.
Import Validator ConfigManager VaporBooster SettingsFacts.

Lemma lookup_set_prop_ne k k' v ps :
  k <> k' -> lookup_prop k (set_prop k' v ps) = lookup_prop k ps.
Proof.
  intros Hne. apply String.eqb_neq in Hne.
  induction ps as [|[k0 v0] ps IH]; cbn.
  - rewrite Hne. reflexivity.
  - destruct (String.eqb k' k0) eqn:Hk; cbn.
    + apply String.eqb_eq in Hk. subst k0. rewrite Hne. reflexivity.
    + rewrite IH. reflexivity.
Qed.

Lemma has_key_set_prop k k' v ps :
  has_key k (set_prop k' v ps) = String.eqb k k' || has_key k ps.
Proof.
  unfold has_key. induction ps as [|[k0 v0] ps IH]; cbn.
  - reflexivity.
  - destruct (String.eqb k' k0) eqn:Hk; cbn.
    + apply String.eqb_eq in Hk. subst k0.
      destruct (String.eqb k k'); reflexivity.
    + rewrite IH. destruct (String.eqb k k'), (String.eqb k k0); reflexivity.
Qed.

Lemma has_key_false k ps : has_key k ps = false -> lookup_prop k ps = JUndefined.
Proof.
  unfold has_key. induction ps as [|[k0 v0] ps IH]; cbn; [reflexivity|].
  destruct (String.eqb k k0); [discriminate | exact IH].
Qed.

Lemma has_key_elem k ps : has_key k ps = true <-> k ∈ map fst ps.
Proof.
  unfold has_key. induction ps as [|[k0 v0] ps IH]; cbn.
  - split; [discriminate | intros H; inversion H].
  - rewrite orb_true_iff, IH, elem_of_cons, String.eqb_eq. reflexivity.
Qed.

Lemma keys_set_prop_NoDup k v ps :
  NoDup (map fst ps) -> NoDup (map fst (set_prop k v ps)).
Proof.
  induction ps as [|[k0 v0] ps IH]; cbn; intros Hnd.
  - apply NoDup_singleton.
  - apply NoDup_cons in Hnd as (Hk0 & Hnd).
    destruct (String.eqb k k0) eqn:Hk; cbn.
    + apply String.eqb_eq in Hk. subst k0. apply NoDup_cons. auto.
    + apply NoDup_cons. split; [|auto].
      intros Hin. apply has_key_elem in Hin.
      rewrite has_key_set_prop, String.eqb_sym, Hk in Hin.
      apply Hk0, has_key_elem, Hin.
Qed.

Lemma assign_snoc a b kv :
  assign a (b ++ [kv]) = set_prop kv.1 kv.2 (assign a b).
Proof. unfold assign. rewrite fold_left_app. reflexivity. Qed.

Lemma keys_assign_NoDup a b :
  NoDup (map fst a) -> NoDup (map fst (assign a b)).
Proof.
  intros Ha. induction b as [|kv b IH] using rev_ind; [exact Ha|].
  rewrite assign_snoc. apply keys_set_prop_NoDup, IH.
Qed.

Lemma has_key_assign k a b :
  has_key k (assign a b) = has_key k a || has_key k b.
Proof.
  induction b as [|kv b IH] using rev_ind.
  - cbn. rewrite orb_false_r. reflexivity.
  - rewrite assign_snoc, has_key_set_prop, IH. unfold has_key at 4.
    rewrite map_app, existsb_app. cbn.
    fold (has_key k b). destruct (String.eqb k kv.1), (has_key k a), (has_key k b);
      reflexivity.
Qed.

(** With each key given once, the last value given is the one given. *)
Lemma lookup_assign k a b :
  NoDup (map fst b) ->
  lookup_prop k (assign a b)
  = if has_key k b then lookup_prop k b else lookup_prop k a.
Proof.
  induction b as [|[k' v] b IH] using rev_ind; intros Hnd; [reflexivity|].
  rewrite map_app in Hnd. apply NoDup_app in Hnd as (Hb & Hdisj & _).
  rewrite assign_snoc. cbn [fst snd].
  assert (Hk' : has_key k' b = false).
  { destruct (has_key k' b) eqn:H; [|reflexivity].
    apply has_key_elem in H. destruct (Hdisj k' H). left. }
  assert (Happ : forall l, lookup_prop k (b ++ l)
                   = if has_key k b then lookup_prop k b else lookup_prop k l).
  { intros l. clear. unfold has_key.
    induction b as [|[k0 v0] b IH]; cbn; [reflexivity|].
    destruct (String.eqb k k0); [reflexivity | exact IH]. }
  unfold has_key at 1. rewrite map_app, existsb_app. fold (has_key k b).
  cbn [map existsb fst]. rewrite orb_false_r, Happ. cbn [lookup_prop].
  destruct (String.eqb k k') eqn:Hk.
  - apply String.eqb_eq in Hk. subst k'. rewrite Hk', lookup_set_prop.
    reflexivity.
  - rewrite orb_false_r, lookup_set_prop_ne by (apply String.eqb_neq, Hk).
    rewrite IH by exact Hb. destruct (has_key k b); reflexivity.
Qed.

Lemma DEFAULT_SETTINGS_keys : NoDup (map fst DEFAULT_SETTINGS).
Proof. apply NoDup_ListNoDup. repeat constructor; cbn; intuition discriminate. Qed.

(** X26: [loadSettings] without a settings file returns the defaults;
    with a file (an object, each key once) the value of a key is the
    file's where the file has the key and the default's otherwise, so that
    no default key is ever missing. *)
Theorem loadSettings_file_over_defaults parsed k :
  NoDup (map fst (spread parsed)) ->
  loadSettings None = JObj DEFAULT_SETTINGS /\
  prop k (loadSettings (Some parsed))
  = (if has_key k (spread parsed) then lookup_prop k (spread parsed)
     else lookup_prop k DEFAULT_SETTINGS) /\
  (has_key k DEFAULT_SETTINGS = true ->
   has_key k (spread (loadSettings (Some parsed))) = true).
Proof.
  intros Hnd. split; [reflexivity|]. split.
  - cbn [loadSettings prop]. apply lookup_assign, Hnd.
  - intros Hk. cbn [loadSettings spread].
    rewrite has_key_assign, Hk. reflexivity.
Qed.

(** X26 for a file that sets the delay and a key of its own. *)
Lemma loadSettings_file_over_defaults_witness :
  prop "startupDelay"
    (loadSettings (Some (JObj [("startupDelay", JNum 3000);
                               ("theme", JStr "dark")])))
  = JNum 3000.
Proof.
  apply (loadSettings_file_over_defaults
           (JObj [("startupDelay", JNum 3000); ("theme", JStr "dark")])
           "startupDelay").
  apply NoDup_ListNoDup. repeat constructor; cbn; intuition discriminate.
Defined.

(** What [loadSettings] returns: each key once, every default key there. *)
Lemma loadSettings_shape file :
  exists ps, loadSettings file = JObj ps /\ NoDup (map fst ps) /\
             forall k, has_key k DEFAULT_SETTINGS = true -> has_key k ps = true.
Proof.
  destruct file as [parsed|]; cbn [loadSettings]; eexists;
    (split; [reflexivity|]); split.
  - apply keys_assign_NoDup, DEFAULT_SETTINGS_keys.
  - intros k Hk. rewrite has_key_assign, Hk. reflexivity.
  - apply DEFAULT_SETTINGS_keys.
  - auto.
Qed.

(** Settings with every default key load as they are. *)
Lemma loadSettings_saved ps k :
  NoDup (map fst ps) ->
  (forall k, has_key k DEFAULT_SETTINGS = true -> has_key k ps = true) ->
  prop k (loadSettings (Some (JObj ps))) = lookup_prop k ps.
Proof.
  intros Hnd Hall. cbn [loadSettings prop spread]. rewrite lookup_assign by exact Hnd.
  destruct (has_key k ps) eqn:Hk; [reflexivity|].
  rewrite (has_key_false k ps Hk). apply has_key_false.
  destruct (has_key k DEFAULT_SETTINGS) eqn:Hd; [|reflexivity].
  rewrite (Hall k Hd) in Hk. discriminate.
Qed.

(** The settings after [s[key] = v] and a save that went through. *)
Lemma loadSettings_after_set file key v k :
  prop k (loadSettings
            (Some (JObj (set_prop key v (spread (loadSettings file))))))
  = if String.eqb k key then v else prop k (loadSettings file).
Proof.
  destruct (loadSettings_shape file) as (ps & -> & Hnd & Hall).
  cbn [spread]. rewrite loadSettings_saved.
  - destruct (String.eqb k key) eqn:Hk.
    + apply String.eqb_eq in Hk. subst k. apply lookup_set_prop.
    + apply lookup_set_prop_ne, String.eqb_neq, Hk.
  - apply keys_set_prop_NoDup, Hnd.
  - intros k0 Hk0. rewrite has_key_set_prop, (Hall k0 Hk0). apply orb_true_r.
Qed.

(** X27: a change made in the settings menu and saved is what
    [loadSettings] returns next.  After an accepted startup delay the
    loaded [startupDelay] is the number entered, between 1000 and 10000;
    after a toggle the loaded flag is the negation of the flag as it was
    loaded before; every other key loads as before.  When the save fails
    the menu says so, and the settings load either as before or, where
    the write in place has cut the file short, as the defaults. *)
Theorem settingsMenu_change_is_loaded file :
  (forall delay num file',
     settingsMenu_5 delay Written file = (DelaySet num, file') ->
     1000 <= num <= 10000 /\
     prop "startupDelay" (loadSettings file') = JNum num /\
     forall k, k <> "startupDelay" ->
               prop k (loadSettings file') = prop k (loadSettings file)) /\
  (forall key,
     exists file',
       settingsMenu_toggle key Written file
       = (Toggled (negb (truthy_val (prop key (loadSettings file)))), file') /\
       prop key (loadSettings file')
       = JBool (negb (truthy_val (prop key (loadSettings file)))) /\
       forall k, k <> key ->
                 prop k (loadSettings file') = prop k (loadSettings file)) /\
  (forall key written,
     written <> Written ->
     fst (settingsMenu_toggle key written file) = FailedToSaveToggle /\
     (loadSettings (snd (settingsMenu_toggle key written file))
      = loadSettings file \/
      loadSettings (snd (settingsMenu_toggle key written file))
      = JObj DEFAULT_SETTINGS)) /\
  (forall delay written,
     written <> Written ->
     (fst (settingsMenu_5 delay written file) = FailedToSave \/
      fst (settingsMenu_5 delay written file) = InvalidDelay) /\
     (loadSettings (snd (settingsMenu_5 delay written file))
      = loadSettings file \/
      loadSettings (snd (settingsMenu_5 delay written file))
      = JObj DEFAULT_SETTINGS)) /\
  settingsMenu_toggle "debug" Truncated (Some (JObj [("debug", JBool true)]))
  = (FailedToSaveToggle, None).
Proof.
  split; [|split; [|split; [|split]]].
  - intros delay num file'. unfold settingsMenu_5, saveSettings.
    destruct (parseInt_string delay) as [n|]; [|discriminate].
    destruct ((n >=? 1000) && (n <=? 10000)) eqn:Hr; [|discriminate].
    intros H. injection H as <- <-.
    apply andb_prop in Hr as (H1 & H2).
    rewrite Z.geb_leb in H1. apply Z.leb_le in H1, H2.
    split; [lia|]. split.
    + rewrite loadSettings_after_set, String.eqb_refl. reflexivity.
    + intros k Hk. rewrite loadSettings_after_set.
      apply String.eqb_neq in Hk. rewrite Hk. reflexivity.
  - intros key. unfold settingsMenu_toggle, saveSettings.
    eexists. split; [reflexivity|]. split.
    + rewrite loadSettings_after_set, String.eqb_refl. reflexivity.
    + intros k Hk. rewrite loadSettings_after_set.
      apply String.eqb_neq in Hk. rewrite Hk. reflexivity.
  - intros key written Hw. unfold settingsMenu_toggle, saveSettings.
    destruct written; [congruence | |]; cbn [fst snd]; auto.
  - intros delay written Hw. unfold settingsMenu_5, saveSettings.
    destruct (parseInt_string delay) as [n|]; [|cbn; auto].
    destruct ((n >=? 1000) && (n <=? 10000)); [|cbn; auto].
    destruct written; [congruence | |]; cbn [fst snd]; auto.
  - reflexivity.
Qed.

End SettingsRoundTrip.

(** ** UI utilities: the pages of a list *)

Module PaginateFacts.
Import UI.

Lemma slice_page {A} (l : list A) (page pageSize : Z) :
  0 <= page -> 0 < pageSize ->
  slice (page * pageSize)
    (Z.min (page * pageSize + pageSize) (Z.of_nat (length l))) l
  = take (Z.to_nat pageSize) (drop (Z.to_nat (page * pageSize)) l).
Proof.
  intros Hp Hs. unfold slice.
  assert (Hstart : 0 <= page * pageSize) by nia.
  destruct (page * pageSize <? 0) eqn:H1; [apply Z.ltb_lt in H1; lia|].
  destruct (Z.min (page * pageSize + pageSize) (Z.of_nat (length l)) <? 0)
    eqn:H2; [apply Z.ltb_lt in H2; lia|].
  destruct (Z.le_gt_cases (Z.of_nat (length l)) (page * pageSize)) as [Hle|Hgt].
  - rewrite !drop_ge by lia. rewrite !take_nil. reflexivity.
  - replace (Z.to_nat (Z.min (page * pageSize) (Z.of_nat (length l))))
      with (Z.to_nat (page * pageSize)) by lia.
    destruct (Z.le_gt_cases (page * pageSize + pageSize) (Z.of_nat (length l)))
      as [Hin|Hout].
    + f_equal. lia.
    + rewrite !take_ge by (rewrite length_drop; lia). reflexivity.
Qed.

Lemma pages_prefix {A} (l : list A) (pageSize n : nat) :
  flat_map (fun i => take pageSize (drop (i * pageSize) l)) (seq 0 n)
  = take (n * pageSize) l.
Proof.
  induction n as [|n IH]; [reflexivity|].
  rewrite seq_S, flat_map_app, IH. cbn [flat_map]. rewrite app_nil_r.
  rewrite take_take_drop. f_equal. lia.
Qed.

Lemma ceil_div len pageSize :
  0 <= len -> 0 < pageSize ->
  let total := - ((- len) / pageSize) in
  (total - 1) * pageSize < len <= total * pageSize /\ 0 <= total.
Proof.
  intros Hl Hs total.
  pose proof (Z.div_mod (- len) pageSize ltac:(lia)) as Hdm.
  pose proof (Z.mod_pos_bound (- len) pageSize Hs) as Hm.
  subst total. nia.
Qed.

(** X28: for a page size above 0, [paginate] gives page [page >= 0] the
    items from [page * pageSize] on, [pageSize] of them at most; the page
    has items exactly when [page < totalPages], [hasNext] tells whether
    the next page has, and the pages before [totalPages], one after the
    other, are the list. *)
Theorem paginate_pages_cover {A} (l : list A) (page pageSize : Z) :
  0 <= page -> 0 < pageSize ->
  exists p,
    paginate l page pageSize = Some p /\
    items p = take (Z.to_nat pageSize) (drop (Z.to_nat (page * pageSize)) l) /\
    (length (items p) <= Z.to_nat pageSize)%nat /\
    (items p <> [] <-> page < totalPages p) /\
    (hasNext p = true <-> page + 1 < totalPages p) /\
    (hasPrev p = true <-> 0 < page) /\
    flat_map (page_items l pageSize) (seq 0 (Z.to_nat (totalPages p))) = l.
Proof.
  intros Hp Hs. unfold paginate.
  destruct (pageSize =? 0) eqn:H0; [apply Z.eqb_eq in H0; lia|].
  eexists. split; [reflexivity|]. cbn [items totalPages hasNext hasPrev].
  pose proof (ceil_div (Z.of_nat (length l)) pageSize ltac:(lia) Hs)
    as (Hceil & Htot).
  set (total := - (- Z.of_nat (length l) / pageSize)) in *.
  rewrite slice_page by assumption.
  split; [reflexivity|]. split; [rewrite length_take; lia|].
  split; [|split; [|split]].
  - rewrite <- length_zero_iff_nil, length_take, length_drop. split.
    + intros Hne.
      destruct (Z.lt_ge_cases page total) as [|Hge]; [assumption|exfalso].
      apply Hne. assert (Z.of_nat (length l) <= page * pageSize) by nia. lia.
    + intros Hlt. assert (page * pageSize < Z.of_nat (length l)) by nia. lia.
  - rewrite Z.ltb_lt. lia.
  - rewrite Z.gtb_ltb, Z.ltb_lt. reflexivity.
  - erewrite flat_map_ext.
    + rewrite (pages_prefix l (Z.to_nat pageSize) (Z.to_nat total)).
      apply take_ge. nia.
    + intros i. unfold page_items, paginate. rewrite H0. cbn [items].
      rewrite slice_page by lia. f_equal. f_equal. nia.
Qed.

(** X28 for 23 items on pages of 10: the third page holds the last three
    and has no next page. *)
Lemma paginate_pages_cover_witness :
  exists p,
    paginate (seq 0 23) 2 10 = Some p /\
    items p = [20; 21; 22]%nat /\ totalPages p = 3 /\ hasNext p = false.
Proof.
  destruct (paginate_pages_cover (seq 0 23) 2 10 ltac:(lia) ltac:(lia))
    as (p & Hp & Hitems & _).
  exists p. split; [exact Hp|]. split; [rewrite Hitems; reflexivity|].
  vm_compute in Hp. injection Hp as <-. split; reflexivity.
Defined.

End PaginateFacts.

(** ** [loginAccount]: the states that the event handlers keep *)

Module LoginFacts.
Import VaporBooster.









End LoginFacts.

(** ** Input validator: arrays do not pass [sanitizeObject] *)

Module ArrayFacts.
Import Validator StateManager SafeJSON SanitizeFacts.

Lemma no_array_JObj props :
  no_array (JObj props) = forallb (fun kv => no_array kv.2) props.
Proof.
  cbn. induction props as [|[k v] ps IH]; cbn; [reflexivity|].
  rewrite IH. reflexivity.
Qed.

Lemma sanitizeObject_no_array v : no_array (sanitizeObject v) = true.
Proof.
  induction v as [| |b|n|s|items IH|props IH] using jsval_nested_ind;
    try reflexivity.
  - rewrite sanitizeObject_JArr, no_array_JObj. generalize 0%nat.
    induction IH as [|x xs Hx _ IHxs]; intros i; [reflexivity|].
    rewrite indexed_cons, forallb_cons. cbn [fst snd].
    rewrite Hx, IHxs. reflexivity.
  - rewrite sanitizeObject_JObj, no_array_JObj.
    induction IH as [|[k v] ps Hv _ IHps]; [reflexivity|].
    rewrite sanitize_props_cons.
    destruct (dangerous k) eqn:Hk; [exact IHps|].
    rewrite forallb_cons. cbn [fst snd] in *. rewrite Hv, IHps. reflexivity.
Qed.

(** X30: [sanitizeObject] copies every array into a plain object keyed by
    the indices, so its result, and with it what [parseJSONSafe] returns,
    holds no array at any depth (and none of the dangerous keys).  An
    account whose [gamesAndStatus] is an array is therefore refused by
    [validateAccount] once it has gone through [sanitizeObject]:
    'gamesAndStatus must be an array'. *)
Theorem sanitizeObject_turns_arrays_into_objects `{J : JSON} :
  (forall v, no_array (sanitizeObject v) = true) /\
  (forall items,
     sanitizeObject (JArr items) = JObj (indexed sanitizeObject 0 items)) /\
  (forall jsonString,
     no_array (parseJSONSafe jsonString) = true /\
     clean (parseJSONSafe jsonString) = true) /\
  (forall props items,
     lookup_prop "gamesAndStatus" props = JArr items ->
     fst (validateAccount (sanitizeObject (JObj props))) = false /\
     In GamesNotArray (snd (validateAccount (sanitizeObject (JObj props))))).
Proof.
  split; [apply sanitizeObject_no_array|].
  split; [apply sanitizeObject_JArr|]. split.
  - intros jsonString. unfold parseJSONSafe.
    destruct (parse jsonString); [|split; reflexivity].
    split; [apply sanitizeObject_no_array | apply sanitizeObject_clean].
  - intros props items Hg.
    assert (Hin : In GamesNotArray
                    (snd (validateAccount (sanitizeObject (JObj props))))).
    { rewrite sanitizeObject_JObj. unfold validateAccount.
      cbn [is_object negb snd prop].
      rewrite (lookup_sanitize_props "gamesAndStatus").
      change (dangerous "gamesAndStatus") with false. cbn iota.
      rewrite Hg, sanitizeObject_JArr.
      apply in_or_app. right. apply in_or_app. right.
      apply in_or_app. left. left. reflexivity. }
    split; [|exact Hin]. revert Hin.
    rewrite sanitizeObject_JObj. unfold validateAccount.
    cbn [is_object negb snd fst].
    destruct (_ ++ _ ++ _ ++ _)%list; [intros [] | reflexivity].
Qed.

End ArrayFacts.
